(** * Ramayana Digital Rishi: citation extraction and stream decoding

    A shallow embedding of the two pieces of front-end logic of the
    repository that carry invariants:

    - [ChatMessage] (the later of the two revisions of the component in
      src/unnamed/part_002, with [handleVerseClick] of
      src/ramayana-ui/src/App.jsx): the four regular-expression passes that
      turn citation text into Markdown links, and the citation button of
      the Markdown renderer;
    - [useAgent] (the hook exported from
      src/ramayana-ui/src/components/ThinkingBubble.jsx): the handlers that
      fold the events of the research stream into the message list.

    JavaScript strings are sequences of UTF-16 code units; they are modelled
    as lists of code units ([N]).  The regular expressions are kept as
    syntax and run by a backtracking matcher written in continuation
    passing style, the way ECMAScript specifies pattern matching. *)

From Stdlib Require Import NArith ZArith Ascii String List Bool Lia.
From stdpp Require Import base option list gmap.

Local Open Scope N_scope.

(** ** JavaScript strings *)

Module JsString.

Definition code_unit := N.
Definition jsstring := list code_unit.

(** String literals of the source are ASCII; [js] reads one. *)
Fixpoint js (s : string) : jsstring :=
  match s with
  | EmptyString => []
  | String a s' => N_of_ascii a :: js s'
  end.

Definition ch (a : ascii) : code_unit := N_of_ascii a.

(** [fullText[i]]: a code unit, or [undefined] out of range. *)
Definition char_at (s : jsstring) (i : Z) : option code_unit :=
  if (i <? 0)%Z then None else s !! Z.to_nat i.

(** [\d] *)
Definition is_digit (c : code_unit) : bool := (48 <=? c) && (c <=? 57).

(** [\s]: WhiteSpace and LineTerminator of ECMAScript. *)
Definition is_space (c : code_unit) : bool :=
  ((9 <=? c) && (c <=? 13)) || (c =? 32) || (c =? 160) || (c =? 5760)
  || ((8192 <=? c) && (c <=? 8202)) || (c =? 8232) || (c =? 8233)
  || (c =? 8239) || (c =? 8287) || (c =? 12288) || (c =? 65279).

(** [.] without the [s] flag: anything but a line terminator. *)
Definition is_dot (c : code_unit) : bool :=
  negb ((c =? 10) || (c =? 13) || (c =? 8232) || (c =? 8233)).

(** Canonicalize of a pattern without the [u] flag, restricted to what an
    ASCII pattern character can meet: ASCII letters fold to upper case,
    and a code unit above 127 never folds onto an ASCII one. *)
Definition canonicalize (c : code_unit) : code_unit :=
  if (97 <=? c) && (c <=? 122) then c - 32 else c.

End JsString.
Import JsString.

(** ** Regular expressions *)

Module RegExp.

Inductive regex : Type :=
| Empty                                   (* the empty pattern *)
| Char (c : code_unit)                    (* a pattern character *)
| Class (p : code_unit -> bool)           (* \d, \s, ., [...] *)
| Seq (r1 r2 : regex)                     (* r1 r2 *)
| Alt (r1 r2 : regex)                     (* r1|r2 *)
| Star (greedy : bool) (r : regex)        (* r* and r*? *)
| Group (n : nat) (r : regex)             (* the n-th capturing group *)
| NonCapture (r : regex)                  (* (?:r) *)
| NegLookahead (r : regex).               (* (?!r) *)

Definition Plus (greedy : bool) (r : regex) : regex := Seq r (Star greedy r).
Definition Opt (r : regex) : regex := Alt r Empty.

(** A literal run of pattern characters. *)
Fixpoint Lit (s : jsstring) : regex :=
  match s with
  | [] => Empty
  | [c] => Char c
  | c :: s' => Seq (Char c) (Lit s')
  end.

Definition digit := Class is_digit.
Definition space := Class is_space.
Definition dot := Class is_dot.

Record RegExp := mkRegExp { source : regex; ignoreCase : bool }.

(** Captures, numbered from 1; slot 0 is unused. *)
Definition captures := list (option jsstring).

Definition mstate : Type := jsstring * captures.
Definition cont := jsstring -> captures -> option mstate.

(** Iteration of a starred atom.  An iteration that consumes nothing is
    rejected, so at most [length s] iterations happen and the fuel
    [S (length s)] given by [match_re] is never exhausted. *)
Fixpoint star (greedy : bool) (body : cont -> cont) (k : cont) (fuel : nat)
  : cont :=
  fun s caps =>
    match fuel with
    | O => k s caps
    | S fuel' =>
        let again :=
          body (fun s' caps' =>
                  if (length s' <? length s)%nat
                  then star greedy body k fuel' s' caps'
                  else None) s caps in
        if greedy
        then match again with Some r => Some r | None => k s caps end
        else match k s caps with Some r => Some r | None => again end
    end.

(** [match_re i r k s caps]: match [r] at the head of [s], then continue
    with [k] on what is left; alternatives are tried in priority order. *)
Fixpoint match_re (i : bool) (r : regex) (k : cont) : cont :=
  fun s caps =>
    match r with
    | Empty => k s caps
    | Char c =>
        match s with
        | x :: s' =>
            if (if i then canonicalize x =? canonicalize c else x =? c)
            then k s' caps else None
        | [] => None
        end
    | Class p =>
        match s with
        | x :: s' => if p x then k s' caps else None
        | [] => None
        end
    | Seq r1 r2 => match_re i r1 (match_re i r2 k) s caps
    | Alt r1 r2 =>
        match match_re i r1 k s caps with
        | Some m => Some m
        | None => match_re i r2 k s caps
        end
    | Star greedy r' => star greedy (match_re i r') k (S (length s)) s caps
    | Group n r' =>
        match_re i r'
          (fun s' caps' =>
             k s' (<[n := Some (take (length s - length s') s)]> caps'))
          s caps
    | NonCapture r' => match_re i r' k s caps
    | NegLookahead r' =>
        match match_re i r' (fun s' caps' => Some (s', caps')) s caps with
        | Some _ => None
        | None => k s caps
        end
    end.

(** One successful match: where it starts, what it covers, its groups. *)
Record hit := mkHit { index : nat; matched : jsstring; groups : captures }.

Definition group (h : hit) (n : nat) : jsstring :=
  default [] (groups h !! n ≫= id).

(** The match of [re] that starts exactly at the head of [s]. *)
Definition match_here (re : RegExp) (s : jsstring)
  : option (jsstring * captures) :=
  match match_re (ignoreCase re) (source re)
          (fun s' caps' => Some (s', caps')) s (replicate 4 None) with
  | Some (s', caps') => Some (take (length s - length s') s, caps')
  | None => None
  end.

(** [re.exec(s)] for a regex without the [g] flag: the leftmost match. *)
Fixpoint exec_from (re : RegExp) (off : nat) (s : jsstring) : option hit :=
  match match_here re s with
  | Some (m, caps) => Some (mkHit off m caps)
  | None =>
      match s with
      | [] => None
      | _ :: s' => exec_from re (S off) s'
      end
  end.

Definition exec (re : RegExp) (s : jsstring) : option hit := exec_from re 0 s.

(** [re.test(s)] *)
Definition test (re : RegExp) (s : jsstring) : bool := bool_decide (is_Some (exec re s)).

(** The pieces a global scan cuts a string into: code units that no match
    covers, and the successive non-overlapping matches. *)
Inductive segment : Type :=
| Text (c : code_unit)
| Hit (h : hit).

(** The scan of a [g] regex: after a match, the search resumes at its
    end (one code unit further after an empty match).  [skip] counts the
    code units still covered by the last match. *)
Fixpoint scan (re : RegExp) (skip : nat) (off : nat) (s : jsstring)
  : list segment :=
  match s with
  | [] =>
      match skip, match_here re [] with
      | O, Some (m, caps) => [Hit (mkHit off m caps)]
      | _, _ => []
      end
  | c :: s' =>
      match skip with
      | S skip' => scan re skip' (S off) s'
      | O =>
          match match_here re s with
          | Some (m, caps) =>
              match length m with
              | O => Hit (mkHit off m caps) :: Text c :: scan re 0 (S off) s'
              | S n => Hit (mkHit off m caps) :: scan re n (S off) s'
              end
          | None => Text c :: scan re 0 (S off) s'
          end
      end
  end.

Definition segments (re : RegExp) (s : jsstring) : list segment :=
  scan re 0 0 s.

Definition hit_of (sg : segment) : option hit :=
  match sg with Hit h => Some h | Text _ => None end.

Definition hits (re : RegExp) (s : jsstring) : list hit :=
  omap hit_of (segments re s).

(** [s.match(re)] for a [g] regex, with [|| []] applied. *)
Definition match_all (re : RegExp) (s : jsstring) : list jsstring :=
  matched <$> hits re s.

(** The text a replacer function puts for a segment. *)
Definition piece (f : hit -> jsstring) (sg : segment) : jsstring :=
  match sg with Text c => [c] | Hit h => f h end.

(** [s.replace(re, f)] for a [g] regex and a replacer function. *)
Definition replace (re : RegExp) (f : hit -> jsstring) (s : jsstring)
  : jsstring :=
  concat (piece f <$> segments re s).

(** The same when the replacer may throw. *)
Definition replace_opt (re : RegExp) (f : hit -> option jsstring)
  (s : jsstring) : option jsstring :=
  pieces ← mapM (fun sg => match sg with
                           | Text c => Some [c]
                           | Hit h => f h
                           end) (segments re s);
  Some (concat pieces).

(** The comparison of a pattern character with a code unit. *)
Definition char_test (i : bool) (x c : code_unit) : bool :=
  if i then canonicalize x =? canonicalize c else x =? c.

(** *** Where a pattern can match

    [dead re s]: [re] matches at no position of [s].  [nullable] and
    [first] bound from above what a pattern can do on its first code
    unit: match without consuming it, or consume it. *)

Definition dead (re : RegExp) (s : jsstring) : Prop :=
  forall i, match_here re (drop i s) = None.

Fixpoint nullable (r : regex) : bool :=
  match r with
  | Empty => true
  | Char _ | Class _ => false
  | Seq r1 r2 => nullable r1 && nullable r2
  | Alt r1 r2 => nullable r1 || nullable r2
  | Star _ _ => true
  | Group _ r' | NonCapture r' => nullable r'
  | NegLookahead _ => true
  end.

Fixpoint first (i : bool) (r : regex) (x : code_unit) : bool :=
  match r with
  | Empty => false
  | Char c => if i then canonicalize x =? canonicalize c else x =? c
  | Class p => p x
  | Seq r1 r2 => first i r1 x || (nullable r1 && first i r2 x)
  | Alt r1 r2 => first i r1 x || first i r2 x
  | Star _ r' | Group _ r' | NonCapture r' => first i r' x
  | NegLookahead _ => false
  end.

End RegExp.
Import RegExp.

(** ** encodeURIComponent *)

Module Uri.

(** The characters [encodeURIComponent] leaves alone:
    letters, digits and [- _ . ! ~ * ' ( )]. *)
Definition unreserved (c : code_unit) : bool :=
  ((65 <=? c) && (c <=? 90)) || ((97 <=? c) && (c <=? 122)) || is_digit c
  || existsb (N.eqb c) (js "-_.!~*'()").

Definition hex_digit (n : N) : code_unit :=
  if n <? 10 then 48 + n else 55 + n.

(** [%XX] for one octet. *)
Definition percent (octet : N) : jsstring :=
  [ch "%"; hex_digit (octet / 16); hex_digit (octet mod 16)].

(** The UTF-8 octets of a code point. *)
Definition utf8 (v : N) : list N :=
  if v <? 128 then [v]
  else if v <? 2048 then [192 + v / 64; 128 + v mod 64]
  else if v <? 65536 then
    [224 + v / 4096; 128 + (v / 64) mod 64; 128 + v mod 64]
  else
    [240 + v / 262144; 128 + (v / 4096) mod 64;
     128 + (v / 64) mod 64; 128 + v mod 64].

Definition escape (v : N) : jsstring := concat (percent <$> utf8 v).

Definition lead_surrogate (c : code_unit) : bool :=
  (55296 <=? c) && (c <=? 56319).
Definition trail_surrogate (c : code_unit) : bool :=
  (56320 <=? c) && (c <=? 57343).

(** [None] stands for the URIError thrown on a lone surrogate. *)
Fixpoint encodeURIComponent (s : jsstring) : option jsstring :=
  match s with
  | [] => Some []
  | c :: s' =>
      if unreserved c then cons c <$> encodeURIComponent s'
      else if trail_surrogate c then None
      else if lead_surrogate c then
        match s' with
        | d :: s'' =>
            if trail_surrogate d
            then app (escape ((c - 55296) * 1024 + (d - 56320) + 65536))
                   <$> encodeURIComponent s''
            else None
        | [] => None
        end
      else app (escape c) <$> encodeURIComponent s'
  end.

End Uri.
Import Uri.

(** ** ChatMessage: the citation passes *)

Module ChatMessage.

(** Sequences and alternatives, as they are written in a pattern. *)
Fixpoint Cat (rs : list regex) : regex :=
  match rs with
  | [] => Empty
  | [r] => r
  | r :: rs' => Seq r (Cat rs')
  end.

Fixpoint Alts (rs : list regex) : regex :=
  match rs with
  | [] => Empty
  | [r] => r
  | r :: rs' => Alt r (Alts rs')
  end.

Definition KANDA_MAP : gmap jsstring jsstring :=
  list_to_map
    [ (js "1", js "Bala Kanda");
      (js "2", js "Ayodhya Kanda");
      (js "3", js "Aranya Kanda");
      (js "4", js "Kishkindha Kanda");
      (js "5", js "Sundara Kanda");
      (js "6", js "Yuddha Kanda");
      (js "7", js "Uttara Kanda") ].

Definition kandaList : list jsstring :=
  [js "Bala"; js "Ayodhya"; js "Aranya"; js "Kishkindha";
   js "Sundara"; js "Yuddha"; js "Uttara"].

(** (Bala|Ayodhya|Aranya|Kishkindha|Sundara|Yuddha|Uttara) *)
Definition kanda_names : regex := Alts (Lit <$> kandaList).

(** "/\[\[Verse:\s*(.+?)\]\]/gi" *)
Definition BRACKET_CITATION_REGEX : RegExp :=
  mkRegExp
    (Cat [Lit (js "[[Verse:"); Star true space;
          Group 1 (Plus false dot); Lit (js "]]")])
    true.

(** [: ] *)
Definition colon_or_blank (c : code_unit) : bool := (c =? 58) || (c =? 32).

(** "/(Bala|...|Uttara)\s*Kanda\s*(\d+)[: ](\d+)/gi" *)
Definition NAKED_CITATION_REGEX : RegExp :=
  mkRegExp
    (Cat [Group 1 kanda_names; Star true space; Lit (js "Kanda");
          Star true space; Group 2 (Plus true digit);
          Class colon_or_blank; Group 3 (Plus true digit)])
    true.

(** [:\d] *)
Definition colon_or_digit (c : code_unit) : bool := (c =? 58) || is_digit c.

(** The pattern, spaced out:
    "/ (Bala|...|Uttara) \s* Kanda \s* (?: Sarga \s* )? (\d+) (?! \s* [:\d] ) /gi" *)
Definition SARGA_ONLY_REGEX : RegExp :=
  mkRegExp
    (Cat [Group 1 kanda_names; Star true space; Lit (js "Kanda");
          Star true space;
          Opt (NonCapture (Cat [Lit (js "Sarga"); Star true space]));
          Group 2 (Plus true digit);
          NegLookahead (Cat [Star true space; Class colon_or_digit])])
    true.

(** "/\[\[CIT:(.+?)\|(\d+)\|(\d+)\]\]/g" *)
Definition MARKER_REGEX : RegExp :=
  mkRegExp
    (Cat [Lit (js "[[CIT:"); Group 1 (Plus false dot); Char (ch "|");
          Group 2 (Plus true digit); Char (ch "|");
          Group 3 (Plus true digit); Lit (js "]]")])
    false.

(** "/Kanda\s+(\d+)/i" *)
Definition KANDA_INDEX_REGEX : RegExp :=
  mkRegExp
    (Cat [Lit (js "Kanda"); Plus true space; Group 1 (Plus true digit)])
    true.

(** "/\d+/g" *)
Definition NUMBER_REGEX : RegExp := mkRegExp (Plus true digit) false.

(** "/:1/g" *)
Definition COLON_ONE_REGEX : RegExp := mkRegExp (Lit (js ":1")) false.

(** [[CIT:kanda|sarga|shloka]], the internal marker. *)
Definition marker (kanda sarga shloka : jsstring) : jsstring :=
  js "[[CIT:" ++ kanda ++ js "|" ++ sarga ++ js "|" ++ shloka ++ js "]]".

(** First pass, the replacer of [[Verse: ...]]. *)
Definition bracket_replacer (h : hit) : jsstring :=
  let content := group h 1 in
  let foundKanda :=
    find (fun k => test (mkRegExp (Lit k) true) content) kandaList in
  let cleanKanda :=
    match foundKanda with
    | Some k => k ++ js " Kanda"
    | None =>
        match exec KANDA_INDEX_REGEX content with
        | Some kandaIndexMatch =>
            default (js "Bala Kanda") (KANDA_MAP !! group kandaIndexMatch 1)
        | None => js "Bala Kanda"
        end
    end in
  let allNumbers := match_all NUMBER_REGEX content in
  let isIndexed := test KANDA_INDEX_REGEX content in
  let dataNumbers := if isIndexed then drop 1 allNumbers else allNumbers in
  match dataNumbers with
  | sarga :: shloka :: _ => marker cleanKanda sarga shloka
  | [sarga] => marker cleanKanda sarga (js "0")
  | [] => marker cleanKanda (js "1") (js "1")
  end.

(** The guard shared by the second and third passes:
    prevChar === '[' || prevChar === '(' || nextChar === ']' || nextChar === ')' *)
Definition prevChar (h : hit) (fullText : jsstring) : option code_unit :=
  char_at fullText (Z.of_nat (index h) - 1).
Definition nextChar (h : hit) (fullText : jsstring) : option code_unit :=
  char_at fullText (Z.of_nat (index h) + Z.of_nat (length (matched h))).

Definition delimited (h : hit) (fullText : jsstring) : bool :=
  bool_decide (prevChar h fullText = Some (ch "["))
  || bool_decide (prevChar h fullText = Some (ch "("))
  || bool_decide (nextChar h fullText = Some (ch "]"))
  || bool_decide (nextChar h fullText = Some (ch ")")).

(** vNum === "1" && (processedContent.match(/:1/g) || []).length > 2 *)
Definition isSuspicious (processedContent vNum : jsstring) : bool :=
  bool_decide (vNum = js "1")
  && (2 <? length (match_all COLON_ONE_REGEX processedContent))%nat.

(** Second pass, the replacer of naked citations.  [processedContent] is
    the variable of the enclosing function, still holding the text the
    pass runs on. *)
Definition naked_replacer (processedContent fullText : jsstring) (h : hit)
  : jsstring :=
  let kName := group h 1 in
  let sNum := group h 2 in
  let vNum := group h 3 in
  if delimited h fullText then matched h
  else if isSuspicious processedContent vNum then matched h
  else marker (kName ++ js " Kanda") sNum vNum.

(** Third pass, the replacer of chapter-only citations. *)
Definition sarga_replacer (fullText : jsstring) (h : hit) : jsstring :=
  let kName := group h 1 in
  let sNum := group h 2 in
  if delimited h fullText then matched h
  else if bool_decide (nextChar h fullText = Some (ch ":")) then matched h
  else marker (kName ++ js " Kanda") sNum (js "0").

(** [k s:v](http://citation/<encoded k>/s/v) *)
Definition citation_link (k s v : jsstring) : option jsstring :=
  ek ← encodeURIComponent k;
  Some (js "[" ++ k ++ js " " ++ s ++ js ":" ++ v
          ++ js "](http://citation/" ++ ek ++ js "/" ++ s ++ js "/" ++ v
          ++ js ")").

(** Final pass, the replacer of the markers. *)
Definition marker_replacer (h : hit) : option jsstring :=
  citation_link (group h 1) (group h 2) (group h 3).

Definition bracket_pass (text : jsstring) : jsstring :=
  replace BRACKET_CITATION_REGEX bracket_replacer text.

Definition naked_pass (text : jsstring) : jsstring :=
  replace NAKED_CITATION_REGEX (naked_replacer text text) text.

Definition sarga_pass (text : jsstring) : jsstring :=
  replace SARGA_ONLY_REGEX (sarga_replacer text) text.

Definition final_pass (text : jsstring) : option jsstring :=
  replace_opt MARKER_REGEX marker_replacer text.

(** The text with its markers, before the final pass. *)
Definition marked (content : jsstring) : jsstring :=
  sarga_pass (naked_pass (bracket_pass content)).

(** [processedContent] as handed to the Markdown renderer. *)
Definition processedContent (content : jsstring) : option jsstring :=
  final_pass (marked content).

(** The references the final pass turns into links, in order. *)
Definition citations (content : jsstring)
  : list (jsstring * jsstring * jsstring) :=
  (fun h => (group h 1, group h 2, group h 3))
    <$> hits MARKER_REGEX (marked content).

(** *** Counting ":1"

    [colon_ones] is the count the hallucination check makes;
    [count_colon_one] is the same count by a direct recursion, and
    [naked_colon_ones] counts inside the naked-form matches only. *)

Definition colon_ones (text : jsstring) : nat :=
  length (match_all COLON_ONE_REGEX text).

Fixpoint count_colon_one (s : jsstring) : nat :=
  match s with
  | [] => O
  | c :: t =>
      match t with
      | d :: t' =>
          if (c =? 58) && (d =? 49) then S (count_colon_one t')
          else count_colon_one t
      | [] => O
      end
  end.

Definition naked_colon_ones (text : jsstring) : nat :=
  sum_list_with (fun h => count_colon_one (matched h))
    (hits NAKED_CITATION_REGEX text).

(** *** Texts that the passes leave alone

    A match of the second or third pass is withheld when its replacer
    gives back the matched text; a text is settled when the first and
    final patterns match nowhere and every other match is withheld. *)

Definition withheld_naked (text : jsstring) (h : hit) : bool :=
  delimited h text || isSuspicious text (group h 3).

Definition withheld_sarga (text : jsstring) (h : hit) : bool :=
  delimited h text || bool_decide (nextChar h text = Some (ch ":")).

Definition no_hits (re : RegExp) (text : jsstring) : bool :=
  match hits re text with [] => true | _ :: _ => false end.

Definition settled (text : jsstring) : bool :=
  no_hits BRACKET_CITATION_REGEX text
  && forallb (withheld_naked text) (hits NAKED_CITATION_REGEX text)
  && forallb (withheld_sarga text) (hits SARGA_ONLY_REGEX text)
  && no_hits MARKER_REGEX text.

End ChatMessage.
Import ChatMessage.

(** ** The citation button of the Markdown renderer, and its click *)

Module CitationButton.

(** A template literal prints a missing array element as "undefined". *)
Definition to_text (v : option jsstring) : jsstring :=
  default (js "undefined") v.

(** onVerseClick(kanda, sarga, shloka) *)
Record verse_click := mkVerseClick {
  vc_kanda : jsstring;
  vc_sarga : option jsstring;
  vc_shloka : option jsstring }.

(** What the renderer returns for a citation link: the label and title of
    the button, whether it is styled as a chapter badge, and the calls of
    [onVerseClick] one click makes. *)
Record button := mkButton {
  label : jsstring;
  title : jsstring;
  isChapterRef : bool;
  onClick : list verse_click }.

Definition citation_button (kanda : jsstring) (sarga shloka : option jsstring)
  : button :=
  let isChapterRef := bool_decide (shloka = Some (js "0")) in
  let label :=
    if isChapterRef then kanda ++ js " " ++ to_text sarga
    else kanda ++ js " " ++ to_text sarga ++ js ":" ++ to_text shloka in
  mkButton label
    (if isChapterRef then js "Chapter Summary" else js "Tap to read verse")
    isChapterRef
    (if isChapterRef then [] else [mkVerseClick kanda sarga shloka]).

(** [s.split('/')] *)
Fixpoint split_slash (s : jsstring) : list jsstring :=
  match s with
  | [] => [[]]
  | c :: s' =>
      if c =? ch "/" then [] :: split_slash s'
      else match split_slash s' with
           | p :: ps => (c :: p) :: ps
           | [] => [[c]]
           end
  end.

Definition starts_with (p s : jsstring) : bool :=
  bool_decide (take (length p) s = p).

Section Anchor.
(** The decoder of the platform; [None] is its URIError. *)
Variable decodeURIComponent : jsstring -> option jsstring.

(** The [a] component: [Some] button for a citation link (the outer
    [None] is a thrown URIError), [Some None] for an ordinary link. *)
Definition anchor (href : jsstring) : option (option button) :=
  if starts_with (js "http://citation/") href then
    let path := drop (length (js "http://citation/")) href in
    parts ← mapM decodeURIComponent (split_slash path);
    match parts with
    | kanda :: rest => Some (Some (citation_button kanda (rest !! 0%nat) (rest !! 1%nat)))
    | [] => None
    end
  else Some None.
End Anchor.

(** App.handleVerseClick up to its first suspension point: the modal
    opens in the loading state and the lookup request is issued. *)
Record verse_modal := mkVerseModal {
  isLoadingVerse : bool;
  selectedVerse : option verse_click;
  fetches : list jsstring }.

Definition handleVerseClick (baseUrl : jsstring) (c : verse_click)
  (st : verse_modal) : verse_modal :=
  match encodeURIComponent (vc_kanda c) with
  | Some ek =>
      mkVerseModal true (Some c)
        (fetches st ++
           [baseUrl ++ js "/verse?kanda=" ++ ek ++ js "&sarga="
              ++ to_text (vc_sarga c) ++ js "&shloka=" ++ to_text (vc_shloka c)])
  | None => mkVerseModal false None (fetches st)
  end.

(** A click on the button, with [App] behind [onVerseClick]. *)
Definition click (baseUrl : jsstring) (b : button) (st : verse_modal)
  : verse_modal :=
  foldl (fun st c => handleVerseClick baseUrl c st) st (onClick b).

(** The decimal value of a run of digits. *)
Definition number_of (s : jsstring) : option N :=
  match s with
  | [] => None
  | _ => foldl (fun acc c =>
                  n ← acc; if is_digit c then Some (10 * n + (c - 48)) else None)
           (Some 0) s
  end.

End CitationButton.
Import CitationButton.

(** ** useAgent: folding the research stream into the messages *)

Module UseAgent.

Inductive Role := user | assistant | error.

#[global] Instance Role_eq_dec : EqDecision Role.
Proof. solve_decision. Defined.

(** A message object.  [id] is set on the assistant placeholders only;
    [plan], [planCompletedIndex] and [planDetails] are absent until an
    event sets them.  Every message that carries an [id] was created with
    [thoughts: []], so the spread of [msg.thoughts] is always defined. *)
Record message := mkMessage {
  id : option Z;
  role : Role;
  content : jsstring;
  thoughts : list jsstring;
  plan : option (list jsstring);
  planCompletedIndex : option Z;
  planDetails : option (gmap Z (list jsstring)) }.

(** One parsed line of the stream, by its [type]. *)
Inductive data :=
| plan_event (steps : list jsstring) (completed : Z)
| plan_update (completed : Z)
| step_detail (step_index : Z) (detail : jsstring)
| thought (text : jsstring)
| answer (text : jsstring)
| other.

(** The placeholder [sendMessage] appends for the answer. *)
Definition placeholder (assistantMsgId : Z) : message :=
  mkMessage (Some assistantMsgId) assistant [] [] None None None.

Definition with_plan (steps : list jsstring) (completed : Z) (m : message) :=
  mkMessage (id m) (role m) (content m) (thoughts m)
    (Some steps) (Some completed) (planDetails m).

Definition with_completed (completed : Z) (m : message) :=
  mkMessage (id m) (role m) (content m) (thoughts m)
    (plan m) (Some completed) (planDetails m).

Definition with_details (d : gmap Z (list jsstring)) (m : message) :=
  mkMessage (id m) (role m) (content m) (thoughts m)
    (plan m) (planCompletedIndex m) (Some d).

Definition with_thought (t : jsstring) (m : message) :=
  mkMessage (id m) (role m) (content m) (thoughts m ++ [t])
    (plan m) (planCompletedIndex m) (planDetails m).

Definition with_content (c : jsstring) (m : message) :=
  mkMessage (id m) (role m) c (thoughts m)
    (plan m) (planCompletedIndex m) (planDetails m).

(** The state updaters.  [None] is the TypeError of reading [.role] of
    the last element of an empty array. *)
Definition updater := list message -> option (list message).

(** The shape shared by the first three handlers: act on the messages
    that have the id of the last one, if that one is the assistant's. *)
Definition on_last_assistant (f : message -> message) : updater :=
  fun prev =>
    lastMsg ← last prev;
    if decide (role lastMsg = assistant)
    then Some ((fun m => if decide (id m = id lastMsg) then f m else m) <$> prev)
    else Some prev.

(** planDetails[step_index] || [] of [m.planDetails || {}] *)
Definition stepDetails (m : message) (step_index : Z) : list jsstring :=
  default [] (default ∅ (planDetails m) !! step_index).

Definition add_detail (step_index : Z) (detail : jsstring) (m : message)
  : message :=
  let prevDetails := default ∅ (planDetails m) in
  let stepDetails := default [] (prevDetails !! step_index) in
  if bool_decide (detail ∈ stepDetails) then m
  else with_details (<[step_index := stepDetails ++ [detail]]> prevDetails) m.

(** if (data.type === 'plan') ... *)
Definition on_plan (d : data) : updater :=
  match d with
  | plan_event steps completed => on_last_assistant (with_plan steps completed)
  | _ => Some
  end.

(** if (data.type === 'plan_update') ... *)
Definition on_plan_update (d : data) : updater :=
  match d with
  | plan_update completed => on_last_assistant (with_completed completed)
  | _ => Some
  end.

(** if (data.type === 'step_detail') ... *)
Definition on_step_detail (d : data) : updater :=
  match d with
  | step_detail step_index detail =>
      on_last_assistant (add_detail step_index detail)
  | _ => Some
  end.

(** The last updater: thoughts and the answer, on the message of this
    request. *)
Definition on_content (assistantMsgId : Z) (d : data) : updater :=
  fun prev =>
    Some ((fun msg =>
             if decide (id msg = Some assistantMsgId) then
               match d with
               | thought t => with_thought t msg
               | answer c => with_content c msg
               | _ => msg
               end
             else msg) <$> prev).

(** One line of the stream: the four updaters, queued in this order. *)
Definition handle (assistantMsgId : Z) (d : data) : updater :=
  fun prev =>
    p1 ← on_plan d prev;
    p2 ← on_plan_update d p1;
    p3 ← on_step_detail d p2;
    on_content assistantMsgId d p3.

(** The lines of a stream, in order. *)
Fixpoint run (assistantMsgId : Z) (ds : list data) : updater :=
  fun prev =>
    match ds with
    | [] => Some prev
    | d :: ds' => next ← handle assistantMsgId d prev; run assistantMsgId ds' next
    end.

(** What the view shows of the message the stream writes into (the last
    one): its completion cursor and the details of one step. *)
Definition current_cursor (msgs : option (list message)) : option Z :=
  prev ← msgs; m ← last prev; planCompletedIndex m.

Definition current_details (msgs : option (list message)) (step_index : Z)
  : option (list jsstring) :=
  prev ← msgs; m ← last prev; Some (stepDetails m step_index).

(** *** The decoder, message by message

    Every updater maps one function over the list; these are the
    functions.  [lastMsg] is the last message of the list a line meets. *)

Definition last_rule (d : data) (m : message) : message :=
  match d with
  | plan_event steps completed => with_plan steps completed m
  | plan_update completed => with_completed completed m
  | step_detail step_index detail => add_detail step_index detail m
  | _ => m
  end.

Definition content_rule (assistantMsgId : Z) (d : data) (m : message)
  : message :=
  if decide (id m = Some assistantMsgId) then
    match d with
    | thought t => with_thought t m
    | answer c => with_content c m
    | _ => m
    end
  else m.

Definition step_msg (assistantMsgId : Z) (d : data) (lastMsg m : message)
  : message :=
  content_rule assistantMsgId d
    (if decide (role lastMsg = assistant)
     then if decide (id m = id lastMsg) then last_rule d m else m
     else m).

Fixpoint run_msg (assistantMsgId : Z) (ds : list data) (lastMsg m : message)
  : message :=
  match ds with
  | [] => m
  | d :: ds' =>
      run_msg assistantMsgId ds' (step_msg assistantMsgId d lastMsg lastMsg)
        (step_msg assistantMsgId d lastMsg m)
  end.

(** Every per-step list of details is free of duplicates. *)
Definition details_dup_free (m : message) : Prop :=
  forall step_index, NoDup (stepDetails m step_index).

End UseAgent.
Import UseAgent.

(** ** What a match consists of *)

Module Matching.

(** [spans i r caps pre rest caps']: the pattern [r] matches [pre] in
    front of [rest] and turns the captures [caps] into [caps'].  This is
    the matcher of [match_re] told as a relation: every result of the
    matcher is an instance of it. *)
Inductive spans (i : bool)
  : regex -> captures -> jsstring -> jsstring -> captures -> Prop :=
| spans_empty caps rest :
    spans i Empty caps [] rest caps
| spans_char c x caps rest :
    char_test i x c = true -> spans i (Char c) caps [x] rest caps
| spans_class p x caps rest :
    p x = true -> spans i (Class p) caps [x] rest caps
| spans_seq r1 r2 caps a caps1 b rest caps2 :
    spans i r1 caps a (b ++ rest) caps1 ->
    spans i r2 caps1 b rest caps2 ->
    spans i (Seq r1 r2) caps (a ++ b) rest caps2
| spans_alt_left r1 r2 caps a rest caps' :
    spans i r1 caps a rest caps' -> spans i (Alt r1 r2) caps a rest caps'
| spans_alt_right r1 r2 caps a rest caps' :
    spans i r2 caps a rest caps' -> spans i (Alt r1 r2) caps a rest caps'
| spans_star_stop g r caps rest :
    spans i (Star g r) caps [] rest caps
| spans_star_again g r caps a caps1 b rest caps2 :
    a <> [] ->
    spans i r caps a (b ++ rest) caps1 ->
    spans i (Star g r) caps1 b rest caps2 ->
    spans i (Star g r) caps (a ++ b) rest caps2
| spans_group n r caps a rest caps' :
    spans i r caps a rest caps' ->
    spans i (Group n r) caps a rest (<[n := Some a]> caps')
| spans_noncapture r caps a rest caps' :
    spans i r caps a rest caps' -> spans i (NonCapture r) caps a rest caps'
| spans_neglookahead r caps rest :
    match_re i r (fun s' caps' => Some (s', caps')) rest caps = None ->
    spans i (NegLookahead r) caps [] rest caps.

(** A pattern without capturing groups. *)
Fixpoint group_free (r : regex) : bool :=
  match r with
  | Empty | Char _ | Class _ | NegLookahead _ => true
  | Seq r1 r2 | Alt r1 r2 => group_free r1 && group_free r2
  | Star _ r' | NonCapture r' => group_free r'
  | Group _ _ => false
  end.

(** What a lazy starred class does when its fuel suffices: the
    continuation is tried first, then one more code unit of the class. *)
Fixpoint lazy_run (p : code_unit -> bool) (k : cont) (s : jsstring)
  (caps : captures) : option mstate :=
  match k s caps with
  | Some r => Some r
  | None =>
      match s with
      | c :: s' => if p c then lazy_run p k s' caps else None
      | [] => None
      end
  end.

(** A run of decimal digits, one at least. *)
Definition is_number (s : jsstring) : Prop :=
  s <> [] /\ Forall (fun c => is_digit c = true) s.

End Matching.

(** ** decodeURIComponent *)

Module UriDecode.

(** The value of a hexadecimal digit, in either case. *)
Definition hex_value (c : code_unit) : option N :=
  if is_digit c then Some (c - 48)
  else if (65 <=? c) && (c <=? 70) then Some (c - 55)
  else if (97 <=? c) && (c <=? 102) then Some (c - 87)
  else None.

(** The octet written [%xy], from its two digits. *)
Definition octet (x y : code_unit) : option N :=
  a ← hex_value x; b ← hex_value y; Some (16 * a + b).

Definition continuation (b : N) : bool := (128 <=? b) && (b <=? 191).

(** The code point of a well-formed UTF-8 sequence of 2, 3 or 4 octets;
    [None] for an overlong form, a surrogate or a value past U+10FFFF. *)
Definition decode2 (b1 b2 : N) : option N :=
  if (194 <=? b1) && continuation b2
  then Some ((b1 - 192) * 64 + (b2 - 128))
  else None.

Definition decode3 (b1 b2 b3 : N) : option N :=
  if (if b1 =? 224 then (160 <=? b2) && (b2 <=? 191)
      else if b1 =? 237 then (128 <=? b2) && (b2 <=? 159)
      else continuation b2)
     && continuation b3
  then Some ((b1 - 224) * 4096 + (b2 - 128) * 64 + (b3 - 128))
  else None.

Definition decode4 (b1 b2 b3 b4 : N) : option N :=
  if (if b1 =? 240 then (144 <=? b2) && (b2 <=? 191)
      else if b1 =? 244 then (128 <=? b2) && (b2 <=? 143)
      else (b1 <? 244) && continuation b2)
     && continuation b3 && continuation b4
  then Some ((b1 - 240) * 262144 + (b2 - 128) * 4096
             + (b3 - 128) * 64 + (b4 - 128))
  else None.

(** What an encoded component is made of: the characters the encoder
    leaves alone, and the percent sign of its escapes. *)
Definition encoded_unit (c : code_unit) : bool := unreserved c || (c =? 37).

(** The code units of a code point. *)
Definition utf16 (v : N) : jsstring :=
  if v <? 65536 then [v]
  else [55296 + (v - 65536) / 1024; 56320 + (v - 65536) mod 1024].

(** [None] stands for the URIError thrown on a malformed escape. *)
Fixpoint decodeURIComponent (s : jsstring) : option jsstring :=
  match s with
  | [] => Some []
  | c :: s1 =>
      if c =? 37 then
        match s1 with
        | x1 :: y1 :: s3 =>
            b1 ← octet x1 y1;
            if b1 <? 128 then cons b1 <$> decodeURIComponent s3
            else if b1 <? 192 then None
            else if b1 <? 224 then
              match s3 with
              | p2 :: x2 :: y2 :: s6 =>
                  if p2 =? 37 then
                    b2 ← octet x2 y2;
                    v ← decode2 b1 b2;
                    app (utf16 v) <$> decodeURIComponent s6
                  else None
              | _ => None
              end
            else if b1 <? 240 then
              match s3 with
              | p2 :: x2 :: y2 :: p3 :: x3 :: y3 :: s9 =>
                  if (p2 =? 37) && (p3 =? 37) then
                    b2 ← octet x2 y2;
                    b3 ← octet x3 y3;
                    v ← decode3 b1 b2 b3;
                    app (utf16 v) <$> decodeURIComponent s9
                  else None
              | _ => None
              end
            else if b1 <? 248 then
              match s3 with
              | p2 :: x2 :: y2 :: p3 :: x3 :: y3 :: p4 :: x4 :: y4 :: s12 =>
                  if (p2 =? 37) && (p3 =? 37) && (p4 =? 37) then
                    b2 ← octet x2 y2;
                    b3 ← octet x3 y3;
                    b4 ← octet x4 y4;
                    v ← decode4 b1 b2 b3 b4;
                    app (utf16 v) <$> decodeURIComponent s12
                  else None
              | _ => None
              end
            else None
        | _ => None
        end
      else cons c <$> decodeURIComponent s1
  end.

End UriDecode.

(** ** useAgent.sendMessage: the request and the reading of its stream *)

Module SendMessage.

(** [s.split(sep)] for a separator of one code unit. *)
Fixpoint split_char (sep : code_unit) (s : jsstring) : list jsstring :=
  match s with
  | [] => [[]]
  | c :: s' =>
      if c =? sep then [] :: split_char sep s'
      else match split_char sep s' with
           | p :: ps => (c :: p) :: ps
           | [] => [[c]]
           end
  end.

(** [!line.trim()]: the line is empty or white space only. *)
Definition blank (line : jsstring) : bool := forallb is_space line.

(** The state of the hook. [messages] is [None] once an updater has
    thrown. *)
Record agent := mkAgent {
  messages : option (list message);
  isThinking : bool;
  currentThought : jsstring }.

(** The greeting the hook starts with. *)
Definition greeting : message :=
  mkMessage None assistant
    (js "Namaste! I am the Digital Rishi. Ask me about Life, Strategy, or Dharma.")
    [] None None None.

Definition initial : agent := mkAgent (Some [greeting]) false [].

Definition userMsg (query : jsstring) : message :=
  mkMessage None user query [] None None None.

Definition errorMsg : message :=
  mkMessage None error (js "Connection interrupted.") [] None None None.

(** setMessages(prev => [...prev, m]) *)
Definition push (m : message) (st : agent) : agent :=
  mkAgent ((fun prev => prev ++ [m]) <$> messages st)
    (isThinking st) (currentThought st).

(** The text of a [thought] event. *)
Definition thought_of (d : data) : option jsstring :=
  match d with thought t => Some t | _ => None end.

Section Reader.

(** [JSON.parse(line)] and the reading of [data.type] and of the fields
    of its kind; [None] when this throws, which the [try] around one line
    catches. *)
Variable parse : jsstring -> option data.

(** The body of [for (const line of lines)]. *)
Definition on_line (assistantMsgId : Z) (st : agent) (line : jsstring)
  : agent :=
  if blank line then st
  else match parse line with
       | None => st
       | Some d =>
           mkAgent (prev ← messages st; handle assistantMsgId d prev)
             (isThinking st)
             (match d with thought t => t | _ => currentThought st end)
       end.

(** One turn of the reading loop: the chunk joins the buffer, the
    complete lines are handled, the last piece is kept. *)
Definition on_chunk (assistantMsgId : Z) (bs : jsstring * agent)
  (chunk : jsstring) : jsstring * agent :=
  let lines := split_char 10 (bs.1 ++ chunk) in
  (default [] (last lines),
   foldl (on_line assistantMsgId) bs.2 (removelast lines)).

Definition read_loop (assistantMsgId : Z) (chunks : list jsstring)
  (st : agent) : jsstring * agent :=
  foldl (on_chunk assistantMsgId) ([], st) chunks.

(** [sendMessage(query)] before the request is issued: the question and
    the placeholder of the answer are appended; [assistantMsgId] is the
    reading of [Date.now()]. *)
Definition start (assistantMsgId : Z) (query : jsstring) (st : agent)
  : agent :=
  let st1 := push (userMsg query) st in
  let st2 := mkAgent (messages st1) true (js "Connecting to the Archives...") in
  push (placeholder assistantMsgId) st2.

(** The [catch] and [finally] of [sendMessage]: [done] tells whether the
    stream ended or something threw. *)
Definition finish (done : bool) (st : agent) : agent :=
  let st' := if done then st else push errorMsg st in
  mkAgent (messages st') false [].

(** [sendMessage(query)] on a stream that delivers [chunks] and then ends
    or throws. *)
Definition sendMessage (assistantMsgId : Z) (query : jsstring)
  (chunks : list jsstring) (done : bool) (st : agent) : agent :=
  finish done
    (read_loop assistantMsgId chunks (start assistantMsgId query st)).2.

(** The lines of a whole stream that reach the handlers, as events. *)
Definition events (lines : list jsstring) : list data :=
  omap (fun line => if blank line then None else parse line) lines.

End Reader.

End SendMessage.

(** ** ThinkingBubble *)

Module ThinkingBubble.

(** [l.slice(-n)] *)
Definition slice_last {A} (n : nat) (l : list A) : list A :=
  drop (length l - n) l.

Record bubble := mkBubble { headline : jsstring; recent : list jsstring }.

(** The component; [None] is the [null] it returns. *)
Definition ThinkingBubble (currentThought : jsstring)
  (thoughts : list jsstring) : option bubble :=
  match currentThought, thoughts with
  | [], [] => None
  | _, _ =>
      Some (mkBubble
              (match currentThought with
               | [] => js "Synthesizing wisdom..."
               | _ => currentThought
               end)
              (slice_last 2 thoughts))
  end.

(** The bubble as [App] mounts it: only while thinking, on the thoughts
    of the last message. *)
Definition thinking_indicator (st : SendMessage.agent) : option bubble :=
  if SendMessage.isThinking st then
    ThinkingBubble (SendMessage.currentThought st)
      (default [] (thoughts <$> (SendMessage.messages st ≫= last)))
  else None.

End ThinkingBubble.

(** ** ResearchPlan: opening and closing a step *)

Module ResearchPlan.

Definition isCurrent (completedIndex : Z) (i : nat) : bool :=
  (Z.of_nat i =? completedIndex)%Z.

(** [expandedSteps[i] ?? isCurrent]: a step that was never toggled is
    open while it is the current one. *)
Definition expanded (expandedSteps : gmap nat bool) (completedIndex : Z)
  (i : nat) : bool :=
  default (isCurrent completedIndex i) (expandedSteps !! i).

Definition toggleStep (completedIndex : Z) (i : nat)
  (prev : gmap nat bool) : gmap nat bool :=
  let currentDefault := isCurrent completedIndex i in
  let currentVal := default currentDefault (prev !! i) in
  <[i := negb currentVal]> prev.

(** [details[i]?.length > 0 || isCurrent]: the step has something to
    show. *)
Definition has_body (details : gmap Z (list jsstring)) (completedIndex : Z)
  (i : nat) : bool :=
  (0 <? length (default [] (details !! Z.of_nat i)))%nat
  || isCurrent completedIndex i.

(** The rows under a step: its details, then "Thinking..." for the
    current step; none when the step is closed. *)
Definition step_rows (details : gmap Z (list jsstring))
  (expandedSteps : gmap nat bool) (completedIndex : Z) (i : nat)
  : list jsstring :=
  if expanded expandedSteps completedIndex i && has_body details completedIndex i
  then default [] (details !! Z.of_nat i)
       ++ (if isCurrent completedIndex i then [js "Thinking..."] else [])
  else [].

End ResearchPlan.

(** ** useHistory *)

Module UseHistory.

Record session := mkSession {
  id : Z;
  title : jsstring;
  timestamp : Z;
  messages : list message }.

(** The state of the hook, and the item of [localStorage] it keeps.
    The item holds the sessions last written; its text form is not
    modelled. *)
Record history := mkHistory {
  sessions : list session;
  activeSessionId : option Z;
  stored : option (list session) }.

(** The effect on mount. *)
Definition load (h : history) : history :=
  match stored h with
  | Some l => mkHistory l (activeSessionId h) (stored h)
  | None => h
  end.

(** A reload of the page: the state starts anew, the item stays. *)
Definition reload (h : history) : history :=
  load (mkHistory [] None (stored h)).

(** The effect on every change of [sessions]. *)
Definition save (h : history) : history :=
  match sessions h with
  | [] => h
  | _ :: _ => mkHistory (sessions h) (activeSessionId h) (Some (sessions h))
  end.

(** [createNewSession()]; [Date.now()] is read twice. *)
Definition createNewSession (now now' : Z) (h : history) : history :=
  let newSession := mkSession now (js "New Conversation") now' [] in
  mkHistory (newSession :: sessions h) (Some now) (stored h).

(** content.slice(0, 40) + (content.length > 40 ? "..." : "") *)
Definition short_title (content : jsstring) : jsstring :=
  take 40 content ++ (if (40 <? length content)%nat then js "..." else []).

Section Update.

(** [JSON.stringify] of a list of messages. *)
Variable stringify : list message -> jsstring.

(** The reading of [Date.now()] when the session at a position of the
    list is rewritten. *)
Variable now : nat -> Z.

Definition update_session (position : nat) (messages' : list message)
  (s : session) : session :=
  if bool_decide (stringify (messages s) = stringify messages') then s
  else
    let title' :=
      if bool_decide (title s = js "New Conversation") then
        match find (fun m => bool_decide (role m = user)) messages' with
        | Some firstUserMsg => short_title (content firstUserMsg)
        | None => title s
        end
      else title s in
    mkSession (id s) title' (now position) messages'.

(** [updateActiveSession(messages)]; a session id of 0 is as falsy as
    [null]. *)
Definition updateActiveSession (messages' : list message) (h : history)
  : history :=
  match messages' with
  | [] => h
  | _ :: _ =>
      match activeSessionId h with
      | None => h
      | Some a =>
          if (a =? 0)%Z then h
          else mkHistory
                 (imap (fun position s =>
                          if bool_decide (id s = a)
                          then update_session position messages' s else s)
                    (sessions h))
                 (activeSessionId h) (stored h)
      end
  end.

End Update.

(** [deleteSession(e, id)] *)
Definition deleteSession (target : Z) (h : history) : history :=
  mkHistory (filter (fun s => id s <> target) (sessions h))
    (match activeSessionId h with
     | Some curr => if bool_decide (curr = target) then None else Some curr
     | None => None
     end)
    (stored h).

End UseHistory.

(** ** App: the handlers that tie the two hooks together *)

Module App.

Record app := mkApp {
  agent : SendMessage.agent;
  history : UseHistory.history }.

(** [handleSelectSession(id)] *)
Definition handleSelectSession (target : Z) (a : app) : app :=
  match find (fun s => bool_decide (UseHistory.id s = target))
          (UseHistory.sessions (history a)) with
  | Some session =>
      mkApp
        (SendMessage.mkAgent (Some (UseHistory.messages session))
           (SendMessage.isThinking (agent a))
           (SendMessage.currentThought (agent a)))
        (UseHistory.mkHistory (UseHistory.sessions (history a)) (Some target)
           (UseHistory.stored (history a)))
  | None => a
  end.

Section Sync.

Variable stringify : list message -> jsstring.
Variable now : nat -> Z.

(** The effect that copies the messages to the history: only when there
    is more than the greeting. *)
Definition sync (a : app) : app :=
  match SendMessage.messages (agent a) with
  | Some msgs =>
      if (1 <? length msgs)%nat
      then mkApp (agent a)
             (UseHistory.updateActiveSession stringify now msgs (history a))
      else a
  | None => a
  end.

End Sync.

End App.

(** * Properties of the global scan *)

Section Scan.

Variable re : RegExp.

Lemma match_here_take s m caps :
  match_here re s = Some (m, caps) -> m = take (length m) s.
Proof.
  unfold match_here.
  destruct (match_re _ _ _ _ _) as [[s' caps']|]; [|done].
  intros [= <- <-]. rewrite length_take.
  destruct (Nat.le_gt_cases (length s - length s') (length s)) as [Hle|Hgt].
  - by rewrite Nat.min_l.
  - rewrite Nat.min_r by lia. by rewrite !take_ge by lia.
Qed.

Lemma replace_pieces f s :
  replace re f s = concat (piece f <$> segments re s).
Proof. done. Qed.

(** A replacer that gives back what was matched changes nothing. *)
Lemma scan_concat f s : forall skip off,
  (forall h, Hit h ∈ scan re skip off s -> f h = matched h) ->
  concat (piece f <$> scan re skip off s) = drop skip s.
Proof.
  induction s as [|c s IH]; intros skip off Hf.
  - simpl in *. rewrite drop_nil.
    destruct skip; [|done].
    destruct (match_here re []) as [[m caps]|] eqn:E; [|done].
    simpl. rewrite app_nil_r, Hf by (apply list_elem_of_singleton; done).
    simpl. apply match_here_take in E. by rewrite take_nil in E.
  - simpl in *. destruct skip as [|skip].
    + destruct (match_here re (c :: s)) as [[m caps]|] eqn:E.
      * pose proof (match_here_take _ _ _ E) as Hm.
        destruct (length m) as [|n] eqn:Hn.
        -- simpl. rewrite Hf by (left).
           simpl. rewrite Hm. simpl. f_equal.
           rewrite (IH 0%nat); [done|]. intros h Hh. apply Hf. by do 2 right.
        -- simpl. rewrite Hf by (left).
           simpl. rewrite Hm. simpl. f_equal.
           rewrite (IH n); [by rewrite take_drop|].
           intros h Hh. apply Hf. by right.
      * simpl. f_equal. rewrite (IH 0%nat); [done|].
        intros h Hh. apply Hf. by right.
    + apply IH. done.
Qed.

Lemma elem_of_hits h s :
  h ∈ hits re s <-> Hit h ∈ segments re s.
Proof.
  unfold hits. rewrite list_elem_of_omap. split.
  - intros ([c|h'] & Hin & Heq); [done|]. by injection Heq as ->.
  - intros Hin. by exists (Hit h).
Qed.

Lemma replace_withheld f s :
  (forall h, h ∈ hits re s -> f h = matched h) -> replace re f s = s.
Proof.
  intros Hf. rewrite replace_pieces. unfold segments.
  rewrite scan_concat; [done|].
  intros h Hh. by apply Hf, elem_of_hits.
Qed.

(** Every match of the scan is a match at its own position. *)
Lemma scan_hit_position h s : forall skip off,
  Hit h ∈ scan re skip off s ->
  exists i, index h = (off + i)%nat /\ (i <= length s)%nat
            /\ match_here re (drop i s) = Some (matched h, groups h).
Proof.
  induction s as [|c s IH]; intros skip off Hin; simpl in Hin.
  - destruct skip; [|by apply elem_of_nil in Hin].
    destruct (match_here re []) as [[m caps]|] eqn:E;
      [|by apply elem_of_nil in Hin].
    apply list_elem_of_singleton in Hin. injection Hin as ->.
    exists 0%nat. simpl. split; [lia|]. split; [lia|done].
  - assert (Hshift : forall skip',
              Hit h ∈ scan re skip' (S off) s ->
              exists i, index h = (off + i)%nat /\ (i <= length (c :: s))%nat
                /\ match_here re (drop i (c :: s)) = Some (matched h, groups h)).
    { intros skip' Hin'. destruct (IH _ _ Hin') as (i & Hi & Hle & Hm).
      exists (S i). simpl. split; [lia|]. split; [lia|done]. }
    destruct skip as [|skip]; [|by apply Hshift in Hin].
    destruct (match_here re (c :: s)) as [[m caps]|] eqn:E.
    + assert (Hhere : Hit h = Hit (mkHit off m caps) ->
                exists i, index h = (off + i)%nat /\ (i <= length (c :: s))%nat
                /\ match_here re (drop i (c :: s)) = Some (matched h, groups h)).
      { intros [= ->]. exists 0%nat. simpl. split; [lia|]. split; [lia|done]. }
      destruct (length m).
      * apply elem_of_cons in Hin as [Hin|Hin]; [by apply Hhere|].
        apply elem_of_cons in Hin as [Hin|Hin]; [done|]. by apply Hshift in Hin.
      * apply elem_of_cons in Hin as [Hin|Hin]; [by apply Hhere|].
        by apply Hshift in Hin.
    + apply elem_of_cons in Hin as [Hin|Hin]; [done|]. by apply Hshift in Hin.
Qed.

Lemma hit_position h s :
  h ∈ hits re s ->
  (index h <= length s)%nat
  /\ match_here re (drop (index h) s) = Some (matched h, groups h).
Proof.
  intros Hin. apply elem_of_hits in Hin.
  destruct (scan_hit_position _ _ _ _ Hin) as (i & Hi & Hle & Hm).
  simpl in Hi. subst i. done.
Qed.

Lemma dead_nil : match_here re [] = None -> dead re [].
Proof. intros H i. by rewrite drop_nil. Qed.

Lemma dead_cons c s : match_here re (c :: s) = None -> dead re s -> dead re (c :: s).
Proof. intros Hc Hs [|i]; [done|apply Hs]. Qed.

Lemma dead_app (P : code_unit -> Prop) ds t :
  (forall c t', P c -> match_here re (c :: t') = None) ->
  Forall P ds -> dead re t -> dead re (ds ++ t).
Proof.
  intros HP Hds Ht. induction Hds as [|c ds Hc Hds IH]; [done|].
  simpl. apply dead_cons; [by apply HP|done].
Qed.

Lemma dead_hits s : dead re s -> hits re s = [].
Proof.
  intros Hd. destruct (hits re s) as [|h l] eqn:E; [done|].
  assert (Hin : h ∈ hits re s) by (rewrite E; left).
  apply hit_position in Hin as [_ Hm]. by rewrite Hd in Hm.
Qed.

(** A text whose only possible match starts at its second code unit. *)
Lemma hits_at_one a s h :
  match_here re (a :: s) = None -> dead re (drop 1 s) ->
  h ∈ hits re (a :: s) -> index h = 1%nat.
Proof.
  intros Ha Hd Hin. apply hit_position in Hin as [_ Hm].
  destruct (index h) as [|[|i]]; simpl in Hm; [by rewrite Ha in Hm|done|]. specialize (Hd i). rewrite drop_drop in Hd. simpl in Hd.
  by rewrite Hd in Hm.
Qed.

End Scan.

(** * What a pattern can start with *)

Section First.

Variable i : bool.
Variable x : code_unit.

Lemma star_first g (body : cont -> cont) k fuel s caps :
  (forall k' caps', (forall caps'', k' (x :: s) caps'' = None) ->
                    body k' (x :: s) caps' = None) ->
  (forall caps', k (x :: s) caps' = None) ->
  star g body k fuel (x :: s) caps = None.
Proof.
  intros Hbody Hk. destruct fuel as [|fuel]; simpl; [apply Hk|].
  rewrite Hbody, Hk; [by destruct g|].
  intros caps''. by rewrite Nat.ltb_irrefl.
Qed.

(** A pattern that cannot consume [x] either fails on a text that starts
    with [x], or hands the whole text to its continuation. *)
Lemma match_re_first r : forall k s caps,
  first i r x = false ->
  (nullable r = false \/ forall caps', k (x :: s) caps' = None) ->
  match_re i r k (x :: s) caps = None.
Proof.
  induction r as [|c|p|r1 IH1 r2 IH2|r1 IH1 r2 IH2|g r IH|n r IH|r IH|r IH];
    intros k s caps Hf Hk; cbn -[star] in *.
  - by destruct Hk.
  - by rewrite Hf.
  - by rewrite Hf.
  - apply orb_false_iff in Hf as [Hf1 Hf2].
    apply IH1; [done|].
    destruct (nullable r1) eqn:Hn1; [right|by left].
    simpl in *. intros caps'. apply IH2; [done|]. done.
  - apply orb_false_iff in Hf as [Hf1 Hf2].
    rewrite IH1, IH2; try done.
    + destruct Hk as [Hk|Hk]; [|by right].
      apply orb_false_iff in Hk as [_ Hk]. by left.
    + destruct Hk as [Hk|Hk]; [|by right].
      apply orb_false_iff in Hk as [Hk _]. by left.
  - destruct Hk as [Hk|Hk]; [done|].
    apply star_first; [|done].
    intros k' caps' Hk'. apply IH; [done|by right].
  - apply IH; [done|].
    destruct Hk as [Hk|Hk]; [by left|right].
    intros caps'. apply Hk.
  - by apply IH.
  - destruct Hk as [Hk|Hk]; [done|]. rewrite Hk.
    by destruct (match_re i r _ _ _).
Qed.

End First.

Lemma match_here_first re x s :
  first (ignoreCase re) (source re) x = false ->
  nullable (source re) = false ->
  match_here re (x :: s) = None.
Proof.
  intros Hf Hn. unfold match_here. rewrite match_re_first; auto.
Qed.

(** * Settled texts *)

Lemma mapM_pieces (f : hit -> option jsstring) (segs : list segment) :
  (forall h, Hit h ∈ segs -> f h = Some (matched h)) ->
  mapM (fun sg => match sg with Text c => Some [c] | Hit h => f h end) segs
    = Some (piece matched <$> segs).
Proof.
  induction segs as [|sg segs IH]; intros Hf; [done|].
  simpl. rewrite IH by (intros h Hh; apply Hf; by right).
  destruct sg as [c|h]; simpl; [done|].
  by rewrite Hf by left.
Qed.

Lemma replace_opt_withheld re f s :
  (forall h, h ∈ hits re s -> f h = Some (matched h)) ->
  replace_opt re f s = Some s.
Proof.
  intros Hf. unfold replace_opt.
  rewrite mapM_pieces by (intros h Hh; by apply Hf, elem_of_hits).
  simpl. f_equal. by apply (replace_withheld re matched).
Qed.

Lemma no_hits_nil re s : no_hits re s = true -> hits re s = [].
Proof. unfold no_hits. by destruct (hits re s). Qed.

Lemma naked_withheld text h :
  withheld_naked text h = true -> naked_replacer text text h = matched h.
Proof.
  unfold withheld_naked, naked_replacer. intros H.
  destruct (delimited h text); [done|]. rewrite orb_false_l in H. by rewrite H.
Qed.

Lemma sarga_withheld text h :
  withheld_sarga text h = true -> sarga_replacer text h = matched h.
Proof.
  unfold withheld_sarga, sarga_replacer. intros H.
  destruct (delimited h text); [done|]. rewrite orb_false_l in H. by rewrite H.
Qed.

Lemma settled_fixed text :
  settled text = true -> processedContent text = Some text.
Proof.
  unfold settled. intros H.
  apply andb_true_iff in H as [H Hm]. apply andb_true_iff in H as [H Hs].
  apply andb_true_iff in H as [Hb Hn].
  apply no_hits_nil in Hb, Hm.
  rewrite forallb_forall in Hn, Hs.
  assert (H1 : bracket_pass text = text).
  { apply replace_withheld. intros h Hh. rewrite Hb in Hh. by apply elem_of_nil in Hh. }
  assert (H2 : naked_pass text = text).
  { apply replace_withheld. intros h Hh. apply naked_withheld, Hn.
    by apply list_elem_of_In. }
  assert (H3 : sarga_pass text = text).
  { apply replace_withheld. intros h Hh. apply sarga_withheld, Hs.
    by apply list_elem_of_In. }
  unfold processedContent, marked. rewrite H1, H2, H3.
  apply replace_opt_withheld. intros h Hh. rewrite Hm in Hh. by apply elem_of_nil in Hh.
Qed.

(** ** No pattern starts on a digit *)

Lemma digit_canonical c : is_digit c = true -> canonicalize c = c /\ 48 <= c <= 57.
Proof.
  unfold is_digit, canonicalize. intros H.
  apply andb_true_iff in H as [H1 H2]. apply N.leb_le in H1, H2.
  destruct (N.leb_spec 97 c); [lia|]. simpl. lia.
Qed.

Ltac digit_first :=
  match goal with
  | H : is_digit ?c = true |- _ =>
      let Hc := fresh in let Hr := fresh in
      destruct (digit_canonical c H) as [Hc Hr];
      cbn -[N.eqb canonicalize is_digit is_space is_dot];
      rewrite ?Hc;
      repeat match goal with
        | |- context [canonicalize ?k] =>
            let v := eval vm_compute in (canonicalize k) in
            change (canonicalize k) with v
        end;
      repeat match goal with
        | |- context [N.eqb c ?k] => rewrite (proj2 (N.eqb_neq c k)) by lia
        end;
      reflexivity
  end.

Lemma digit_no_bracket c t :
  is_digit c = true -> match_here BRACKET_CITATION_REGEX (c :: t) = None.
Proof. intros H. apply match_here_first; [|reflexivity]. digit_first. Qed.

Lemma digit_no_naked c t :
  is_digit c = true -> match_here NAKED_CITATION_REGEX (c :: t) = None.
Proof. intros H. apply match_here_first; [|reflexivity]. digit_first. Qed.

Lemma digit_no_sarga c t :
  is_digit c = true -> match_here SARGA_ONLY_REGEX (c :: t) = None.
Proof. intros H. apply match_here_first; [|reflexivity]. digit_first. Qed.

Lemma digit_no_marker c t :
  is_digit c = true -> match_here MARKER_REGEX (c :: t) = None.
Proof. intros H. apply match_here_first; [|reflexivity]. digit_first. Qed.

(** Walking along a text made of known code units and blocks of digits,
    to show that a pattern matches nowhere in it. *)
Ltac walk digit_lemma :=
  repeat first
    [ apply dead_nil; vm_compute; reflexivity
    | apply dead_cons; [vm_compute; reflexivity|]
    | apply (dead_app _ (fun c => is_digit c = true));
      [intros; by apply digit_lemma | assumption |] ].

Lemma dead_no_hits re s : dead re s -> no_hits re s = true.
Proof. intros H. unfold no_hits. by rewrite dead_hits. Qed.

(** In a text that opens with a bracket, a match that starts right after
    the bracket is delimited. *)
Lemma opened_delimited re s h :
  match_here re (ch "[" :: s) = None -> dead re (drop 1 s) ->
  h ∈ hits re (ch "[" :: s) -> delimited h (ch "[" :: s) = true.
Proof.
  intros H0 Hd Hin. unfold delimited, prevChar.
  rewrite (hits_at_one re _ _ _ H0 Hd Hin). done.
Qed.

Lemma opened_withheld_naked s :
  match_here NAKED_CITATION_REGEX (ch "[" :: s) = None ->
  dead NAKED_CITATION_REGEX (drop 1 s) ->
  forallb (withheld_naked (ch "[" :: s)) (hits NAKED_CITATION_REGEX (ch "[" :: s)) = true.
Proof.
  intros H0 Hd. apply forallb_forall. intros h Hh. unfold withheld_naked.
  rewrite (opened_delimited _ _ _ H0 Hd); [done|by apply list_elem_of_In].
Qed.

Lemma opened_withheld_sarga s :
  match_here SARGA_ONLY_REGEX (ch "[" :: s) = None ->
  dead SARGA_ONLY_REGEX (drop 1 s) ->
  forallb (withheld_sarga (ch "[" :: s)) (hits SARGA_ONLY_REGEX (ch "[" :: s)) = true.
Proof.
  intros H0 Hd. apply forallb_forall. intros h Hh. unfold withheld_sarga.
  rewrite (opened_delimited _ _ _ H0 Hd); [done|by apply list_elem_of_In].
Qed.

(** String literals of the goal, as lists of code units. *)
Ltac lits :=
  repeat match goal with
    | |- context [js ?str] =>
        let v := eval vm_compute in (js str) in change (js str) with v
    | |- context [ch ?a] =>
        let v := eval vm_compute in (ch a) in change (ch a) with v
    end.

(** ** The link of a citation *)

Ltac settle_link :=
  eexists; split; [simpl; reflexivity|];
  unfold settled; repeat (apply andb_true_iff; split);
  [ apply dead_no_hits; walk digit_no_bracket
  | apply opened_withheld_naked; [vm_compute; reflexivity | simpl; walk digit_no_naked]
  | apply opened_withheld_sarga; [vm_compute; reflexivity | simpl; walk digit_no_sarga]
  | apply dead_no_hits; walk digit_no_marker ].

(** The link of a citation is settled. *)
Lemma link_settled K s v :
  K ∈ kandaList ->
  Forall (fun c => is_digit c = true) s -> Forall (fun c => is_digit c = true) v ->
  exists link, citation_link (K ++ js " Kanda") s v = Some link
               /\ settled link = true.
Proof.
  intros HK Hs Hv. unfold kandaList in HK.
  repeat (apply elem_of_cons in HK as [->|HK]); [..|by apply elem_of_nil in HK].
  - settle_link.
  - settle_link.
  - settle_link.
  - settle_link.
  - settle_link.
  - settle_link.
  - settle_link.
Qed.

(** ** A citation in single brackets *)

(** On a settled text the three marking passes change nothing. *)
Lemma settled_marked text : settled text = true -> marked text = text.
Proof.
  unfold settled. intros H.
  apply andb_true_iff in H as [H Hm]. apply andb_true_iff in H as [H Hs].
  apply andb_true_iff in H as [Hb Hn].
  apply no_hits_nil in Hb.
  rewrite forallb_forall in Hn, Hs.
  assert (H1 : bracket_pass text = text).
  { apply replace_withheld. intros h Hh. rewrite Hb in Hh. by apply elem_of_nil in Hh. }
  assert (H2 : naked_pass text = text).
  { apply replace_withheld. intros h Hh. apply naked_withheld, Hn.
    by apply list_elem_of_In. }
  assert (H3 : sarga_pass text = text).
  { apply replace_withheld. intros h Hh. apply sarga_withheld, Hs.
    by apply list_elem_of_In. }
  unfold marked. by rewrite H1, H2, H3.
Qed.

(** A settled text yields no citation. *)
Lemma settled_no_citations text : settled text = true -> citations text = [].
Proof.
  intros H. unfold citations. rewrite (settled_marked _ H).
  unfold settled in H. apply andb_true_iff in H as [_ Hm].
  apply no_hits_nil in Hm. by rewrite Hm.
Qed.

Ltac settle_bracketed :=
  lits; cbn [app];
  unfold settled; repeat (apply andb_true_iff; split);
  [ apply dead_no_hits; walk digit_no_bracket
  | apply opened_withheld_naked; [vm_compute; reflexivity | simpl; walk digit_no_naked]
  | apply opened_withheld_sarga; [vm_compute; reflexivity | simpl; walk digit_no_sarga]
  | apply dead_no_hits; walk digit_no_marker ].

(** A naked citation in single brackets is settled, whatever its canto and
    its numbers. *)
Lemma bracketed_naked_settled K s v :
  K ∈ kandaList ->
  Forall (fun c => is_digit c = true) s -> Forall (fun c => is_digit c = true) v ->
  settled (js "[" ++ K ++ js " Kanda " ++ s ++ js ":" ++ v ++ js "]") = true.
Proof.
  intros HK Hs Hv. unfold kandaList in HK.
  repeat (apply elem_of_cons in HK as [->|HK]); [..|by apply elem_of_nil in HK].
  - settle_bracketed.
  - settle_bracketed.
  - settle_bracketed.
  - settle_bracketed.
  - settle_bracketed.
  - settle_bracketed.
  - settle_bracketed.
Qed.

(** ** Counting ":1" *)

Lemma scan_skip re s : forall k off,
  (k <= length s)%nat ->
  scan re k off s = scan re 0 (off + k) (drop k s).
Proof.
  induction s as [|c s IH]; intros k off Hk.
  - simpl in Hk. assert (k = 0%nat) as -> by lia. simpl. by rewrite Nat.add_0_r.
  - destruct k as [|k]; [simpl drop; by rewrite Nat.add_0_r|].
    simpl in Hk. simpl. rewrite IH by lia. f_equal. lia.
Qed.

Lemma count_colon_one_unfold c d s :
  count_colon_one (c :: d :: s) =
    if (c =? 58) && (d =? 49) then S (count_colon_one s)
    else count_colon_one (d :: s).
Proof. done. Qed.

(** One more code unit in front adds at most one occurrence and loses none. *)
Lemma count_colon_one_cons s : forall c,
  (count_colon_one s <= count_colon_one (c :: s) <= S (count_colon_one s))%nat.
Proof.
  induction s as [|d s IH]; intros c; [simpl; lia|].
  rewrite count_colon_one_unfold. specialize (IH d).
  destruct IH as [IH1 IH2].
  destruct ((c =? 58) && (d =? 49)); split;
    first [exact IH2 | by apply le_n_S | apply Nat.le_refl | apply Nat.le_succ_diag_r].
Qed.

Lemma count_colon_one_app a : forall b,
  (count_colon_one a + count_colon_one b <= count_colon_one (a ++ b))%nat.
Proof.
  assert (Hind : forall n a', length a' = n -> forall b,
            (count_colon_one a' + count_colon_one b <= count_colon_one (a' ++ b))%nat).
  { clear a. intros n. induction (lt_wf n) as [n _ IH]. intros a Hlen b.
    destruct a as [|c [|d a]].
    - simpl. lia.
    - pose proof (count_colon_one_cons b c) as [H1 H2].
      change (count_colon_one [c]) with O. simpl. exact H1.
    - change ((c :: d :: a) ++ b) with (c :: d :: (a ++ b)).
      rewrite !count_colon_one_unfold.
      destruct ((c =? 58) && (d =? 49)).
      + simpl. apply le_n_S. apply (IH (length a)); [simpl in Hlen; lia|done].
      + apply (IH (length (d :: a)) ltac:(simpl in *; lia) (d :: a) eq_refl b). }
  intros b. by apply (Hind (length a)).
Qed.

Lemma match_here_colon_one c d t :
  match_here COLON_ONE_REGEX (c :: d :: t) =
    if (c =? 58) && (d =? 49) then Some ([c; d], replicate 4 None) else None.
Proof.
  unfold match_here, COLON_ONE_REGEX.
  change (js ":1") with [58; 49]. simpl.
  destruct (c =? 58); [|done]. destruct (d =? 49); [|done]. simpl.
  replace (S (S (length t)) - length t)%nat with 2%nat by lia. done.
Qed.

Lemma omap_hit_Text c l : omap hit_of (Text c :: l) = omap hit_of l.
Proof. done. Qed.

Lemma omap_hit_Hit h l : omap hit_of (Hit h :: l) = h :: omap hit_of l.
Proof. done. Qed.

Lemma scan_colon_one s : forall off,
  length (omap hit_of (scan COLON_ONE_REGEX 0 off s)) = count_colon_one s.
Proof.
  assert (Hind : forall n s', length s' = n -> forall off,
            length (omap hit_of (scan COLON_ONE_REGEX 0 off s')) = count_colon_one s').
  { clear s. intros n. induction (lt_wf n) as [n _ IH]. intros s Hlen off.
    destruct s as [|c [|d t]].
    { vm_compute. reflexivity. }
    { unfold scan, match_here, COLON_ONE_REGEX. change (js ":1") with [58; 49].
      simpl. by destruct (c =? 58). }
    rewrite count_colon_one_unfold.
    change (scan COLON_ONE_REGEX 0 off (c :: d :: t))
      with (match match_here COLON_ONE_REGEX (c :: d :: t) with
            | Some (m, caps) =>
                match length m with
                | O => Hit (mkHit off m caps) :: Text c
                         :: scan COLON_ONE_REGEX 0 (S off) (d :: t)
                | S n => Hit (mkHit off m caps)
                           :: scan COLON_ONE_REGEX n (S off) (d :: t)
                end
            | None => Text c :: scan COLON_ONE_REGEX 0 (S off) (d :: t)
            end).
    rewrite match_here_colon_one.
    destruct ((c =? 58) && (d =? 49)).
    - cbn [length]. rewrite omap_hit_Hit.
      change (scan COLON_ONE_REGEX 1 (S off) (d :: t))
        with (scan COLON_ONE_REGEX 0 (S (S off)) t).
      cbn [length]. f_equal. apply (IH (length t)); [simpl in Hlen; lia|done].
    - rewrite omap_hit_Text.
      apply (IH (length (d :: t))); [simpl in *; lia|done]. }
  intros off. by apply (Hind (length s)).
Qed.

Lemma colon_ones_count s : colon_ones s = count_colon_one s.
Proof.
  unfold colon_ones, match_all, hits, segments.
  rewrite length_fmap. apply scan_colon_one.
Qed.

#[local] Arguments count_colon_one : simpl never.

(** The occurrences inside the matches of a scan are occurrences of the
    text. *)
Lemma scan_colon_ones re s : forall skip off,
  (sum_list_with (fun h => count_colon_one (matched h))
     (omap hit_of (scan re skip off s))
   <= count_colon_one (drop skip s))%nat.
Proof.
  induction s as [|c s IH]; intros skip off.
  - rewrite drop_nil. change (count_colon_one []) with 0%nat.
    cbn [scan]. destruct skip; [|simpl; lia].
    destruct (match_here re []) as [[m caps]|] eqn:E; [|simpl; lia].
    apply match_here_take in E. rewrite take_nil in E. subst m.
    rewrite omap_hit_Hit. cbn [sum_list_with matched omap list_omap].
    change (count_colon_one []) with 0%nat. lia.
  - destruct skip as [|skip]; [|apply IH].
    cbn [scan]. rewrite drop_0.
    pose proof (count_colon_one_cons s c) as Hc.
    destruct (match_here re (c :: s)) as [[m caps]|] eqn:E.
    + pose proof (match_here_take _ _ _ _ E) as Hm.
      destruct (length m) as [|n] eqn:Hn.
      * specialize (IH 0%nat (S off)). rewrite drop_0 in IH.
        destruct m; [|done].
        rewrite omap_hit_Hit, omap_hit_Text. cbn [sum_list_with matched].
        change (count_colon_one []) with 0%nat. lia.
      * specialize (IH n (S off)).
        pose proof (count_colon_one_app m (drop n s)) as Happ.
        assert (Heq : m ++ drop n s = c :: s).
        { rewrite Hm. cbn [take app]. by rewrite take_drop. }
        rewrite Heq in Happ.
        rewrite omap_hit_Hit. cbn [sum_list_with matched]. lia.
    + specialize (IH 0%nat (S off)). rewrite drop_0 in IH.
      rewrite omap_hit_Text. lia.
Qed.

Lemma hits_colon_ones re s :
  (sum_list_with (fun h => count_colon_one (matched h)) (hits re s)
   <= colon_ones s)%nat.
Proof. rewrite colon_ones_count. apply (scan_colon_ones re s 0 0). Qed.

(** * The citation passes *)

(** What the first pass makes of an inner text, by its numbers. *)
Lemma bracket_replacer_named h k :
  find (fun k => test (mkRegExp (Lit k) true) (group h 1)) kandaList = Some k ->
  bracket_replacer h =
    match (if test KANDA_INDEX_REGEX (group h 1)
           then drop 1 (match_all NUMBER_REGEX (group h 1))
           else match_all NUMBER_REGEX (group h 1)) with
    | sarga :: shloka :: _ => marker (k ++ js " Kanda") sarga shloka
    | [sarga] => marker (k ++ js " Kanda") sarga (js "0")
    | [] => marker (k ++ js " Kanda") (js "1") (js "1")
    end.
Proof. intros Hk. unfold bracket_replacer. by rewrite Hk. Qed.

(** Without an index token, two numbers are chapter and verse, and a single
    number is a chapter. *)
Lemma bracket_replacer_two_numbers h k n m :
  find (fun k => test (mkRegExp (Lit k) true) (group h 1)) kandaList = Some k ->
  test KANDA_INDEX_REGEX (group h 1) = false ->
  match_all NUMBER_REGEX (group h 1) = [n; m] ->
  bracket_replacer h = marker (k ++ js " Kanda") n m.
Proof. intros Hk Hi Hn. by rewrite (bracket_replacer_named h k Hk), Hi, Hn. Qed.

Lemma bracket_replacer_one_number h k n :
  find (fun k => test (mkRegExp (Lit k) true) (group h 1)) kandaList = Some k ->
  test KANDA_INDEX_REGEX (group h 1) = false ->
  match_all NUMBER_REGEX (group h 1) = [n] ->
  bracket_replacer h = marker (k ++ js " Kanda") n (js "0").
Proof. intros Hk Hi Hn. by rewrite (bracket_replacer_named h k Hk), Hi, Hn. Qed.

(** With "Kanda" followed by blanks and a number, the first number is
    dropped even though the canto was found by name. *)
Lemma bracket_replacer_two_numbers_indexed h k n m :
  find (fun k => test (mkRegExp (Lit k) true) (group h 1)) kandaList = Some k ->
  test KANDA_INDEX_REGEX (group h 1) = true ->
  match_all NUMBER_REGEX (group h 1) = [n; m] ->
  bracket_replacer h = marker (k ++ js " Kanda") m (js "0").
Proof. intros Hk Hi Hn. by rewrite (bracket_replacer_named h k Hk), Hi, Hn. Qed.

Lemma bracket_replacer_one_number_indexed h k n :
  find (fun k => test (mkRegExp (Lit k) true) (group h 1)) kandaList = Some k ->
  test KANDA_INDEX_REGEX (group h 1) = true ->
  match_all NUMBER_REGEX (group h 1) = [n] ->
  bracket_replacer h = marker (k ++ js " Kanda") (js "1") (js "1").
Proof. intros Hk Hi Hn. by rewrite (bracket_replacer_named h k Hk), Hi, Hn. Qed.

(** C1, at the failing input: the inner text names the canto and holds
    exactly the two integers 4 and 5, yet the reference comes out as
    chapter 5, verse 0.  The test for an index token also matches "Kanda 4"
    here, so the chapter is dropped from the numbers although the canto was
    found by name. *)
Theorem bracket_named_canto_drops_chapter :
  let content := js "Bala Kanda 4:5" in
  find (fun k => test (mkRegExp (Lit k) true) content) kandaList = Some (js "Bala")
  /\ match_all NUMBER_REGEX content = [js "4"; js "5"]
  /\ test KANDA_INDEX_REGEX content = true
  /\ citations (js "[[Verse: Bala Kanda 4:5]]") = [(js "Bala Kanda", js "5", js "0")]
  /\ processedContent (js "[[Verse: Bala Kanda 4:5]]")
     = Some (js "[Bala Kanda 5:0](http://citation/Bala%20Kanda/5/0)").
Proof. vm_compute. repeat split. Qed.

(** C8, at the failing input, the example of the code's own comment: the
    inner text holds the single integer 9, yet the reference comes out as
    chapter 1, verse 1, because "Kanda 9" is taken for an index token and
    removed from the numbers. *)
Theorem bracket_single_number_falls_to_default :
  let content := js "Aranya Kanda 9" in
  match_all NUMBER_REGEX content = [js "9"]
  /\ test KANDA_INDEX_REGEX content = true
  /\ citations (js "[[Verse: Aranya Kanda 9]]") = [(js "Aranya Kanda", js "1", js "1")]
  /\ processedContent (js "[[Verse: Aranya Kanda 9]]")
     = Some (js "[Aranya Kanda 1:1](http://citation/Aranya%20Kanda/1/1)").
Proof. vm_compute. repeat split. Qed.

(** C3, the counterexample: the naked pattern matches inside the single
    brackets, the guard withholds it, no other pass applies, and the text
    comes out unchanged with no citation at all (not one). *)
Lemma single_bracket_yields_no_citation :
  let text := js "[Bala Kanda 4:5]" in
  (matched <$> hits NAKED_CITATION_REGEX text) = [js "Bala Kanda 4:5"]
  /\ length (citations text) = 0%nat
  /\ processedContent text = Some text.
Proof. vm_compute. repeat split. Qed.

(** C3, as the code has it: the naked pass gives back unchanged every match
    that has an opening bracket or parenthesis right before it, or a closing
    one right after it; a text all of whose naked matches are so delimited
    passes unchanged; and a naked citation in single brackets, such as
    "[Bala Kanda 4:5]", comes out of the whole extraction as it went in, with
    no citation, whatever its canto, chapter and verse. *)
Theorem naked_pass_respects_delimiters text :
  (forall h, h ∈ hits NAKED_CITATION_REGEX text ->
     prevChar h text = Some (ch "[") \/ prevChar h text = Some (ch "(")
     \/ nextChar h text = Some (ch "]") \/ nextChar h text = Some (ch ")") ->
     naked_replacer text text h = matched h)
  /\ ((forall h, h ∈ hits NAKED_CITATION_REGEX text -> delimited h text = true) ->
      naked_pass text = text)
  /\ processedContent (js "[Bala Kanda 4:5]") = Some (js "[Bala Kanda 4:5]")
  /\ citations (js "[Bala Kanda 4:5]") = []
  /\ (forall K s v,
        K ∈ kandaList ->
        Forall (fun c => is_digit c = true) s ->
        Forall (fun c => is_digit c = true) v ->
        let bracketed := js "[" ++ K ++ js " Kanda " ++ s ++ js ":" ++ v ++ js "]" in
        processedContent bracketed = Some bracketed /\ citations bracketed = []).
Proof.
  split; [|split; [|split; [by vm_compute|split; [by vm_compute|]]]]; cycle 2.
  { intros K s v HK Hs Hv bracketed.
    pose proof (bracketed_naked_settled K s v HK Hs Hv) as Hset.
    split; [by apply settled_fixed|by apply settled_no_citations]. }
  - intros h _ Hd.
    assert (Hdel : delimited h text = true).
    { unfold delimited.
      destruct Hd as [H|[H|[H|H]]]; rewrite H;
        repeat case_bool_decide; simpl; congruence. }
    unfold naked_replacer. by rewrite Hdel.
  - intros Hall. apply replace_withheld. intros h Hh.
    unfold naked_replacer. by rewrite Hall.
Qed.

Lemma naked_pass_respects_delimiters_witness :
  naked_pass (js "[Bala Kanda 4:5]") = js "[Bala Kanda 4:5]".
Proof.
  apply (naked_pass_respects_delimiters (js "[Bala Kanda 4:5]")).
  intros h Hh. vm_compute in Hh.
  apply list_elem_of_singleton in Hh. subst h. reflexivity.
Defined.


Lemma suspicious_verse_one text :
  (2 < colon_ones text)%nat -> isSuspicious text (js "1") = true.
Proof.
  intros H. unfold isSuspicious. fold (colon_ones text).
  rewrite bool_decide_true by done. by apply Nat.ltb_lt.
Qed.

Lemma colon_form_counts (l : list hit) :
  Forall (fun h => suffix (js ":1") (matched h)) l ->
  (length l <= sum_list_with (fun h => count_colon_one (matched h)) l)%nat.
Proof.
  induction 1 as [|h l [pre Hpre] _ IH]; [done|].
  cbn [length sum_list_with].
  pose proof (count_colon_one_app pre (js ":1")) as Happ.
  rewrite <- Hpre in Happ. change (count_colon_one (js ":1")) with 1%nat in Happ.
  lia.
Qed.



(** * Running a pattern on a text with unknown digits

    Rules that derive the outcome of [match_re] step by step, for texts
    made of known code units and blocks of unknown digits. *)

Section Derive.

Variable i : bool.

Lemma rule_seq r1 r2 k s caps X :
  match_re i r1 (match_re i r2 k) s caps = X ->
  match_re i (Seq r1 r2) k s caps = X.
Proof. done. Qed.

Lemma rule_empty k s caps X :
  k s caps = X -> match_re i Empty k s caps = X.
Proof. done. Qed.

Lemma rule_group n r k s caps X :
  match_re i r
    (fun s' caps' => k s' (<[n := Some (take (length s - length s') s)]> caps'))
    s caps = X ->
  match_re i (Group n r) k s caps = X.
Proof. done. Qed.

Lemma rule_noncapture r k s caps X :
  match_re i r k s caps = X -> match_re i (NonCapture r) k s caps = X.
Proof. done. Qed.

Lemma rule_alt_left r1 r2 k s caps res :
  match_re i r1 k s caps = Some res ->
  match_re i (Alt r1 r2) k s caps = Some res.
Proof. intros H. simpl. by rewrite H. Qed.

Lemma rule_alt_right r1 r2 k s caps X :
  match_re i r1 k s caps = None ->
  match_re i r2 k s caps = X ->
  match_re i (Alt r1 r2) k s caps = X.
Proof. intros H1 H2. simpl. by rewrite H1. Qed.

Lemma rule_char c k x s caps X :
  char_test i x c = true -> k s caps = X ->
  match_re i (Char c) k (x :: s) caps = X.
Proof. unfold char_test. intros Hc Hk. simpl. by rewrite Hc. Qed.

Lemma rule_char_fail c k x s caps :
  char_test i x c = false -> match_re i (Char c) k (x :: s) caps = None.
Proof. unfold char_test. intros Hc. simpl. by rewrite Hc. Qed.

Lemma rule_class p k x s caps X :
  p x = true -> k s caps = X ->
  match_re i (Class p) k (x :: s) caps = X.
Proof. intros Hc Hk. simpl. by rewrite Hc. Qed.

Lemma rule_class_fail p k x s caps :
  p x = false -> match_re i (Class p) k (x :: s) caps = None.
Proof. intros Hc. simpl. by rewrite Hc. Qed.

Lemma rule_neglook r k s caps X :
  match_re i r (fun s' caps' => Some (s', caps')) s caps = None ->
  k s caps = X ->
  match_re i (NegLookahead r) k s caps = X.
Proof. intros H1 H2. simpl. by rewrite H1. Qed.

Lemma rule_neglook_fail r k s caps res :
  match_re i r (fun s' caps' => Some (s', caps')) s caps = Some res ->
  match_re i (NegLookahead r) k s caps = None.
Proof. intros H1. simpl. by rewrite H1. Qed.

Lemma rule_star g p k s caps X :
  star g (match_re i (Class p)) k (S (length s)) s caps = X ->
  match_re i (Star g (Class p)) k s caps = X.
Proof. done. Qed.

Variable p : code_unit -> bool.

Lemma star_class_nil g k fuel caps :
  star g (match_re i (Class p)) k fuel [] caps = k [] caps.
Proof.
  destruct fuel; [done|]. simpl. destruct g; [done|]. by destruct (k [] caps).
Qed.

Lemma star_class_stop g k fuel c s caps :
  p c = false ->
  star g (match_re i (Class p)) k fuel (c :: s) caps = k (c :: s) caps.
Proof.
  intros Hc. destruct fuel; [done|]. simpl. rewrite Hc.
  destruct g; [done|]. by destruct (k (c :: s) caps).
Qed.

Lemma star_class_step g k fuel c s caps :
  p c = true ->
  star g (match_re i (Class p)) k (S fuel) (c :: s) caps =
    if g
    then match star g (match_re i (Class p)) k fuel s caps with
         | Some r => Some r
         | None => k (c :: s) caps
         end
    else match k (c :: s) caps with
         | Some r => Some r
         | None => star g (match_re i (Class p)) k fuel s caps
         end.
Proof.
  intros Hc. cbn [star match_re]. rewrite Hc.
  assert (Hlt : (length s <? length (c :: s))%nat = true)
    by (apply Nat.ltb_lt; simpl; lia).
  by rewrite Hlt.
Qed.

Lemma rule_star_nil g k fuel caps X :
  k [] caps = X -> star g (match_re i (Class p)) k fuel [] caps = X.
Proof. by rewrite star_class_nil. Qed.

Lemma rule_star_stop g k fuel c s caps X :
  p c = false -> k (c :: s) caps = X ->
  star g (match_re i (Class p)) k fuel (c :: s) caps = X.
Proof. intros Hc. by rewrite star_class_stop. Qed.

Lemma rule_star_greedy k fuel c s caps res :
  p c = true ->
  star true (match_re i (Class p)) k fuel s caps = Some res ->
  star true (match_re i (Class p)) k (S fuel) (c :: s) caps = Some res.
Proof. intros Hc H. rewrite star_class_step by done. by rewrite H. Qed.

Lemma rule_star_greedy_back k fuel c s caps X :
  p c = true ->
  star true (match_re i (Class p)) k fuel s caps = None ->
  k (c :: s) caps = X ->
  star true (match_re i (Class p)) k (S fuel) (c :: s) caps = X.
Proof. intros Hc H. rewrite star_class_step by done. by rewrite H. Qed.

Lemma rule_star_lazy_now k fuel s caps res :
  k s caps = Some res ->
  star false (match_re i (Class p)) k fuel s caps = Some res.
Proof. intros H. destruct fuel; [done|]. simpl. by rewrite H. Qed.

Lemma rule_star_lazy_next k fuel c s caps X :
  p c = true ->
  k (c :: s) caps = None ->
  star false (match_re i (Class p)) k fuel s caps = X ->
  star false (match_re i (Class p)) k (S fuel) (c :: s) caps = X.
Proof. intros Hc H. rewrite star_class_step by done. by rewrite H. Qed.

(** A greedy run over a block of code units of the class, when the
    continuation succeeds right after the block. *)
Lemma rule_star_block k ds s caps res : forall fuel,
  Forall (fun c => p c = true) ds ->
  (length ds <= fuel)%nat ->
  match s with [] => True | c :: _ => p c = false end ->
  k s caps = Some res ->
  star true (match_re i (Class p)) k fuel (ds ++ s) caps = Some res.
Proof.
  intros fuel Hds. revert fuel.
  induction Hds as [|d ds Hd Hds IH]; intros fuel Hfuel Hs Hk.
  - simpl. destruct s as [|c s]; [by rewrite star_class_nil|].
    by rewrite star_class_stop.
  - destruct fuel as [|fuel]; [simpl in Hfuel; lia|].
    simpl app. rewrite star_class_step by done.
    rewrite IH; [done|simpl in Hfuel; lia|done|done].
Qed.

Lemma rule_star_block_end k ds caps res fuel :
  Forall (fun c => p c = true) ds ->
  (length ds <= fuel)%nat ->
  k [] caps = Some res ->
  star true (match_re i (Class p)) k fuel ds caps = Some res.
Proof.
  intros Hds Hf Hk. rewrite <- (app_nil_r ds). by apply rule_star_block.
Qed.

End Derive.

Lemma digit_not_space c : is_digit c = true -> is_space c = false.
Proof.
  intros H. destruct (digit_canonical c H) as [_ Hr].
  unfold is_space.
  repeat match goal with
    | |- context [N.leb ?a c] =>
        first [rewrite (proj2 (N.leb_gt a c)) by lia
              | rewrite (proj2 (N.leb_le a c)) by lia]
    | |- context [N.leb c ?a] =>
        first [rewrite (proj2 (N.leb_gt c a)) by lia
              | rewrite (proj2 (N.leb_le c a)) by lia]
    | |- context [N.eqb c ?k] => rewrite (proj2 (N.eqb_neq c k)) by lia
    end.
  reflexivity.
Qed.

(** The patterns of the goal, as constructors of [regex]. *)
Ltac expose :=
  cbv [BRACKET_CITATION_REGEX NAKED_CITATION_REGEX SARGA_ONLY_REGEX MARKER_REGEX
       source ignoreCase Cat Alts kanda_names kandaList fmap list_fmap
       Plus Opt digit space dot];
  lits;
  cbv [Lit]; cbn [app].

(** The tests on single code units: known ones by computation, digits
    by their hypotheses. *)
Ltac side :=
  solve [ assumption
        | vm_compute; reflexivity
        | apply digit_not_space; assumption ].

Ltac lengths := cbn [length]; rewrite ?length_app; cbn [length]; lia.

Lemma rule_char_nil i c k caps : match_re i (Char c) k [] caps = None.
Proof. done. Qed.

Lemma rule_class_nil i p k caps : match_re i (Class p) k [] caps = None.
Proof. done. Qed.

(** Deriving that a pattern fails. *)
Ltac refute :=
  cbv beta;
  first
    [ lazymatch goal with
      | |- match_re _ (Seq _ _) _ _ _ = None => apply rule_seq; refute
      | |- match_re _ (Group _ _) _ _ _ = None => apply rule_group; refute
      | |- match_re _ (NonCapture _) _ _ _ = None => apply rule_noncapture; refute
      | |- match_re _ Empty _ _ _ = None => apply rule_empty; refute
      | |- match_re _ (Alt _ _) _ _ _ = None =>
          apply rule_alt_right; [refute | refute]
      | |- match_re _ (Char _) _ [] _ = None => apply rule_char_nil
      | |- match_re _ (Class _) _ [] _ = None => apply rule_class_nil
      | |- match_re _ (Char _) _ (_ :: _) _ = None =>
          first [ apply rule_char_fail; side | apply rule_char; [side | refute] ]
      | |- match_re _ (Class _) _ (_ :: _) _ = None =>
          first [ apply rule_class_fail; side | apply rule_class; [side | refute] ]
      | |- match_re _ (Star _ (Class _)) _ _ _ = None => apply rule_star; refute
      | |- star _ _ _ _ [] _ = None => apply rule_star_nil; refute
      | |- star true _ _ _ (_ :: _) _ = None =>
          first [ apply rule_star_stop; [side | refute]
                | apply rule_star_greedy_back; [side | refute | refute] ]
      end ].

(** Deriving that a pattern matches, and with what outcome. *)
Ltac derive :=
  cbv beta;
  lazymatch goal with
  | |- Some _ = Some _ => reflexivity
  | |- match_re _ (Seq _ _) _ _ _ = _ => apply rule_seq; derive
  | |- match_re _ (Group _ _) _ _ _ = _ => apply rule_group; derive
  | |- match_re _ (NonCapture _) _ _ _ = _ => apply rule_noncapture; derive
  | |- match_re _ Empty _ _ _ = _ => apply rule_empty; derive
  | |- match_re _ (Alt _ _) _ _ _ = Some _ =>
      first [ apply rule_alt_left; derive
            | apply rule_alt_right; [refute | derive] ]
  | |- match_re _ (Char _) _ (_ :: _) _ = Some _ =>
      apply rule_char; [side | derive]
  | |- match_re _ (Class _) _ (_ :: _) _ = Some _ =>
      apply rule_class; [side | derive]
  | |- match_re _ (Star _ (Class _)) _ _ _ = _ => apply rule_star; derive
  | |- star true _ _ _ (_ :: _) _ = Some _ =>
      first [ apply rule_star_stop; [side | derive]
            | apply rule_star_greedy; [side | derive] ]
  | |- star true _ _ _ (_ ++ _) _ = Some _ =>
      apply rule_star_block; [assumption | lengths | cbn; side | derive]
  | |- star true _ _ _ _ _ = Some _ =>
      apply rule_star_block_end; [assumption | lengths | derive]
  | |- star false _ _ _ (_ :: _) _ = Some _ =>
      first [ apply rule_star_lazy_now; derive
            | apply rule_star_lazy_next; [side | refute | derive] ]
  end.

Lemma take_suffix_diff (pre s : jsstring) :
  take (length (pre ++ s) - length s) (pre ++ s) = pre.
Proof.
  rewrite length_app. replace (length pre + length s - length s)%nat
    with (length pre) by lia.
  by rewrite take_app_length.
Qed.

Lemma take_all_diff (a : jsstring) : take (length a - length (@nil code_unit)) a = a.
Proof. simpl. rewrite Nat.sub_0_r. by rewrite take_ge. Qed.

(** What a group captured, once the lengths are known. *)
Ltac take_diff :=
  lazymatch goal with
  | |- take (length ?a - length []) ?a = _ => apply take_all_diff
  | |- take (length ?a - length ?b) ?a = ?pre =>
      change a with (pre ++ b); apply take_suffix_diff
  end.

(** [match_here] from a derivation of [match_re]. *)
Ltac match_whole :=
  unfold match_here;
  match goal with
  | |- match ?X with _ => _ end = _ =>
      let res := fresh "res" in
      let H := fresh "H" in
      evar (res : mstate);
      assert (H : X = Some res) by (subst res; expose; derive);
      rewrite H; subst res; clear H
  end;
  lits; cbn [app replicate list_insert insert];
  repeat f_equal; take_diff.

Lemma match_here_none re s :
  match_re (ignoreCase re) (source re) (fun s' caps' => Some (s', caps')) s
    (replicate 4 None) = None ->
  match_here re s = None.
Proof. intros H. unfold match_here. by rewrite H. Qed.

Lemma dead_block re (P : code_unit -> Prop) ds :
  (forall c t, P c -> match_here re (c :: t) = None) ->
  match_here re [] = None ->
  Forall P ds -> dead re ds.
Proof.
  intros HP Hnil Hds. rewrite <- (app_nil_r ds).
  apply (dead_app re P); [done|done|by apply dead_nil].
Qed.

(** [walk], with derivations where computation alone does not decide. *)
Ltac walk_all digit_lemma :=
  repeat first
    [ apply dead_nil; vm_compute; reflexivity
    | apply dead_cons;
      [ first [ solve [apply digit_lemma; assumption]
              | solve [apply match_here_none; expose; refute] ] |]
    | apply (dead_app _ (fun c => is_digit c = true));
      [intros; by apply digit_lemma | assumption |]
    | apply (dead_block _ (fun c => is_digit c = true));
      [intros; by apply digit_lemma | vm_compute; reflexivity | assumption] ].

(** A match that covers the whole text is the only segment of the scan. *)
Lemma segments_whole re c s caps :
  match_here re (c :: s) = Some (c :: s, caps) ->
  match_here re [] = None ->
  segments re (c :: s) = [Hit (mkHit 0 (c :: s) caps)].
Proof.
  intros Hm Hnil. unfold segments. cbn [scan]. rewrite Hm. cbn [length].
  f_equal. rewrite scan_skip by done. rewrite drop_all. cbn [scan]. by rewrite Hnil.
Qed.

Lemma count_colon_one_skip c s :
  c <> 58 -> count_colon_one (c :: s) = count_colon_one s.
Proof.
  intros Hc. destruct s as [|d s]; [done|].
  rewrite count_colon_one_unfold.
  by rewrite (proj2 (N.eqb_neq c 58) Hc).
Qed.

Lemma count_colon_one_digits ds s :
  Forall (fun c => is_digit c = true) ds ->
  count_colon_one (ds ++ s) = count_colon_one s.
Proof.
  induction 1 as [|d ds Hd _ IH]; [done|].
  simpl app. rewrite count_colon_one_skip; [done|].
  destruct (digit_canonical d Hd) as [_ Hr]. lia.
Qed.

Lemma digit_not_colon c : is_digit c = true -> c <> 58.
Proof. intros H. destruct (digit_canonical c H) as [_ Hr]. lia. Qed.

(** After the colon of a citation there is at most one ":1". *)
Lemma count_colon_one_tail vs :
  Forall (fun c => is_digit c = true) vs ->
  (count_colon_one (58%N :: vs) <= 1)%nat.
Proof.
  intros Hvs.
  assert (H0 : count_colon_one vs = 0%nat).
  { rewrite <- (app_nil_r vs). by rewrite count_colon_one_digits. }
  destruct (count_colon_one_cons vs 58) as [_ H]. by rewrite H0 in H.
Qed.

Ltac single_colon :=
  rewrite colon_ones_count;
  repeat (rewrite count_colon_one_skip
            by first [discriminate | apply digit_not_colon; assumption]);
  rewrite count_colon_one_digits by assumption;
  apply count_colon_one_tail; constructor; assumption.

Lemma replace_whole re f c s caps :
  match_here re (c :: s) = Some (c :: s, caps) ->
  match_here re [] = None ->
  replace re f (c :: s) = f (mkHit 0 (c :: s) caps).
Proof.
  intros Hm Hnil. unfold replace. rewrite (segments_whole _ _ _ _ Hm Hnil).
  cbn [fmap list_fmap piece concat]. by rewrite app_nil_r.
Qed.

Lemma replace_opt_whole re f c s caps :
  match_here re (c :: s) = Some (c :: s, caps) ->
  match_here re [] = None ->
  replace_opt re f (c :: s) = f (mkHit 0 (c :: s) caps).
Proof.
  intros Hm Hnil. unfold replace_opt. rewrite (segments_whole _ _ _ _ Hm Hnil).
  cbn [mapM]. destruct (f _) as [x|]; [|done].
  simpl. by rewrite app_nil_r.
Qed.

(** A match that covers the whole text has no neighbour. *)
Lemma whole_not_delimited t caps : delimited (mkHit 0 t caps) t = false.
Proof.
  assert (Hp : prevChar (mkHit 0 t caps) t = None) by reflexivity.
  assert (Hn : nextChar (mkHit 0 t caps) t = None).
  { unfold nextChar, char_at. cbn [index matched].
    destruct (_ <? 0)%Z; [done|]. apply lookup_ge_None_2. lia. }
  unfold delimited. rewrite Hp, Hn.
  by rewrite !bool_decide_false by discriminate.
Qed.

Lemma group_1 i t c0 x c2 c3 : group (mkHit i t [c0; Some x; c2; c3]) 1 = x.
Proof. reflexivity. Qed.

Lemma group_2 i t c0 c1 x c3 : group (mkHit i t [c0; c1; Some x; c3]) 2 = x.
Proof. reflexivity. Qed.

Lemma group_3 i t c0 c1 c2 x : group (mkHit i t [c0; c1; c2; Some x]) 3 = x.
Proof. reflexivity. Qed.

(** The four passes on a text that is one naked citation. *)
Lemma whole_citation_extracted c0 t0 kName sNum vNum :
  let t := c0 :: t0 in
  let m := marker (kName ++ js " Kanda") sNum vNum in
  dead BRACKET_CITATION_REGEX t ->
  match_here NAKED_CITATION_REGEX t
    = Some (t, [None; Some kName; Some sNum; Some vNum]) ->
  (colon_ones t <= 2)%nat ->
  dead SARGA_ONLY_REGEX m ->
  match_here MARKER_REGEX m
    = Some (m, [None; Some (kName ++ js " Kanda"); Some sNum; Some vNum]) ->
  processedContent t = citation_link (kName ++ js " Kanda") sNum vNum.
Proof.
  intros t m Hb Hn Hc Hs Hm.
  assert (H1 : bracket_pass t = t).
  { apply replace_withheld. intros h Hh.
    rewrite (dead_hits _ _ Hb) in Hh. by apply elem_of_nil in Hh. }
  assert (H2 : naked_pass t = m).
  { unfold naked_pass. subst t.
    rewrite (replace_whole _ _ _ _ _ Hn) by (vm_compute; reflexivity).
    unfold naked_replacer. rewrite whole_not_delimited.
    unfold isSuspicious. fold (colon_ones (c0 :: t0)).
    replace (2 <? colon_ones (c0 :: t0))%nat with false
      by (symmetry; apply Nat.ltb_ge; lia).
    rewrite andb_false_r.
    by rewrite group_1, group_2, group_3. }
  assert (H3 : sarga_pass m = m).
  { apply replace_withheld. intros h Hh.
    rewrite (dead_hits _ _ Hs) in Hh. by apply elem_of_nil in Hh. }
  unfold processedContent, marked. rewrite H1, H2, H3.
  unfold final_pass. revert Hm.
  assert (Hcons : exists c1 m1, m = c1 :: m1) by (by eexists _, _).
  destruct Hcons as (c1 & m1 & ->). intros Hm.
  rewrite (replace_opt_whole _ _ _ _ _ Hm) by (vm_compute; reflexivity).
  unfold marker_replacer. by rewrite group_1, group_2, group_3.
Qed.

(** The five premises of [whole_citation_extracted], for a known canto. *)
Ltac extract_whole :=
  lits;
  match goal with
  | |- processedContent ?t = ?rhs =>
      let t' := eval cbn [app] in t in change (processedContent t' = rhs)
  end;
  match goal with
  | |- processedContent (?c0 :: ?t0) = citation_link (?k ++ _) ?s ?v =>
      apply (whole_citation_extracted c0 t0 k s v)
  end;
  [ walk_all digit_no_bracket
  | match_whole
  | apply Nat.le_trans with 1%nat; [single_colon|lia]
  | unfold marker; lits; cbn [app]; walk_all digit_no_sarga
  | unfold marker; lits; cbn [app]; match_whole ].

(** A text that is one naked citation comes out as the link of that
    citation. *)
Lemma naked_citation_extracted K s v :
  K ∈ kandaList ->
  s <> [] -> v <> [] ->
  Forall (fun c => is_digit c = true) s ->
  Forall (fun c => is_digit c = true) v ->
  processedContent (K ++ js " Kanda " ++ s ++ js ":" ++ v)
  = citation_link (K ++ js " Kanda") s v.
Proof.
  intros HK Hs0 Hv0 Hs Hv.
  destruct s as [|d ds]; [done|]. destruct v as [|v0 vs]; [done|].
  inversion Hs as [|? ? Hd Hds]; subst. inversion Hv as [|? ? Hv1 Hvs]; subst.
  clear Hs0 Hv0 Hs Hv.
  unfold kandaList in HK.
  repeat (apply elem_of_cons in HK as [->|HK]); [..|by apply elem_of_nil in HK].
  - extract_whole.
  - extract_whole.
  - extract_whole.
  - extract_whole.
  - extract_whole.
  - extract_whole.
  - extract_whole.
Qed.




(** * The citation button *)

Lemma number_of_zero : number_of (js "0") = Some 0.
Proof. reflexivity. Qed.

Lemma split_slash_plain (a : jsstring) :
  ch "/" ∉ a -> split_slash a = [a].
Proof.
  induction a as [|c a IH]; intros Hn; [done|].
  apply not_elem_of_cons in Hn as [Hc Ha].
  cbn [split_slash]. rewrite (proj2 (N.eqb_neq c (ch "/"))) by congruence.
  by rewrite IH.
Qed.

Lemma split_slash_app (a b : jsstring) :
  ch "/" ∉ a -> split_slash (a ++ ch "/" :: b) = a :: split_slash b.
Proof.
  induction a as [|c a IH]; intros Hn.
  - cbn [app split_slash]. by rewrite N.eqb_refl.
  - apply not_elem_of_cons in Hn as [Hc Ha].
    cbn [app split_slash]. rewrite (proj2 (N.eqb_neq c (ch "/"))) by congruence.
    by rewrite IH.
Qed.

(** The link of a reference renders as the button of that reference,
    when the decoder undoes the encoding of its three parts. *)
Lemma anchor_citation_link decode k ek s v :
  ch "/" ∉ ek -> ch "/" ∉ s -> ch "/" ∉ v ->
  decode ek = Some k -> decode s = Some s -> decode v = Some v ->
  anchor decode (js "http://citation/" ++ ek ++ js "/" ++ s ++ js "/" ++ v)
  = Some (Some (citation_button k (Some s) (Some v))).
Proof.
  intros Hek Hs Hv Dk Ds Dv. unfold anchor, starts_with.
  rewrite take_app_length, bool_decide_true by done.
  rewrite drop_app_length.
  change (js "/") with [ch "/"]. cbn [app].
  rewrite split_slash_app by done. rewrite split_slash_app by done.
  rewrite split_slash_plain by done.
  cbn [mapM]. rewrite Dk, Ds, Dv. done.
Qed.



(** * Properties of the stream decoder *)

Section Decoder.

Variable assistantMsgId : Z.

Lemma on_last_assistant_fmap f prev lastMsg :
  last prev = Some lastMsg ->
  on_last_assistant f prev =
    Some ((fun m => if decide (role lastMsg = assistant)
                    then if decide (id m = id lastMsg) then f m else m
                    else m) <$> prev).
Proof.
  intros Hl. unfold on_last_assistant. rewrite Hl. simpl.
  destruct (decide (role lastMsg = assistant)); [done|].
  by rewrite list_fmap_id.
Qed.

Lemma handle_fmap d prev lastMsg :
  last prev = Some lastMsg ->
  handle assistantMsgId d prev = Some (step_msg assistantMsgId d lastMsg <$> prev).
Proof.
  intros Hl. unfold handle, on_plan, on_plan_update, on_step_detail, on_content.
  destruct d; simpl;
    rewrite ?(on_last_assistant_fmap _ _ _ Hl); simpl;
    rewrite <- ?list_fmap_compose; f_equal;
    apply list_fmap_ext; intros ? m _;
    unfold step_msg, content_rule, last_rule; simpl;
    destruct (decide (role lastMsg = assistant));
    destruct (decide (id m = id lastMsg)); simpl;
    repeat case_decide; done.
Qed.

Lemma handle_empty d :
  handle assistantMsgId d [] =
    match d with
    | plan_event _ _ | plan_update _ | step_detail _ _ => None
    | _ => Some []
    end.
Proof. by destruct d. Qed.

Lemma run_fmap ds prev lastMsg :
  last prev = Some lastMsg ->
  run assistantMsgId ds prev = Some (run_msg assistantMsgId ds lastMsg <$> prev).
Proof.
  revert prev lastMsg. induction ds as [|d ds IH]; intros prev lastMsg Hl; simpl.
  - by rewrite list_fmap_id.
  - rewrite (handle_fmap _ _ _ Hl). simpl.
    rewrite (IH _ (step_msg assistantMsgId d lastMsg lastMsg)).
    + by rewrite <- list_fmap_compose.
    + by rewrite fmap_last, Hl.
Qed.

Lemma run_msg_app ds1 ds2 lastMsg m :
  run_msg assistantMsgId (ds1 ++ ds2) lastMsg m =
    run_msg assistantMsgId ds2 (run_msg assistantMsgId ds1 lastMsg lastMsg) (run_msg assistantMsgId ds1 lastMsg m).
Proof.
  revert lastMsg m. induction ds1 as [|d ds1 IH]; intros; simpl; [done|].
  by rewrite IH.
Qed.

(** No handler touches the identity or the role of a message. *)
Lemma add_detail_frame i x m :
  id (add_detail i x m) = id m /\ role (add_detail i x m) = role m
  /\ content (add_detail i x m) = content m
  /\ planCompletedIndex (add_detail i x m) = planCompletedIndex m.
Proof. unfold add_detail. by case_bool_decide. Qed.

Lemma step_msg_id d lastMsg m : id (step_msg assistantMsgId d lastMsg m) = id m.
Proof.
  unfold step_msg, content_rule, last_rule.
  destruct d; repeat case_decide; simpl; try done;
    by destruct (add_detail_frame step_index detail m) as (? & ? & ? & ?).
Qed.

Lemma step_msg_role d lastMsg m : role (step_msg assistantMsgId d lastMsg m) = role m.
Proof.
  unfold step_msg, content_rule, last_rule.
  destruct d; repeat case_decide; simpl; try done;
    by destruct (add_detail_frame step_index detail m) as (? & ? & ? & ?).
Qed.

Lemma run_msg_id ds lastMsg m : id (run_msg assistantMsgId ds lastMsg m) = id m.
Proof.
  revert lastMsg m. induction ds as [|d ds IH]; intros; simpl; [done|].
  by rewrite IH, step_msg_id.
Qed.

Lemma run_msg_role ds lastMsg m : role (run_msg assistantMsgId ds lastMsg m) = role m.
Proof.
  revert lastMsg m. induction ds as [|d ds IH]; intros; simpl; [done|].
  by rewrite IH, step_msg_role.
Qed.

Lemma nonempty_last (prev : list message) :
  prev <> [] -> exists lastMsg, last prev = Some lastMsg.
Proof.
  intros Hne. destruct (last prev) as [l|] eqn:E; [by exists l|].
  by apply last_None in E.
Qed.

(** *** The completion cursor *)

Lemma step_msg_plan_update c lastMsg :
  role lastMsg = assistant ->
  step_msg assistantMsgId (plan_update c) lastMsg lastMsg = with_completed c lastMsg.
Proof.
  intros Hr. unfold step_msg, content_rule, last_rule.
  repeat case_decide; done.
Qed.

Lemma run_msg_plan_updates cs c lastMsg :
  role lastMsg = assistant -> last cs = Some c ->
  planCompletedIndex (run_msg assistantMsgId (plan_update <$> cs) lastMsg lastMsg)
    = Some c.
Proof.
  revert lastMsg. induction cs as [|c0 cs IH]; intros lastMsg Hr Hl; [done|].
  simpl. rewrite (step_msg_plan_update _ _ Hr).
  destruct cs as [|c1 cs'].
  - simpl in *. congruence.
  - apply IH; [done|]. by rewrite last_cons_cons in Hl.
Qed.

(** C2, as the code has it: a [plan_update] overwrites the completion
    cursor of the current assistant message with the value it carries,
    whether lower or higher than the cursor; after any non-empty sequence
    of [plan_update] events the cursor is the value of the last one (so
    the sequence 2, 1, 3 ends at 3). *)
Theorem plan_update_last_write_wins prev lastMsg cs c :
  last prev = Some lastMsg -> role lastMsg = assistant -> last cs = Some c ->
  exists prev' m',
    run assistantMsgId (plan_update <$> cs) prev = Some prev'
    /\ last prev' = Some m'
    /\ planCompletedIndex m' = Some c.
Proof.
  intros Hl Hr Hc.
  exists (run_msg assistantMsgId (plan_update <$> cs) lastMsg <$> prev),
         (run_msg assistantMsgId (plan_update <$> cs) lastMsg lastMsg).
  split; [by apply run_fmap|]. split.
  - by rewrite fmap_last, Hl.
  - by apply run_msg_plan_updates.
Qed.

(** *** The answer *)

Lemma step_msg_content d lastMsg m :
  content (step_msg assistantMsgId d lastMsg m) =
    match d with
    | answer c => if decide (id m = Some assistantMsgId) then c else content m
    | _ => content m
    end.
Proof.
  unfold step_msg, content_rule, last_rule.
  destruct d; repeat case_decide; simpl; try done;
    by destruct (add_detail_frame step_index detail m) as (? & ? & ? & ?).
Qed.

Lemma run_msg_content_no_answer ds lastMsg m :
  Forall (fun d => forall c', d <> answer c') ds ->
  content (run_msg assistantMsgId ds lastMsg m) = content m.
Proof.
  revert lastMsg m. induction ds as [|d ds IH]; intros lastMsg m Hds; [done|].
  inversion Hds as [|? ? Hd Hds']; subst. simpl.
  rewrite IH by done. rewrite step_msg_content.
  destruct d; try done. by destruct (Hd text).
Qed.

Lemma run_msg_content_other ds lastMsg m :
  id m <> Some assistantMsgId ->
  content (run_msg assistantMsgId ds lastMsg m) = content m.
Proof.
  revert lastMsg m. induction ds as [|d ds IH]; intros lastMsg m Hid; [done|].
  simpl. rewrite IH by (by rewrite step_msg_id).
  rewrite step_msg_content. destruct d; try done. by case_decide.
Qed.

(** C5: an [answer] event replaces the whole content of the message of
    the request, and the last [answer] of a stream decides the final
    content, whatever other events come before or after it.  Messages of
    other requests keep their content. *)
Theorem answer_replaces_content prev ds ds' c :
  prev <> [] ->
  Forall (fun d => forall c', d <> answer c') ds' ->
  exists prev',
    run assistantMsgId (ds ++ answer c :: ds') prev = Some prev'
    /\ Forall2 (fun m m' =>
                  id m' = id m
                  /\ (id m = Some assistantMsgId -> content m' = c)
                  /\ (id m <> Some assistantMsgId -> content m' = content m))
         prev prev'.
Proof.
  intros Hne Hds'. destruct (nonempty_last prev Hne) as [lastMsg Hl].
  eexists. split; [by apply run_fmap|].
  apply Forall2_fmap_r, Forall_Forall2_diag, Forall_forall.
  intros m _. split; [apply run_msg_id|]. split.
  - intros Hid. rewrite run_msg_app. simpl.
    rewrite run_msg_content_no_answer by done.
    rewrite step_msg_content, run_msg_id. by case_decide.
  - intros Hid. by apply run_msg_content_other.
Qed.

(** *** The details of a step *)

Lemma stepDetails_add_detail i x m j :
  stepDetails (add_detail i x m) j =
    if decide (j = i)
    then if bool_decide (x ∈ stepDetails m i)
         then stepDetails m i else stepDetails m i ++ [x]
    else stepDetails m j.
Proof.
  unfold add_detail. fold (stepDetails m i).
  case_bool_decide as Hin.
  - by case_decide; subst.
  - unfold stepDetails at 1. simpl.
    case_decide as Hj.
    + subst. by rewrite lookup_insert_eq.
    + by rewrite lookup_insert_ne.
Qed.

Lemma step_msg_step_detail i x lastMsg :
  role lastMsg = assistant ->
  step_msg assistantMsgId (step_detail i x) lastMsg lastMsg = add_detail i x lastMsg.
Proof.
  intros Hr. unfold step_msg, content_rule, last_rule.
  repeat case_decide; done.
Qed.

(** C7, as the code has it: a [step_detail] event appends its detail to
    the list of its step unless the detail already occurs anywhere in
    that list (not only as its last entry); the lists of the other steps
    are untouched, and a second delivery of the same event changes
    nothing, so two [step_detail] events with step 0 and detail x in a
    row leave a single new entry x. *)
Theorem step_detail_appends_unless_present prev lastMsg i x :
  last prev = Some lastMsg -> role lastMsg = assistant ->
  exists prev' m',
    handle assistantMsgId (step_detail i x) prev = Some prev'
    /\ last prev' = Some m'
    /\ stepDetails m' i =
         (if bool_decide (x ∈ stepDetails lastMsg i)
          then stepDetails lastMsg i else stepDetails lastMsg i ++ [x])
    /\ (forall j, j <> i -> stepDetails m' j = stepDetails lastMsg j)
    /\ exists prev'' m'',
         handle assistantMsgId (step_detail i x) prev' = Some prev''
         /\ last prev'' = Some m''
         /\ forall j, stepDetails m'' j = stepDetails m' j.
Proof.
  intros Hl Hr.
  exists (step_msg assistantMsgId (step_detail i x) lastMsg <$> prev),
         (add_detail i x lastMsg).
  assert (Hl' : last (step_msg assistantMsgId (step_detail i x) lastMsg <$> prev)
                = Some (add_detail i x lastMsg)).
  { by rewrite fmap_last, Hl; simpl; rewrite step_msg_step_detail. }
  split; [by apply handle_fmap|]. split; [done|]. split.
  { rewrite stepDetails_add_detail. by case_decide. }
  split.
  { intros j Hj. rewrite stepDetails_add_detail. by case_decide. }
  destruct (add_detail_frame i x lastMsg) as (_ & Hr' & _).
  exists (step_msg assistantMsgId (step_detail i x) (add_detail i x lastMsg)
            <$> (step_msg assistantMsgId (step_detail i x) lastMsg <$> prev)),
         (add_detail i x (add_detail i x lastMsg)).
  split; [by apply handle_fmap|]. split.
  { rewrite fmap_last, Hl'. simpl. rewrite step_msg_step_detail; [done|congruence]. }
  intros j. rewrite !stepDetails_add_detail.
  case_decide as Hj; [subst|done].
  rewrite !decide_True by done.
  destruct (decide (x ∈ stepDetails lastMsg i)) as [Hin|Hin].
  - rewrite (bool_decide_true _ Hin). by rewrite (bool_decide_true _ Hin).
  - rewrite (bool_decide_false _ Hin), bool_decide_true; [done|].
    apply elem_of_app. right. by apply list_elem_of_singleton.
Qed.

Lemma add_detail_dup_free i x m :
  details_dup_free m -> details_dup_free (add_detail i x m).
Proof.
  intros Hm j. rewrite stepDetails_add_detail.
  case_decide; [subst|done].
  case_bool_decide as Hin; [done|].
  apply NoDup_app. split; [done|]. split.
  - intros y Hy Hy'. apply list_elem_of_singleton in Hy'. by subst.
  - apply NoDup_singleton.
Qed.

Lemma step_msg_dup_free d lastMsg m :
  details_dup_free m -> details_dup_free (step_msg assistantMsgId d lastMsg m).
Proof.
  intros Hm. unfold step_msg, content_rule, last_rule.
  destruct d; repeat case_decide; try done; by apply add_detail_dup_free.
Qed.

Lemma run_msg_dup_free ds lastMsg m :
  details_dup_free m -> details_dup_free (run_msg assistantMsgId ds lastMsg m).
Proof.
  revert lastMsg m. induction ds as [|d ds IH]; intros lastMsg m Hm; [done|].
  simpl. by apply IH, step_msg_dup_free.
Qed.

(** C10: the decoder never appends a detail that already occurs anywhere
    in the list of its step, and freedom from duplicates of every
    per-step list is an invariant of the stream: it holds of the fresh
    placeholder and every event of every stream preserves it. *)
Theorem step_details_never_duplicated prev ds :
  prev <> [] ->
  Forall details_dup_free prev ->
  (forall m i x, x ∈ stepDetails m i -> add_detail i x m = m)
  /\ details_dup_free (placeholder assistantMsgId)
  /\ exists prev',
       run assistantMsgId ds prev = Some prev'
       /\ Forall details_dup_free prev'.
Proof.
  intros Hne Hprev. split; [|split].
  - intros m i x Hin. unfold add_detail. fold (stepDetails m i).
    by rewrite bool_decide_true.
  - intros j. unfold stepDetails. simpl. rewrite lookup_empty. apply NoDup_nil_2.
  - destruct (nonempty_last prev Hne) as [lastMsg Hl].
    eexists. split; [by apply run_fmap|].
    apply Forall_fmap. eapply Forall_impl; [exact Hprev|].
    intros m Hm. by apply run_msg_dup_free.
Qed.

End Decoder.

(** C2, the counterexample: a cursor at 2 meets a [plan_update] carrying 1;
    the cursor becomes 1, the lower value is not ignored. *)
Lemma plan_update_lower_value_overwrites :
  let m := with_completed 2 (placeholder 7) in
  current_cursor (Some [m]) = Some 2%Z
  /\ (1 < 2)%Z
  /\ current_cursor (run 7 [plan_update 1] [m]) = Some 1%Z.
Proof. repeat split. Qed.

Lemma plan_update_last_write_wins_witness :
  exists prev' m',
    run 7 (plan_update <$> [2; 1; 3]%Z) [placeholder 7] = Some prev'
    /\ last prev' = Some m'
    /\ planCompletedIndex m' = Some 3%Z.
Proof.
  apply (plan_update_last_write_wins 7 [placeholder 7] (placeholder 7) [2; 1; 3]%Z 3%Z);
    reflexivity.
Defined.

Lemma answer_replaces_content_witness :
  exists prev',
    run 7 ([] ++ answer (js "A") :: [] ++ answer (js "AB") :: []) [placeholder 7]
      = Some prev'
    /\ Forall2 (fun m m' =>
                  id m' = id m
                  /\ (id m = Some 7%Z -> content m' = js "AB")
                  /\ (id m <> Some 7%Z -> content m' = content m))
         [placeholder 7] prev'.
Proof.
  apply (answer_replaces_content 7 [placeholder 7] [answer (js "A")] [] (js "AB")).
  - discriminate.
  - constructor.
Defined.

(** C7, the counterexample: after the details x and y, the detail x comes
    again.  It differs from the last recorded entry (y), so the claim has it
    appended; the code drops it. *)
Lemma step_detail_earlier_duplicate_dropped :
  let x := js "x" in
  let y := js "y" in
  current_details
    (run 7 [step_detail 0 x; step_detail 0 y] [placeholder 7]) 0 = Some [x; y]
  /\ x <> y
  /\ current_details
       (run 7 [step_detail 0 x; step_detail 0 y; step_detail 0 x] [placeholder 7]) 0
     = Some [x; y].
Proof. repeat split. discriminate. Qed.

Lemma step_detail_appends_unless_present_witness :
  exists prev' m',
    handle 7 (step_detail 0 (js "x")) [placeholder 7] = Some prev'
    /\ last prev' = Some m'
    /\ stepDetails m' 0 =
         (if bool_decide (js "x" ∈ stepDetails (placeholder 7) 0)
          then stepDetails (placeholder 7) 0
          else stepDetails (placeholder 7) 0 ++ [js "x"])
    /\ (forall j, j <> 0%Z -> stepDetails m' j = stepDetails (placeholder 7) j)
    /\ exists prev'' m'',
         handle 7 (step_detail 0 (js "x")) prev' = Some prev''
         /\ last prev'' = Some m''
         /\ forall j, stepDetails m'' j = stepDetails m' j.
Proof.
  apply (step_detail_appends_unless_present 7 [placeholder 7] (placeholder 7) 0%Z (js "x"));
    reflexivity.
Defined.

Lemma step_details_never_duplicated_witness :
  (forall m i x, x ∈ stepDetails m i -> add_detail i x m = m)
  /\ details_dup_free (placeholder 7)
  /\ exists prev',
       run 7 [step_detail 0 (js "x"); step_detail 0 (js "y"); step_detail 0 (js "x")]
         [placeholder 7] = Some prev'
       /\ Forall details_dup_free prev'.
Proof.
  apply (step_details_never_duplicated 7 [placeholder 7]).
  - discriminate.
  - constructor; [|constructor].
    intros j. unfold stepDetails. simpl. rewrite lookup_empty. apply NoDup_nil_2.
Defined.

Import Matching.

(** * What a match consists of *)

Section Spans.

Variable i : bool.

Lemma star_spans g (r : regex) :
  (forall k s caps res,
     match_re i r k s caps = Some res ->
     exists pre rest caps',
       s = pre ++ rest /\ spans i r caps pre rest caps' /\ k rest caps' = Some res) ->
  forall fuel k s caps res,
    star g (match_re i r) k fuel s caps = Some res ->
    exists pre rest caps',
      s = pre ++ rest /\ spans i (Star g r) caps pre rest caps'
      /\ k rest caps' = Some res.
Proof.
  intros IH. induction fuel as [|fuel IHf]; intros k s caps res H.
  - exists [], s, caps. split; [done|]. split; [constructor|done].
  - cbn [star] in H.
    assert (Hstop : k s caps = Some res ->
              exists pre rest caps',
                s = pre ++ rest /\ spans i (Star g r) caps pre rest caps'
                /\ k rest caps' = Some res).
    { intros Hk. exists [], s, caps. split; [done|]. split; [constructor|done]. }
    assert (Hagain :
              match_re i r
                (fun s' caps' =>
                   if (length s' <? length s)%nat
                   then star g (match_re i r) k fuel s' caps' else None) s caps
              = Some res ->
              exists pre rest caps',
                s = pre ++ rest /\ spans i (Star g r) caps pre rest caps'
                /\ k rest caps' = Some res).
    { intros Ha. apply IH in Ha as (a & rest1 & caps1 & -> & Hs1 & Hk1).
      destruct (Nat.ltb_spec (length rest1) (length (a ++ rest1))) as [Hlt|]; [|done].
      apply IHf in Hk1 as (b & rest & caps2 & -> & Hs2 & Hk2).
      exists (a ++ b), rest, caps2. split; [by rewrite app_assoc|].
      split; [|done]. econstructor; [|done|done].
      intros ->. simpl in Hlt. lia. }
    destruct g.
    + destruct (match_re i r _ s caps) as [res'|] eqn:E.
      * injection H as ->. by apply Hagain.
      * by apply Hstop.
    + destruct (k s caps) as [res'|] eqn:E.
      * injection H as ->. by apply Hstop.
      * by apply Hagain.
Qed.

(** Every result of the matcher is a span of the pattern, followed by
    the continuation. *)
Lemma match_re_spans r : forall k s caps res,
  match_re i r k s caps = Some res ->
  exists pre rest caps',
    s = pre ++ rest /\ spans i r caps pre rest caps' /\ k rest caps' = Some res.
Proof.
  induction r as [|c|p|r1 IH1 r2 IH2|r1 IH1 r2 IH2|g r IH|n r IH|r IH|r IH];
    intros k s caps res H; cbn -[star] in H.
  - exists [], s, caps. split; [done|]. split; [constructor|done].
  - destruct s as [|x s']; [done|].
    destruct (if i then _ else _) eqn:E; [|done].
    exists [x], s', caps. split; [done|]. split; [by constructor|done].
  - destruct s as [|x s']; [done|].
    destruct (p x) eqn:E; [|done].
    exists [x], s', caps. split; [done|]. split; [by constructor|done].
  - apply IH1 in H as (a & rest1 & caps1 & -> & Hs1 & H).
    apply IH2 in H as (b & rest & caps2 & -> & Hs2 & H).
    exists (a ++ b), rest, caps2. split; [by rewrite app_assoc|].
    split; [by econstructor|done].
  - destruct (match_re i r1 k s caps) as [res'|] eqn:E.
    + injection H as ->. apply IH1 in E as (a & rest & caps' & -> & Hs & Hk).
      exists a, rest, caps'. split; [done|]. split; [by apply spans_alt_left|done].
    + apply IH2 in H as (a & rest & caps' & -> & Hs & Hk).
      exists a, rest, caps'. split; [done|]. split; [by apply spans_alt_right|done].
  - by apply (star_spans g r IH) in H.
  - apply IH in H as (a & rest & caps' & -> & Hs & Hk).
    exists a, rest, (<[n := Some a]> caps'). split; [done|].
    split; [by constructor|].
    rewrite length_app, Nat.add_sub, take_app_length in Hk. done.
  - apply IH in H as (a & rest & caps' & -> & Hs & Hk).
    exists a, rest, caps'. split; [done|]. split; [by constructor|done].
  - destruct (match_re i r _ s caps) eqn:E; [done|].
    exists [], s, caps. split; [done|]. split; [by constructor|done].
Qed.

End Spans.

Lemma match_here_spans re s m caps :
  match_here re s = Some (m, caps) ->
  exists rest,
    s = m ++ rest
    /\ spans (ignoreCase re) (source re) (replicate 4 None) m rest caps.
Proof.
  unfold match_here. intros H.
  destruct (match_re _ _ _ _ _) as [[s' caps']|] eqn:E; [|done].
  injection H as <- <-.
  apply match_re_spans in E as (pre & rest & caps'' & -> & Hs & Hk).
  injection Hk as <- <-. exists rest.
  rewrite length_app, Nat.add_sub, take_app_length. done.
Qed.

(** ** Reading a span back *)

Section Inversion.

Variable i : bool.

Lemma spans_seq_inv r1 r2 caps pre rest caps' :
  spans i (Seq r1 r2) caps pre rest caps' ->
  exists a caps1 b,
    pre = a ++ b /\ spans i r1 caps a (b ++ rest) caps1
    /\ spans i r2 caps1 b rest caps'.
Proof. inversion 1; subst. eauto 10. Qed.

Lemma spans_char_inv c caps pre rest caps' :
  spans i (Char c) caps pre rest caps' ->
  exists x, pre = [x] /\ char_test i x c = true /\ caps' = caps.
Proof. inversion 1; subst. eauto. Qed.

Lemma spans_class_inv p caps pre rest caps' :
  spans i (Class p) caps pre rest caps' ->
  exists x, pre = [x] /\ p x = true /\ caps' = caps.
Proof. inversion 1; subst. eauto. Qed.

Lemma spans_alt_inv r1 r2 caps pre rest caps' :
  spans i (Alt r1 r2) caps pre rest caps' ->
  spans i r1 caps pre rest caps' \/ spans i r2 caps pre rest caps'.
Proof. inversion 1; subst; auto. Qed.

Lemma spans_empty_inv caps pre rest caps' :
  spans i Empty caps pre rest caps' -> pre = [] /\ caps' = caps.
Proof. by inversion 1. Qed.

Lemma spans_group_inv n r caps pre rest caps' :
  spans i (Group n r) caps pre rest caps' ->
  exists caps1, spans i r caps pre rest caps1 /\ caps' = <[n := Some pre]> caps1.
Proof. inversion 1; subst. eauto. Qed.

Lemma spans_noncapture_inv r caps pre rest caps' :
  spans i (NonCapture r) caps pre rest caps' -> spans i r caps pre rest caps'.
Proof. by inversion 1. Qed.

Lemma spans_neglookahead_inv r caps pre rest caps' :
  spans i (NegLookahead r) caps pre rest caps' ->
  pre = [] /\ caps' = caps
  /\ match_re i r (fun s' caps' => Some (s', caps')) rest caps = None.
Proof. by inversion 1. Qed.

(** A pattern without groups leaves the captures alone. *)
Lemma spans_group_free r caps pre rest caps' :
  spans i r caps pre rest caps' -> group_free r = true -> caps' = caps.
Proof.
  induction 1; cbn [group_free]; intros Hg; try done.
  - apply andb_true_iff in Hg as [H1 H2]. rewrite IHspans2, IHspans1; done.
  - apply andb_true_iff in Hg as [H1 H2]. auto.
  - apply andb_true_iff in Hg as [H1 H2]. auto.
  - rewrite IHspans2, IHspans1; done.
  - auto.
Qed.

(** A starred class spans code units of the class. *)
Lemma spans_star_class g p caps pre rest caps' :
  spans i (Star g (Class p)) caps pre rest caps' ->
  Forall (fun c => p c = true) pre /\ caps' = caps.
Proof.
  remember (Star g (Class p)) as r eqn:Er. intros H. revert Er.
  induction H; intros Er; try discriminate.
  - done.
  - injection Er as -> ->.
    apply spans_class_inv in H0 as (x & -> & Hx & ->).
    destruct (IHspans2 eq_refl) as [Hb ->]. split; [|done].
    by constructor.
Qed.

Lemma spans_plus_class g p caps pre rest caps' :
  spans i (Plus g (Class p)) caps pre rest caps' ->
  pre <> [] /\ Forall (fun c => p c = true) pre /\ caps' = caps.
Proof.
  unfold Plus. intros H.
  apply spans_seq_inv in H as (a & caps1 & b & -> & Ha & Hb).
  apply spans_class_inv in Ha as (x & -> & Hx & ->).
  apply spans_star_class in Hb as [Hb ->].
  split; [done|]. split; [by constructor|done].
Qed.

(** A literal spans its own code units, up to the case when the flag
    says so. *)
Lemma spans_lit l : forall caps pre rest caps',
  spans i (Lit l) caps pre rest caps' ->
  Forall2 (fun x c => char_test i x c = true) pre l /\ caps' = caps.
Proof.
  induction l as [|c l IH]; intros caps pre rest caps' H.
  - apply spans_empty_inv in H as [-> ->]. split; [constructor|done].
  - destruct l as [|c' l'].
    + apply spans_char_inv in H as (x & -> & Hx & ->).
      split; [by repeat constructor|done].
    + change (Lit (c :: c' :: l')) with (Seq (Char c) (Lit (c' :: l'))) in H.
      apply spans_seq_inv in H as (a & caps1 & b & -> & Ha & Hb).
      apply spans_char_inv in Ha as (x & -> & Hx & ->).
      apply IH in Hb as [Hb ->]. split; [by constructor|done].
Qed.

End Inversion.

(** The code unit that follows a match. *)
Lemma nextChar_rest h text rest :
  (index h <= length text)%nat ->
  drop (index h) text = matched h ++ rest ->
  nextChar h text = head rest.
Proof.
  intros Hle Hd. unfold nextChar, char_at.
  rewrite (proj2 (Z.ltb_ge _ 0)) by lia.
  rewrite <- Nat2Z.inj_add, Nat2Z.id.
  etrans; [symmetry; apply (lookup_drop text (index h) (length (matched h)))|].
  rewrite Hd, lookup_app_r by lia. rewrite Nat.sub_diag. by destruct rest.
Qed.

(** ** The shapes of the citation patterns *)

(** A canto name, in any letter case. *)
Lemma spans_kanda_names i caps pre rest caps' :
  spans i kanda_names caps pre rest caps' ->
  (exists K, K ∈ kandaList /\ Forall2 (fun x c => char_test i x c = true) pre K)
  /\ caps' = caps.
Proof.
  unfold kanda_names, kandaList. cbn [fmap list_fmap Alts]. intros H.
  repeat (apply spans_alt_inv in H as [H|H]);
    apply spans_lit in H as [H ->]; (split; [|done]); eexists; (split; [|exact H]);
    unfold kandaList; rewrite list_elem_of_In; simpl; tauto.
Qed.

Lemma spans_star_space i g caps pre rest caps' :
  spans i (Star g space) caps pre rest caps' ->
  Forall (fun c => is_space c = true) pre /\ caps' = caps.
Proof. apply spans_star_class. Qed.

Lemma spans_number i caps pre rest caps' :
  spans i (Plus true digit) caps pre rest caps' ->
  is_number pre /\ caps' = caps.
Proof.
  intros H. apply spans_plus_class in H as (H1 & H2 & H3). by repeat split.
Qed.

(** The chapter-only pattern: a canto name, "Kanda", perhaps "Sarga", a
    number, and then nothing that the lookahead refuses. *)
Lemma sarga_match_shape s m caps :
  match_here SARGA_ONLY_REGEX s = Some (m, caps) ->
  exists name num rest,
    s = m ++ rest
    /\ caps = [None; Some name; Some num; None]
    /\ (exists K, K ∈ kandaList
                  /\ Forall2 (fun x c => char_test true x c = true) name K)
    /\ is_number num
    /\ match_re true (Cat [Star true space; Class colon_or_digit])
         (fun s' caps' => Some (s', caps')) rest caps = None.
Proof.
  intros H. apply match_here_spans in H as (rest & -> & H).
  unfold SARGA_ONLY_REGEX in H. cbn [source ignoreCase Cat] in H.
  apply spans_seq_inv in H as (a1 & c1 & b1 & -> & H1 & H).
  apply spans_seq_inv in H as (a2 & c2 & b2 & -> & H2 & H).
  apply spans_seq_inv in H as (a3 & c3 & b3 & -> & H3 & H).
  apply spans_seq_inv in H as (a4 & c4 & b4 & -> & H4 & H).
  apply spans_seq_inv in H as (a5 & c5 & b5 & -> & H5 & H).
  apply spans_seq_inv in H as (a6 & c6 & b6 & -> & H6 & H7).
  apply spans_group_inv in H1 as (c1' & H1 & ->).
  apply spans_kanda_names in H1 as [HK ->].
  apply spans_star_space in H2 as [_ ->].
  apply spans_lit in H3 as [_ ->].
  apply spans_star_space in H4 as [_ ->].
  assert (c5 = <[1%nat := Some a1]> (replicate 4 None)) as ->.
  { eapply spans_group_free; [exact H5|done]. }
  apply spans_group_inv in H6 as (c6' & H6 & ->).
  apply spans_number in H6 as [Hnum ->].
  apply spans_neglookahead_inv in H7 as (-> & -> & Hla).
  exists a1, a6, rest. rewrite !app_nil_r in *. repeat split; try done.
  all: apply Hnum.
Qed.

Lemma lookahead_refuses c t caps :
  colon_or_digit c = true ->
  match_re true (Cat [Star true space; Class colon_or_digit])
    (fun s' caps' => Some (s', caps')) (c :: t) caps <> None.
Proof.
  intros Hc. unfold space. cbn [Cat match_re length star].
  assert (Hs : is_space c = false).
  { unfold colon_or_digit, is_digit in Hc. unfold is_space.
    apply orb_true_iff in Hc as [Hc|Hc].
    - apply N.eqb_eq in Hc as ->. done.
    - apply andb_true_iff in Hc as [H1 H2]. apply N.leb_le in H1, H2.
      repeat match goal with
        | |- context [?a <=? ?b] =>
            first [ rewrite (proj2 (N.leb_le a b)) by lia
                  | rewrite (proj2 (N.leb_gt a b)) by lia ]
        | |- context [?a =? ?b] => rewrite (proj2 (N.eqb_neq a b)) by lia
        end.
      done. }
  rewrite Hs, Hc. done.
Qed.

(** X6: what follows a match of the chapter-only pattern is never a colon
    nor a digit, so the third pass never takes its colon check: every
    match that no bracket or parenthesis guards is converted, with verse
    "0". *)
Theorem sarga_colon_check_never_fires text h :
  h ∈ hits SARGA_ONLY_REGEX text ->
  nextChar h text <> Some (ch ":")
  /\ (forall d, is_digit d = true -> nextChar h text <> Some d)
  /\ sarga_replacer text h
     = (if delimited h text then matched h
        else marker (group h 1 ++ js " Kanda") (group h 2) (js "0"))
  /\ is_number (group h 2).
Proof.
  intros Hin. apply hit_position in Hin as [Hle Hm].
  apply sarga_match_shape in Hm as (name & num & rest & Hd & Hc & _ & Hnum & Hla).
  rewrite (nextChar_rest h text rest Hle Hd).
  assert (Hnext : forall c, colon_or_digit c = true -> head rest <> Some c).
  { intros c Hc' Hh. destruct rest as [|c' t]; [done|]. injection Hh as ->.
    by apply (lookahead_refuses c t (groups h)). }
  split; [by apply Hnext|]. split.
  { intros d Hd'. apply Hnext. unfold colon_or_digit. by rewrite Hd', orb_true_r. }
  split.
  - unfold sarga_replacer. destruct (delimited h text); [done|].
    rewrite (nextChar_rest h text rest Hle Hd).
    rewrite bool_decide_false; [done|]. by apply Hnext.
  - unfold group. by rewrite Hc.
Qed.

Lemma sarga_colon_check_never_fires_witness :
  let text := js "See Bala Kanda 18." in
  let h := mkHit 4 (js "Bala Kanda 18")
             [None; Some (js "Bala"); Some (js "18"); None] in
  nextChar h text <> Some (ch ":")
  /\ (forall d, is_digit d = true -> nextChar h text <> Some d)
  /\ sarga_replacer text h
     = (if delimited h text then matched h
        else marker (group h 1 ++ js " Kanda") (group h 2) (js "0"))
  /\ is_number (group h 2).
Proof.
  intros text h. apply (sarga_colon_check_never_fires text h).
  vm_compute. left.
Defined.

(** Without the flag a literal spans itself. *)
Lemma exact_literal (a l : jsstring) :
  Forall2 (fun x c => char_test false x c = true) a l -> a = l.
Proof.
  induction 1 as [|x c a l Hx _ IH]; [done|].
  apply N.eqb_eq in Hx. by subst.
Qed.

(** The marker pattern: a canto text without line terminators and two
    numbers. *)
Lemma marker_match_shape s m caps :
  match_here MARKER_REGEX s = Some (m, caps) ->
  exists k sarga shloka,
    m = marker k sarga shloka
    /\ caps = [None; Some k; Some sarga; Some shloka]
    /\ k <> [] /\ Forall (fun c => is_dot c = true) k
    /\ is_number sarga /\ is_number shloka.
Proof.
  intros H. apply match_here_spans in H as (rest & -> & H).
  unfold MARKER_REGEX in H. cbn [source ignoreCase Cat] in H.
  apply spans_seq_inv in H as (a1 & c1 & b1 & -> & H1 & H).
  apply spans_seq_inv in H as (a2 & c2 & b2 & -> & H2 & H).
  apply spans_seq_inv in H as (a3 & c3 & b3 & -> & H3 & H).
  apply spans_seq_inv in H as (a4 & c4 & b4 & -> & H4 & H).
  apply spans_seq_inv in H as (a5 & c5 & b5 & -> & H5 & H).
  apply spans_seq_inv in H as (a6 & c6 & b6 & -> & H6 & H7).
  apply spans_lit in H1 as [H1 ->].
  apply spans_group_inv in H2 as (c2' & H2 & ->).
  apply spans_plus_class in H2 as (Hk1 & Hk2 & ->).
  apply spans_char_inv in H3 as (x3 & -> & Hx3 & ->).
  apply spans_group_inv in H4 as (c4' & H4 & ->).
  apply spans_number in H4 as [Hs ->].
  apply spans_char_inv in H5 as (x5 & -> & Hx5 & ->).
  apply spans_group_inv in H6 as (c6' & H6 & ->).
  apply spans_number in H6 as [Hv ->].
  apply spans_lit in H7 as [H7 ->].
  exists a2, a4, a6.
  apply exact_literal in H1 as ->. apply exact_literal in H7 as ->.
  apply N.eqb_eq in Hx3, Hx5. subst.
  repeat split; try done; try apply Hs; try apply Hv.
Qed.

Lemma number_of_digits s :
  is_number s -> is_Some (number_of s).
Proof.
  intros [Hne Hd]. unfold number_of. destruct s as [|c s]; [done|].
  clear Hne. generalize (c :: s) Hd. clear. intros l Hl.
  generalize 0. induction Hl as [|d l Hd _ IH]; intros acc; [by eexists|].
  cbn [foldl mbind option_bind]. rewrite Hd. apply IH.
Qed.

(** X4: every reference the final pass turns into a link has a chapter
    and a verse that are numbers, and a canto text on one line. *)
Theorem every_citation_is_numbered content k s v :
  (k, s, v) ∈ citations content ->
  k <> [] /\ Forall (fun c => is_dot c = true) k
  /\ is_number s /\ is_number v
  /\ is_Some (number_of s) /\ is_Some (number_of v).
Proof.
  unfold citations. intros Hin.
  apply list_elem_of_fmap in Hin as (h & Heq & Hh).
  apply hit_position in Hh as [_ Hm].
  apply marker_match_shape in Hm as (k' & s' & v' & _ & Hc & Hk1 & Hk2 & Hs & Hv).
  unfold group in Heq. rewrite Hc in Heq. cbn in Heq.
  injection Heq as -> -> ->.
  repeat split; try done; try apply Hs; try apply Hv; by apply number_of_digits.
Qed.

Lemma every_citation_is_numbered_witness :
  js "Aranya Kanda" <> []
  /\ Forall (fun c => is_dot c = true) (js "Aranya Kanda")
  /\ is_number (js "9") /\ is_number (js "0")
  /\ is_Some (number_of (js "9")) /\ is_Some (number_of (js "0")).
Proof.
  apply (every_citation_is_numbered (js "as told in Aranya Kanda 9.")).
  vm_compute. left.
Defined.

(** ** The first pass *)

Lemma number_hits content :
  Forall is_number (match_all NUMBER_REGEX content).
Proof.
  unfold match_all. apply Forall_fmap, Forall_forall. intros h Hh.
  apply hit_position in Hh as [_ Hm].
  apply match_here_spans in Hm as (rest & _ & Hs).
  unfold NUMBER_REGEX in Hs. cbn [source ignoreCase] in Hs.
  by apply spans_number in Hs as [Hn _].
Qed.

Ltac canto :=
  let try_name K :=
    (exists K; split;
     [unfold kandaList; rewrite list_elem_of_In; simpl; tauto|reflexivity]) in
  first [ try_name (js "Bala") | try_name (js "Ayodhya") | try_name (js "Aranya")
        | try_name (js "Kishkindha") | try_name (js "Sundara")
        | try_name (js "Yuddha") | try_name (js "Uttara") ].

Lemma KANDA_MAP_values key :
  exists K, K ∈ kandaList
            /\ default (js "Bala Kanda") (KANDA_MAP !! key) = K ++ js " Kanda".
Proof.
  destruct (KANDA_MAP !! key) as [name|] eqn:E.
  - unfold KANDA_MAP in E. apply elem_of_list_to_map_2 in E.
    repeat (apply elem_of_cons in E as [E|E];
            [injection E as -> ->; canto|]).
    by apply elem_of_nil in E.
  - exists (js "Bala"). split; [left|done].
Qed.

Lemma is_number_literal_1 : is_number (js "1").
Proof. split; [done|by repeat constructor]. Qed.

Lemma is_number_literal_0 : is_number (js "0").
Proof. split; [done|by repeat constructor]. Qed.

(** X5: whatever stands between the brackets, the first pass writes a
    marker with one of the seven canto names and with a chapter and a
    verse that are numbers. *)
Theorem bracket_pass_writes_official_canto h :
  exists K sarga shloka,
    K ∈ kandaList /\ is_number sarga /\ is_number shloka
    /\ bracket_replacer h = marker (K ++ js " Kanda") sarga shloka.
Proof.
  unfold bracket_replacer.
  set (content := group h 1).
  assert (HK : exists K, K ∈ kandaList /\
            match find (fun k => test (mkRegExp (Lit k) true) content) kandaList with
            | Some k => k ++ js " Kanda"
            | None =>
                match exec KANDA_INDEX_REGEX content with
                | Some kandaIndexMatch =>
                    default (js "Bala Kanda") (KANDA_MAP !! group kandaIndexMatch 1)
                | None => js "Bala Kanda"
                end
            end = K ++ js " Kanda").
  { destruct (find _ kandaList) as [k|] eqn:Ef.
    - apply find_some in Ef as [Hin _]. exists k. split; [by apply list_elem_of_In|done].
    - destruct (exec KANDA_INDEX_REGEX content) as [m|].
      + apply KANDA_MAP_values.
      + exists (js "Bala"). split; [left|done]. }
  destruct HK as (K & HK & ->).
  pose proof (number_hits content) as Hall.
  assert (Hdata : Forall is_number
            (if test KANDA_INDEX_REGEX content
             then drop 1 (match_all NUMBER_REGEX content)
             else match_all NUMBER_REGEX content)).
  { destruct (test KANDA_INDEX_REGEX content); [by apply Forall_drop|done]. }
  destruct (if test KANDA_INDEX_REGEX content then _ else _) as [|sarga [|shloka l]].
  - exists K, (js "1"), (js "1").
    split; [done|]. split; [apply is_number_literal_1|].
    split; [apply is_number_literal_1|done].
  - inversion Hdata as [|? ? Hs _]; subst.
    exists K, sarga, (js "0"). split; [done|]. split; [done|].
    split; [apply is_number_literal_0|done].
  - inversion Hdata as [|? ? Hs Hrest]; subst. inversion Hrest as [|? ? Hv _]; subst.
    by exists K, sarga, shloka.
Qed.

(** ** Texts that no pattern can match *)

Lemma canonicalize_inv x c :
  canonicalize x = c -> x = c \/ (x = c + 32 /\ 97 <= x <= 122).
Proof.
  unfold canonicalize.
  destruct (N.leb_spec 97 x), (N.leb_spec x 122); cbn [andb]; lia.
Qed.

Lemma folds_to_K x : char_test true x (ch "K") = true -> x = ch "K" \/ x = ch "k".
Proof.
  unfold char_test. change (canonicalize (ch "K")) with 75.
  change (ch "K") with 75. change (ch "k") with 107.
  intros H. apply N.eqb_eq, canonicalize_inv in H. lia.
Qed.

Lemma folds_to_bracket x : char_test true x (ch "[") = true -> x = ch "[".
Proof.
  unfold char_test. change (canonicalize (ch "[")) with 91. change (ch "[") with 91.
  intros H. apply N.eqb_eq, canonicalize_inv in H. lia.
Qed.

(** A match of the first pattern or of the marker pattern holds an
    opening bracket; a match of the second or third holds the K of
    "Kanda", in either case. *)
Lemma bracket_match_has_bracket s m caps :
  match_here BRACKET_CITATION_REGEX s = Some (m, caps) -> ch "[" ∈ m.
Proof.
  intros H. apply match_here_spans in H as (rest & -> & H).
  unfold BRACKET_CITATION_REGEX in H. cbn [source ignoreCase Cat] in H.
  apply spans_seq_inv in H as (a1 & c1 & b1 & -> & H1 & _).
  apply spans_lit in H1 as [H1 _].
  inversion H1 as [|x c a l Hx _]; subst.
  apply folds_to_bracket in Hx as ->. left.
Qed.

Lemma marker_match_has_bracket s m caps :
  match_here MARKER_REGEX s = Some (m, caps) -> ch "[" ∈ m.
Proof.
  intros H. apply marker_match_shape in H as (k & sarga & shloka & -> & _). left.
Qed.

Lemma kanda_literal_has_K a :
  Forall2 (fun x c => char_test true x c = true) a (js "Kanda") ->
  ch "K" ∈ a \/ ch "k" ∈ a.
Proof.
  intros H. inversion H as [|x c a' l Hx _]; subst.
  apply folds_to_K in Hx as [->| ->]; [left|right]; left.
Qed.

Lemma naked_match_has_K s m caps :
  match_here NAKED_CITATION_REGEX s = Some (m, caps) -> ch "K" ∈ m \/ ch "k" ∈ m.
Proof.
  intros H. apply match_here_spans in H as (rest & -> & H).
  unfold NAKED_CITATION_REGEX in H. cbn [source ignoreCase Cat] in H.
  apply spans_seq_inv in H as (a1 & c1 & b1 & -> & _ & H).
  apply spans_seq_inv in H as (a2 & c2 & b2 & -> & _ & H).
  apply spans_seq_inv in H as (a3 & c3 & b3 & -> & H3 & _).
  apply spans_lit in H3 as [H3 _].
  destruct (kanda_literal_has_K a3 H3) as [HK|HK]; [left|right];
    rewrite !elem_of_app; auto.
Qed.

Lemma sarga_match_has_K s m caps :
  match_here SARGA_ONLY_REGEX s = Some (m, caps) -> ch "K" ∈ m \/ ch "k" ∈ m.
Proof.
  intros H. apply match_here_spans in H as (rest & -> & H).
  unfold SARGA_ONLY_REGEX in H. cbn [source ignoreCase Cat] in H.
  apply spans_seq_inv in H as (a1 & c1 & b1 & -> & _ & H).
  apply spans_seq_inv in H as (a2 & c2 & b2 & -> & _ & H).
  apply spans_seq_inv in H as (a3 & c3 & b3 & -> & H3 & _).
  apply spans_lit in H3 as [H3 _].
  destruct (kanda_literal_has_K a3 H3) as [HK|HK]; [left|right];
    rewrite !elem_of_app; auto.
Qed.

Lemma dead_without re (P : jsstring -> Prop) text :
  (forall s m caps, match_here re s = Some (m, caps) -> exists rest, s = m ++ rest) ->
  (forall s m caps, match_here re s = Some (m, caps) -> P m) ->
  (forall m i rest, drop i text = m ++ rest -> P m -> False) ->
  dead re text.
Proof.
  intros Hpre HP Hno i.
  destruct (match_here re (drop i text)) as [[m caps]|] eqn:E; [|done].
  destruct (Hpre _ _ _ E) as [rest Hrest].
  exfalso. eapply Hno; [exact Hrest|]. by eapply HP.
Qed.

Lemma match_here_prefix re s m caps :
  match_here re s = Some (m, caps) -> exists rest, s = m ++ rest.
Proof.
  intros H. apply match_here_spans in H as (rest & -> & _). by exists rest.
Qed.

Lemma elem_of_drop_part (x : code_unit) text i m rest :
  drop i text = m ++ rest -> x ∈ m -> x ∈ text.
Proof.
  intros Hd Hx. rewrite <- (take_drop i text), Hd.
  rewrite !elem_of_app. auto.
Qed.

(** X7: a text with no opening bracket and no letter K, capital or small,
    holds nothing any pass can match: it is rendered as it is and yields
    no citation. *)
Theorem text_without_bracket_or_k_is_untouched (text : jsstring) :
  ch "[" ∉ text -> ch "K" ∉ text -> ch "k" ∉ text ->
  processedContent text = Some text
  /\ citations text = []
  /\ settled text = true.
Proof.
  intros Hb HK Hk.
  assert (H1 : hits BRACKET_CITATION_REGEX text = []).
  { apply dead_hits.
    apply (dead_without _ (fun m => ch "[" ∈ m));
      [apply match_here_prefix|apply bracket_match_has_bracket|].
    intros m i rest Hd Hin. apply Hb. by eapply elem_of_drop_part. }
  assert (H2 : hits NAKED_CITATION_REGEX text = []).
  { apply dead_hits.
    apply (dead_without _ (fun m => ch "K" ∈ m \/ ch "k" ∈ m));
      [apply match_here_prefix|apply naked_match_has_K|].
    intros m i rest Hd [Hin|Hin]; [apply HK|apply Hk]; by eapply elem_of_drop_part. }
  assert (H3 : hits SARGA_ONLY_REGEX text = []).
  { apply dead_hits.
    apply (dead_without _ (fun m => ch "K" ∈ m \/ ch "k" ∈ m));
      [apply match_here_prefix|apply sarga_match_has_K|].
    intros m i rest Hd [Hin|Hin]; [apply HK|apply Hk]; by eapply elem_of_drop_part. }
  assert (H4 : hits MARKER_REGEX text = []).
  { apply dead_hits.
    apply (dead_without _ (fun m => ch "[" ∈ m));
      [apply match_here_prefix|apply marker_match_has_bracket|].
    intros m i rest Hd Hin. apply Hb. by eapply elem_of_drop_part. }
  assert (Hs : settled text = true).
  { unfold settled, no_hits. by rewrite H1, H2, H3, H4. }
  split; [by apply settled_fixed|]. split; [by apply settled_no_citations|done].
Qed.

Lemma text_without_bracket_or_k_is_untouched_witness :
  processedContent (js "Dharma is subtle; Rama chose the forest.")
  = Some (js "Dharma is subtle; Rama chose the forest.")
  /\ citations (js "Dharma is subtle; Rama chose the forest.") = []
  /\ settled (js "Dharma is subtle; Rama chose the forest.") = true.
Proof.
  apply (text_without_bracket_or_k_is_untouched
           (js "Dharma is subtle; Rama chose the forest."));
    rewrite list_elem_of_In; vm_compute; intuition discriminate.
Defined.

Import UriDecode.

(** * Encoding and decoding a URI component *)

Ltac divmod := zify; Z.to_euclidean_division_equations; lia.

Lemma hex_value_hex_digit n : n < 16 -> hex_value (hex_digit n) = Some n.
Proof.
  intros Hn. unfold hex_value, hex_digit, is_digit.
  destruct (N.ltb_spec n 10).
  - rewrite (proj2 (N.leb_le 48 (48 + n))), (proj2 (N.leb_le (48 + n) 57)) by lia.
    simpl. f_equal. lia.
  - rewrite (proj2 (N.leb_le 48 (55 + n))), (proj2 (N.leb_gt (55 + n) 57)) by lia.
    rewrite (proj2 (N.leb_le 65 (55 + n))), (proj2 (N.leb_le (55 + n) 70)) by lia.
    simpl. f_equal. lia.
Qed.

Lemma octet_hex_digits b :
  b < 256 -> octet (hex_digit (b / 16)) (hex_digit (b mod 16)) = Some b.
Proof.
  intros Hb. unfold octet.
  rewrite (hex_value_hex_digit (b / 16)) by divmod.
  rewrite (hex_value_hex_digit (b mod 16)) by divmod.
  cbn [mbind option_bind]. f_equal. divmod.
Qed.

Lemma decode_percent_ascii b rest :
  b < 128 ->
  decodeURIComponent (percent b ++ rest) = cons b <$> decodeURIComponent rest.
Proof.
  intros Hb. unfold percent. cbn [app decodeURIComponent].
  change (ch "%" =? 37) with true. cbn match.
  rewrite octet_hex_digits by lia. cbn [mbind option_bind].
  by rewrite (proj2 (N.ltb_lt b 128)) by lia.
Qed.

Ltac decide_tests :=
  repeat match goal with
    | |- context [?a <? ?b] =>
        first [ rewrite (proj2 (N.ltb_lt a b)) by divmod
              | rewrite (proj2 (N.ltb_ge a b)) by divmod ]
    | |- context [?a <=? ?b] =>
        first [ rewrite (proj2 (N.leb_le a b)) by divmod
              | rewrite (proj2 (N.leb_gt a b)) by divmod ]
    | |- context [?a =? ?b] =>
        first [ rewrite (proj2 (N.eqb_eq a b)) by divmod
              | rewrite (proj2 (N.eqb_neq a b)) by divmod ]
    end.

Lemma not_surrogate c :
  lead_surrogate c = false -> trail_surrogate c = false ->
  c < 55296 \/ 57343 < c.
Proof.
  unfold lead_surrogate, trail_surrogate. intros Hl Ht.
  destruct (N.leb_spec 55296 c), (N.leb_spec c 56319),
    (N.leb_spec 56320 c), (N.leb_spec c 57343); simpl in *; try discriminate; lia.
Qed.

Ltac octets :=
  repeat (rewrite octet_hex_digits by divmod; cbn [mbind option_bind]).

Lemma decode_escape c rest :
  c < 65536 -> lead_surrogate c = false -> trail_surrogate c = false ->
  decodeURIComponent (escape c ++ rest) = cons c <$> decodeURIComponent rest.
Proof.
  intros Hc Hl Ht. pose proof (not_surrogate c Hl Ht) as Hs.
  unfold escape, utf8.
  destruct (N.ltb_spec c 128) as [H1|H1].
  { cbn [fmap list_fmap concat]. rewrite app_nil_r. by apply decode_percent_ascii. }
  destruct (N.ltb_spec c 2048) as [H2|H2].
  { cbn [fmap list_fmap concat]. unfold percent. cbn [app decodeURIComponent].
    change (ch "%" =? 37) with true. cbn match. octets.
    decide_tests. cbn match. octets.
    unfold decode2, continuation. decide_tests. cbn [andb mbind option_bind].
    unfold utf16. decide_tests.
    replace ((192 + c / 64 - 192) * 64 + (128 + c mod 64 - 128)) with c by divmod.
    done. }
  rewrite (proj2 (N.ltb_lt c 65536)) by done.
  cbn [fmap list_fmap concat]. unfold percent. cbn [app decodeURIComponent].
  change (ch "%" =? 37) with true. cbn match. octets.
  decide_tests. cbn [andb]. cbn match. octets.
  unfold decode3, continuation.
  destruct (N.eqb_spec (224 + c / 4096) 224) as [E|E].
  { decide_tests. cbn [andb mbind option_bind]. unfold utf16. decide_tests.
    replace ((224 + c / 4096 - 224) * 4096 + (128 + (c / 64) mod 64 - 128) * 64
             + (128 + c mod 64 - 128)) with c by divmod.
    done. }
  destruct (N.eqb_spec (224 + c / 4096) 237) as [E'|E'].
  { decide_tests. cbn [andb mbind option_bind]. unfold utf16. decide_tests.
    replace ((224 + c / 4096 - 224) * 4096 + (128 + (c / 64) mod 64 - 128) * 64
             + (128 + c mod 64 - 128)) with c by divmod.
    done. }
  decide_tests. cbn [andb mbind option_bind]. unfold utf16. decide_tests.
  replace ((224 + c / 4096 - 224) * 4096 + (128 + (c / 64) mod 64 - 128) * 64
           + (128 + c mod 64 - 128)) with c by divmod.
  done.
Qed.

Lemma decode_escape_pair c d rest :
  lead_surrogate c = true -> trail_surrogate d = true ->
  decodeURIComponent
    (escape ((c - 55296) * 1024 + (d - 56320) + 65536) ++ rest)
  = app [c; d] <$> decodeURIComponent rest.
Proof.
  unfold lead_surrogate, trail_surrogate. intros Hc Hd.
  apply andb_true_iff in Hc as [Hc1 Hc2]. apply andb_true_iff in Hd as [Hd1 Hd2].
  apply N.leb_le in Hc1, Hc2, Hd1, Hd2.
  set (v := (c - 55296) * 1024 + (d - 56320) + 65536).
  assert (Hv : 65536 <= v < 1114112) by (subst v; lia).
  assert (Hcv : c = 55296 + (v - 65536) / 1024) by (subst v; divmod).
  assert (Hdv : d = 56320 + (v - 65536) mod 1024) by (subst v; divmod).
  clearbody v. subst c d. clear Hc1 Hc2 Hd1 Hd2.
  unfold escape, utf8. decide_tests.
  cbn [fmap list_fmap concat]. unfold percent. cbn [app decodeURIComponent].
  change (ch "%" =? 37) with true. cbn match. octets.
  decide_tests. cbn [andb]. cbn match. octets.
  unfold decode4, continuation.
  destruct (N.eqb_spec (240 + v / 262144) 240) as [E|E];
    [|destruct (N.eqb_spec (240 + v / 262144) 244) as [E'|E']];
    decide_tests; cbn [andb mbind option_bind]; unfold utf16; decide_tests;
    replace ((240 + v / 262144 - 240) * 262144
             + (128 + (v / 4096) mod 64 - 128) * 4096
             + (128 + (v / 64) mod 64 - 128) * 64 + (128 + v mod 64 - 128))
      with v by divmod;
    done.
Qed.

Lemma unreserved_not_percent c : unreserved c = true -> c <> 37.
Proof. intros H ->. discriminate. Qed.

(** Decoding undoes encoding, also in front of more text. *)
Lemma decode_encode_app s : forall e rest,
  Forall (fun c => c < 65536) s ->
  encodeURIComponent s = Some e ->
  decodeURIComponent (e ++ rest) = app s <$> decodeURIComponent rest.
Proof.
  induction s as [s IH] using (induction_ltof1 _ (@length code_unit)).
  unfold ltof in IH. intros e rest Hs He.
  destruct s as [|c s']; [injection He as <-; simpl; by destruct (decodeURIComponent rest)|].
  inversion Hs as [|? ? Hc Hs']; subst.
  cbn [encodeURIComponent] in He.
  destruct (unreserved c) eqn:Hu.
  { destruct (encodeURIComponent s') as [e'|] eqn:He'; [|discriminate].
    injection He as <-. cbn [app decodeURIComponent].
    rewrite (proj2 (N.eqb_neq c 37)) by (by apply unreserved_not_percent).
    rewrite (IH s' ltac:(simpl; lia) e' rest Hs' He').
    by destruct (decodeURIComponent rest). }
  destruct (trail_surrogate c) eqn:Ht; [discriminate|].
  destruct (lead_surrogate c) eqn:Hl.
  { destruct s' as [|d s'']; [discriminate|].
    destruct (trail_surrogate d) eqn:Hd; [|discriminate].
    destruct (encodeURIComponent s'') as [e''|] eqn:He''; [|discriminate].
    injection He as <-. inversion Hs' as [|? ? _ Hs'']; subst.
    rewrite <- app_assoc, decode_escape_pair by done.
    rewrite (IH s'' ltac:(simpl; lia) e'' rest Hs'' He'').
    by destruct (decodeURIComponent rest). }
  destruct (encodeURIComponent s') as [e'|] eqn:He'; [|discriminate].
  injection He as <-.
  rewrite <- app_assoc, decode_escape by done.
  rewrite (IH s' ltac:(simpl; lia) e' rest Hs' He').
  by destruct (decodeURIComponent rest).
Qed.

(** What the encoder writes: unreserved characters and escapes. *)
Lemma hex_digit_unreserved n : n < 16 -> unreserved (hex_digit n) = true.
Proof.
  intros Hn. unfold unreserved, hex_digit, is_digit.
  destruct (N.ltb_spec n 10).
  - rewrite (proj2 (N.leb_le 48 (48 + n))), (proj2 (N.leb_le (48 + n) 57)) by lia.
    by rewrite !orb_true_r.
  - by rewrite (proj2 (N.leb_le 65 (55 + n))), (proj2 (N.leb_le (55 + n) 90)) by lia.
Qed.

Lemma percent_encoded b : b < 256 -> Forall (fun c => encoded_unit c = true) (percent b).
Proof.
  intros Hb. unfold percent, encoded_unit.
  repeat constructor; rewrite ?hex_digit_unreserved by divmod; done.
Qed.

Lemma utf8_octets v :
  v < 1114112 -> Forall (fun b => b < 256) (utf8 v).
Proof.
  intros Hv. unfold utf8.
  destruct (N.ltb_spec v 128); [repeat constructor; lia|].
  destruct (N.ltb_spec v 2048); [repeat constructor; divmod|].
  destruct (N.ltb_spec v 65536); repeat constructor; divmod.
Qed.

Lemma escape_encoded v :
  v < 1114112 -> Forall (fun c => encoded_unit c = true) (escape v).
Proof.
  intros Hv. unfold escape. apply Forall_concat, Forall_fmap.
  eapply Forall_impl; [by apply utf8_octets|].
  intros b Hb. by apply percent_encoded.
Qed.

Lemma encode_encoded s : forall e,
  Forall (fun c => c < 65536) s ->
  encodeURIComponent s = Some e ->
  Forall (fun c => encoded_unit c = true) e.
Proof.
  induction s as [s IH] using (induction_ltof1 _ (@length code_unit)).
  unfold ltof in IH. intros e Hs He.
  destruct s as [|c s']; [injection He as <-; constructor|].
  inversion Hs as [|? ? Hc Hs']; subst.
  cbn [encodeURIComponent] in He.
  destruct (unreserved c) eqn:Hu.
  { destruct (encodeURIComponent s') as [e'|] eqn:He'; [|discriminate].
    injection He as <-. constructor.
    - unfold encoded_unit. by rewrite Hu.
    - by apply (IH s' ltac:(simpl; lia)). }
  destruct (trail_surrogate c) eqn:Ht; [discriminate|].
  destruct (lead_surrogate c) eqn:Hl.
  { destruct s' as [|d s'']; [discriminate|].
    destruct (trail_surrogate d) eqn:Hd; [|discriminate].
    destruct (encodeURIComponent s'') as [e''|] eqn:He''; [|discriminate].
    injection He as <-. inversion Hs' as [|? ? _ Hs'']; subst.
    apply Forall_app. split.
    - apply escape_encoded.
      unfold lead_surrogate, trail_surrogate in Hl, Hd.
      apply andb_true_iff in Hl as [Hl1 Hl2]. apply andb_true_iff in Hd as [Hd1 Hd2].
      apply N.leb_le in Hl1, Hl2, Hd1, Hd2. lia.
    - by apply (IH s'' ltac:(simpl; lia)). }
  destruct (encodeURIComponent s') as [e'|] eqn:He'; [|discriminate].
  injection He as <-. apply Forall_app. split.
  - apply escape_encoded. lia.
  - by apply (IH s' ltac:(simpl; lia)).
Qed.

Lemma encoded_no_slash e :
  Forall (fun c => encoded_unit c = true) e -> ch "/" ∉ e.
Proof.
  intros He Hin. rewrite Forall_forall in He. by specialize (He _ Hin).
Qed.

Lemma decode_plain s :
  Forall (fun c => c <> 37) s -> decodeURIComponent s = Some s.
Proof.
  induction 1 as [|c s Hc _ IH]; [done|].
  cbn [decodeURIComponent]. rewrite (proj2 (N.eqb_neq c 37)) by done.
  by rewrite IH.
Qed.

Lemma digits_plain s :
  Forall (fun c => is_digit c = true) s ->
  Forall (fun c => c <> 37) s /\ (ch "/" ∉ s).
Proof.
  intros Hs. split.
  - eapply Forall_impl; [exact Hs|]. by intros c Hc ->.
  - intros Hin. rewrite Forall_forall in Hs. by specialize (Hs _ Hin).
Qed.

(** X1: decoding an encoded component gives back the string. *)
Theorem decodeURIComponent_undoes_encodeURIComponent s e :
  Forall (fun c => c < 65536) s ->
  encodeURIComponent s = Some e ->
  decodeURIComponent e = Some s.
Proof.
  intros Hs He.
  pose proof (decode_encode_app s e [] Hs He) as H.
  rewrite app_nil_r in H. rewrite H. simpl. by rewrite app_nil_r.
Qed.

Lemma decodeURIComponent_undoes_encodeURIComponent_witness :
  decodeURIComponent (js "R%C4%81ma%20%E0%A4%B0%F0%9F%99%8F")
  = Some (js "R" ++ [257] ++ js "ma " ++ [2352; 55357; 56911]).
Proof.
  apply (decodeURIComponent_undoes_encodeURIComponent
           (js "R" ++ [257] ++ js "ma " ++ [2352; 55357; 56911])).
  - repeat constructor.
  - reflexivity.
Defined.

(** X2: the encoder writes nothing but unreserved characters and percent
    escapes, so no slash. *)
Theorem encodeURIComponent_writes_no_separator s e :
  Forall (fun c => c < 65536) s ->
  encodeURIComponent s = Some e ->
  Forall (fun c => encoded_unit c = true) e
  /\ (ch "/" ∉ e) /\ (ch " " ∉ e) /\ (ch "&" ∉ e) /\ (ch "?" ∉ e)
  /\ (ch "#" ∉ e)
  /\ split_slash e = [e].
Proof.
  intros Hs He. pose proof (encode_encoded s e Hs He) as H.
  split; [done|].
  assert (Hn : forall c, encoded_unit c = false -> c ∉ e).
  { intros c Hc Hin. rewrite Forall_forall in H. specialize (H _ Hin). congruence. }
  repeat split; try (by apply Hn).
  apply split_slash_plain. by apply Hn.
Qed.

Lemma encodeURIComponent_writes_no_separator_witness :
  Forall (fun c => encoded_unit c = true) (js "a%2Fb%20c%26d")
  /\ (ch "/" ∉ js "a%2Fb%20c%26d") /\ (ch " " ∉ js "a%2Fb%20c%26d")
  /\ (ch "&" ∉ js "a%2Fb%20c%26d") /\ (ch "?" ∉ js "a%2Fb%20c%26d")
  /\ (ch "#" ∉ js "a%2Fb%20c%26d")
  /\ split_slash (js "a%2Fb%20c%26d") = [js "a%2Fb%20c%26d"].
Proof.
  apply (encodeURIComponent_writes_no_separator (js "a/b c&d")).
  - repeat constructor.
  - reflexivity.
Defined.

(** X3: the renderer recovers from the link exactly the reference the
    final pass wrote into it. *)
Theorem anchor_recovers_citation k s v :
  Forall (fun c => c < 65536) k ->
  Forall (fun c => is_digit c = true) s ->
  Forall (fun c => is_digit c = true) v ->
  forall link, citation_link k s v = Some link ->
  exists href,
    link = js "[" ++ k ++ js " " ++ s ++ js ":" ++ v ++ js "](" ++ href ++ js ")"
    /\ anchor decodeURIComponent href
       = Some (Some (citation_button k (Some s) (Some v))).
Proof.
  intros Hk Hs Hv link Hlink. unfold citation_link in Hlink.
  destruct (encodeURIComponent k) as [ek|] eqn:Hek; [|discriminate].
  simpl in Hlink. injection Hlink as <-.
  exists (js "http://citation/" ++ ek ++ js "/" ++ s ++ js "/" ++ v).
  split.
  { change (js "](http://citation/") with (js "](" ++ js "http://citation/").
    by rewrite <- !app_assoc. }
  destruct (digits_plain s Hs) as [Ps Ns]. destruct (digits_plain v Hv) as [Pv Nv].
  apply anchor_citation_link; try done.
  - apply encoded_no_slash. by apply (encode_encoded k).
  - pose proof (decode_encode_app k ek [] Hk Hek) as H.
    rewrite app_nil_r in H. rewrite H. simpl. by rewrite app_nil_r.
  - by apply decode_plain.
  - by apply decode_plain.
Qed.

Lemma anchor_recovers_citation_witness :
  exists href,
    js "[Bala Kanda 4:5](http://citation/Bala%20Kanda/4/5)"
    = js "[" ++ js "Bala Kanda" ++ js " " ++ js "4" ++ js ":" ++ js "5"
        ++ js "](" ++ href ++ js ")"
    /\ anchor decodeURIComponent href
       = Some (Some (citation_button (js "Bala Kanda") (Some (js "4")) (Some (js "5")))).
Proof.
  apply (anchor_recovers_citation (js "Bala Kanda") (js "4") (js "5"));
    first [reflexivity | repeat constructor].
Defined.

Section Stream.

Import SendMessage ThinkingBubble.

(** * The request and its stream *)

(** ** Lines *)

Lemma split_char_nonempty sep s : split_char sep s <> [].
Proof.
  destruct s as [|c s]; [done|]. cbn [split_char].
  destruct (c =? sep); [done|]. by destruct (split_char sep s).
Qed.

Lemma removelast_cons {A} (x : A) l : l <> [] -> removelast (x :: l) = x :: removelast l.
Proof. by destruct l. Qed.

Lemma last_cons_nonempty {A} (x : A) l : l <> [] -> last (x :: l) = last l.
Proof. by destruct l. Qed.

(** Splitting a text in two pieces: the lines of the first piece but the
    last, then the lines of what the last line becomes with the second
    piece. *)
Lemma split_char_app sep a b :
  split_char sep (a ++ b) =
    removelast (split_char sep a)
      ++ split_char sep (default [] (last (split_char sep a)) ++ b).
Proof.
  induction a as [|c a IH]; [done|].
  pose proof (split_char_nonempty sep a) as Hne.
  cbn [app split_char]. destruct (c =? sep) eqn:E.
  - rewrite removelast_cons, last_cons_nonempty by done. cbn [app]. by rewrite IH.
  - rewrite IH. destruct (split_char sep a) as [|p ps]; [done|].
    destruct ps as [|p' ps'].
    + simpl. by rewrite E.
    + rewrite (removelast_cons (c :: p)), (removelast_cons p) by done.
      rewrite !last_cons_nonempty by done. done.
Qed.

Lemma removelast_app_nonempty {A} (l1 l2 : list A) :
  l2 <> [] -> removelast (l1 ++ l2) = l1 ++ removelast l2.
Proof. intros. by apply removelast_app. Qed.

Lemma last_app_nonempty {A} (l1 l2 : list A) :
  l2 <> [] -> last (l1 ++ l2) = last l2.
Proof.
  intros Hne. rewrite last_app. destruct (last l2) as [x|] eqn:E; [done|].
  by apply last_None in E.
Qed.

Section Reading.

Variable parse : jsstring -> option data.
Variable assistantMsgId : Z.

Lemma read_loop_snoc chunks chunk st :
  read_loop parse assistantMsgId (chunks ++ [chunk]) st
  = on_chunk parse assistantMsgId (read_loop parse assistantMsgId chunks st) chunk.
Proof. unfold read_loop. by rewrite foldl_app. Qed.

Lemma read_loop_lines chunks st :
  read_loop parse assistantMsgId chunks st =
    (default [] (last (split_char 10 (concat chunks))),
     foldl (on_line parse assistantMsgId) st
       (removelast (split_char 10 (concat chunks)))).
Proof.
  induction chunks as [|chunk chunks IH] using rev_ind; [done|].
  rewrite read_loop_snoc, IH. unfold on_chunk. cbn [fst snd].
  rewrite concat_app. cbn [concat]. rewrite app_nil_r.
  rewrite (split_char_app 10 (concat chunks) chunk).
  set (L := split_char 10 (concat chunks)).
  set (L' := split_char 10 (default [] (last L) ++ chunk)).
  assert (HL' : L' <> []) by apply split_char_nonempty.
  rewrite removelast_app_nonempty, last_app_nonempty by done.
  by rewrite foldl_app.
Qed.

End Reading.

(** ** The stream, line by line *)

Section Lines.

Variable parse : jsstring -> option data.
Variable assistantMsgId : Z.

Lemma events_cons line lines :
  events parse (line :: lines) =
    match (if blank line then None else parse line) with
    | Some d => d :: events parse lines
    | None => events parse lines
    end.
Proof. done. Qed.

Lemma foldl_on_line lines : forall st,
  foldl (on_line parse assistantMsgId) st lines
  = mkAgent (prev ← messages st; run assistantMsgId (events parse lines) prev)
      (isThinking st)
      (default (currentThought st) (last (omap thought_of (events parse lines)))).
Proof.
  induction lines as [|line lines IH]; intros st.
  - destruct st as [[m|] i c]; done.
  - cbn [foldl]. rewrite IH, events_cons. unfold on_line.
    destruct (blank line); [done|].
    destruct (parse line) as [d|]; [|done].
    cbn [messages isThinking currentThought run]. f_equal.
    + by destruct (messages st).
    + destruct d; try done.
      change (omap thought_of (thought text :: events parse lines))
        with (text :: omap thought_of (events parse lines)).
      destruct (omap thought_of (events parse lines)) as [|t ts]; [done|].
      rewrite (last_cons_nonempty text (t :: ts)) by done.
      destruct (last (t :: ts)) eqn:E; [done|]. by apply last_None in E.
Qed.

(** A message that is neither the last one (by id) nor the one of the
    request is left alone by every event. *)
Lemma step_msg_other d lastMsg m :
  id m <> Some assistantMsgId -> id m <> id lastMsg ->
  step_msg assistantMsgId d lastMsg m = m.
Proof.
  intros H1 H2. unfold step_msg, content_rule.
  repeat case_decide; done.
Qed.

Lemma run_msg_other ds : forall lastMsg m,
  id m <> Some assistantMsgId -> id m <> id lastMsg ->
  run_msg assistantMsgId ds lastMsg m = m.
Proof.
  induction ds as [|d ds IH]; intros lastMsg m H1 H2; [done|].
  cbn [run_msg]. rewrite (step_msg_other d lastMsg m) by done.
  apply IH; [done|]. by rewrite step_msg_id.
Qed.

(** Nor is any message, when the last one is not the assistant's and
    none is the one of the request. *)
Lemma step_msg_idle d lastMsg m :
  role lastMsg <> assistant -> id m <> Some assistantMsgId ->
  step_msg assistantMsgId d lastMsg m = m.
Proof.
  intros H1 H2. unfold step_msg, content_rule.
  repeat case_decide; done.
Qed.

Lemma run_msg_idle ds : forall lastMsg m,
  role lastMsg <> assistant -> id lastMsg <> Some assistantMsgId ->
  id m <> Some assistantMsgId ->
  run_msg assistantMsgId ds lastMsg m = m.
Proof.
  induction ds as [|d ds IH]; intros lastMsg m H1 H2 H3; [done|].
  cbn [run_msg]. rewrite !step_msg_idle by done. by apply IH.
Qed.

(** The thoughts of a message through a stream. *)
Lemma step_msg_thoughts d lastMsg m :
  thoughts (step_msg assistantMsgId d lastMsg m) =
    thoughts m ++ (if decide (id m = Some assistantMsgId)
                   then omap thought_of [d] else []).
Proof.
  unfold step_msg, content_rule, last_rule.
  destruct d; repeat case_decide; simpl; rewrite ?app_nil_r; try done;
    unfold add_detail; by case_bool_decide.
Qed.

Lemma run_msg_thoughts ds : forall lastMsg m,
  thoughts (run_msg assistantMsgId ds lastMsg m) =
    thoughts m ++ (if decide (id m = Some assistantMsgId)
                   then omap thought_of ds else []).
Proof.
  induction ds as [|d ds IH]; intros lastMsg m.
  - simpl. case_decide; by rewrite app_nil_r.
  - cbn [run_msg]. rewrite IH, step_msg_thoughts, step_msg_id.
    case_decide; [|by rewrite !app_nil_r].
    rewrite <- app_assoc. f_equal. by destruct d.
Qed.

(** Nothing recorded is lost: the thoughts and the details of a message
    only grow at their end, and a plan stays a plan. *)
Lemma step_msg_grows d lastMsg m :
  thoughts m `prefix_of` thoughts (step_msg assistantMsgId d lastMsg m)
  /\ (forall j, stepDetails m j
                `prefix_of` stepDetails (step_msg assistantMsgId d lastMsg m) j)
  /\ (is_Some (plan m) -> is_Some (plan (step_msg assistantMsgId d lastMsg m))).
Proof.
  split; [|split].
  - rewrite step_msg_thoughts. by apply prefix_app_r.
  - intros j. unfold step_msg, content_rule, last_rule.
    destruct d; repeat case_decide; try done.
    all: rewrite stepDetails_add_detail; case_decide; [subst|done].
    all: case_bool_decide; [done|by apply prefix_app_r].
  - unfold step_msg, content_rule, last_rule.
    destruct d; repeat case_decide; simpl; try done.
    all: unfold add_detail; by case_bool_decide.
Qed.

Lemma run_msg_grows ds : forall lastMsg m,
  thoughts m `prefix_of` thoughts (run_msg assistantMsgId ds lastMsg m)
  /\ (forall j, stepDetails m j
                `prefix_of` stepDetails (run_msg assistantMsgId ds lastMsg m) j)
  /\ (is_Some (plan m) -> is_Some (plan (run_msg assistantMsgId ds lastMsg m))).
Proof.
  induction ds as [|d ds IH]; intros lastMsg m; [done|].
  cbn [run_msg].
  destruct (step_msg_grows d lastMsg m) as (H1 & H2 & H3).
  destruct (IH (step_msg assistantMsgId d lastMsg lastMsg)
              (step_msg assistantMsgId d lastMsg m)) as (I1 & I2 & I3).
  split; [etrans; [apply H1|apply I1]|]. split; [|by auto].
  intros j. etrans; [apply H2|apply I2].
Qed.

End Lines.

Lemma split_char_no_sep sep s :
  Forall (fun p => sep ∉ p) (split_char sep s).
Proof.
  induction s as [|c s IH]; [repeat constructor; by apply not_elem_of_nil|].
  pose proof (split_char_nonempty sep s) as Hne.
  cbn [split_char]. destruct (N.eqb_spec c sep) as [->|Hc].
  - constructor; [apply not_elem_of_nil|done].
  - destruct (split_char sep s) as [|p ps]; [done|].
    inversion IH as [|? ? Hp Hps]; subst. constructor; [|done].
    apply not_elem_of_cons. split; [congruence|done].
Qed.

Lemma split_char_plain sep s : sep ∉ s -> split_char sep s = [s].
Proof.
  induction s as [|c s IH]; intros Hn; [done|].
  apply not_elem_of_cons in Hn as [Hc Hs].
  cbn [split_char]. rewrite (proj2 (N.eqb_neq c sep)) by congruence.
  by rewrite IH.
Qed.

(** The lines of a text that ends with the separator. *)
Lemma split_char_terminated sep t :
  split_char sep (t ++ [sep]) = split_char sep t ++ [[]].
Proof.
  induction t as [|c t IH].
  - cbn [app split_char]. by rewrite N.eqb_refl.
  - cbn [app split_char]. rewrite IH. destruct (c =? sep); [done|].
    pose proof (split_char_nonempty sep t) as Hne.
    by destruct (split_char sep t).
Qed.

Lemma removelast_snoc {A} (l : list A) x : removelast (l ++ [x]) = l.
Proof. rewrite removelast_app by done. simpl. by rewrite app_nil_r. Qed.

Lemma split_char_unterminated sep t line :
  sep ∉ line ->
  removelast (split_char sep (t ++ [sep] ++ line)) = split_char sep t
  /\ last (split_char sep (t ++ [sep] ++ line)) = Some line.
Proof.
  intros Hn. rewrite app_assoc, split_char_app, split_char_terminated.
  rewrite removelast_snoc, last_snoc. simpl.
  rewrite (split_char_plain sep line Hn).
  by rewrite removelast_snoc, last_snoc.
Qed.

(** X8: however the stream is cut into chunks, the handlers see the same
    lines. *)
Theorem lines_do_not_depend_on_chunking parse assistantMsgId chunks st :
  let lines := split_char 10 (concat chunks) in
  let loop := read_loop parse assistantMsgId chunks st in
  loop.1 = default [] (last lines)
  /\ loop.2 = foldl (on_line parse assistantMsgId) st (removelast lines)
  /\ messages loop.2
     = (prev ← messages st;
        run assistantMsgId (events parse (removelast lines)) prev)
  /\ isThinking loop.2 = isThinking st
  /\ forall chunks',
       concat chunks' = concat chunks ->
       read_loop parse assistantMsgId chunks' st = loop.
Proof.
  intros lines loop. subst lines loop.
  rewrite read_loop_lines. cbn [fst snd].
  split; [done|]. split; [done|].
  rewrite foldl_on_line. split; [done|]. split; [done|].
  intros chunks' E. by rewrite read_loop_lines, E, foldl_on_line.
Qed.

(** X9: what follows the last line feed is never handled, not even when
    the stream ends. *)
Theorem unterminated_last_line_is_dropped
    parse assistantMsgId query done st (text line : jsstring) :
  10 ∉ line ->
  sendMessage parse assistantMsgId query [text ++ [10] ++ line] done st
  = sendMessage parse assistantMsgId query [text ++ [10]] done st.
Proof.
  intros Hn. unfold sendMessage. rewrite !read_loop_lines. cbn [snd concat].
  rewrite !app_nil_r.
  do 2 f_equal.
  etrans; [apply (proj1 (split_char_unterminated 10 text line Hn))|].
  symmetry. etrans; [apply f_equal, split_char_terminated|apply removelast_snoc].
Qed.

Lemma unterminated_last_line_is_dropped_witness :
  let parse := fun line : jsstring => Some (answer line) in
  sendMessage parse 7 (js "q") [js "a" ++ [10] ++ js "b"] true initial
  = sendMessage parse 7 (js "q") [js "a" ++ [10]] true initial.
Proof.
  intros parse.
  apply (unterminated_last_line_is_dropped parse 7 (js "q") true initial (js "a") (js "b")).
  rewrite list_elem_of_In. vm_compute. intuition discriminate.
Defined.

(** The state of the hook while the stream is read. *)
Lemma reading_state parse assistantMsgId query chunks prev thinking thought0 :
  Forall (fun m => id m <> Some assistantMsgId) prev ->
  let ds := events parse (removelast (split_char 10 (concat chunks))) in
  (read_loop parse assistantMsgId chunks
     (start assistantMsgId query (mkAgent (Some prev) thinking thought0))).2
  = mkAgent
      (Some (prev ++ [userMsg query;
                      run_msg assistantMsgId ds (placeholder assistantMsgId)
                        (placeholder assistantMsgId)]))
      true
      (default (js "Connecting to the Archives...") (last (omap thought_of ds))).
Proof.
  intros Hprev ds.
  unfold start, push. rewrite read_loop_lines. cbn [snd].
  rewrite foldl_on_line. cbn [messages fmap option_fmap option_map mbind option_bind].
  fold ds.
  rewrite (run_fmap assistantMsgId ds _ (placeholder assistantMsgId))
    by apply last_snoc.
  rewrite !fmap_app. cbn [fmap list_fmap].
  rewrite (run_msg_other assistantMsgId ds (placeholder assistantMsgId) (userMsg query))
    by done.
  assert (Hfix : run_msg assistantMsgId ds (placeholder assistantMsgId) <$> prev = prev).
  { clear -Hprev. induction Hprev as [|m prev Hm _ IH]; [done|].
    cbn [fmap list_fmap]. fold (fmap (run_msg assistantMsgId ds (placeholder assistantMsgId)) prev).
    rewrite IH. f_equal. apply run_msg_other; [done|].
    simpl. congruence. }
  rewrite Hfix. cbn [isThinking currentThought]. by rewrite <- app_assoc.
Qed.

(** X10: a request appends the question and one answer message, and an
    error message after them when the stream breaks; the messages that
    were there stay as they were. *)
Theorem sendMessage_appends
    parse assistantMsgId query chunks done prev thinking thought0 :
  Forall (fun m => id m <> Some assistantMsgId) prev ->
  let ds := events parse (removelast (split_char 10 (concat chunks))) in
  let answerMsg :=
    run_msg assistantMsgId ds (placeholder assistantMsgId)
      (placeholder assistantMsgId) in
  sendMessage parse assistantMsgId query chunks done
    (mkAgent (Some prev) thinking thought0)
  = mkAgent
      (Some (prev ++ [userMsg query; answerMsg]
               ++ (if done then [] else [errorMsg])))
      false []
  /\ id answerMsg = Some assistantMsgId
  /\ role answerMsg = assistant
  /\ thoughts answerMsg = omap thought_of ds.
Proof.
  intros Hprev ds answerMsg. split; [|split; [|split]].
  - unfold sendMessage. rewrite reading_state by done. fold ds. fold answerMsg.
    unfold finish, push.
    destruct done; cbn [messages fmap option_fmap option_map]; f_equal; f_equal;
      by rewrite <- ?app_assoc.
  - subst answerMsg. by rewrite run_msg_id.
  - subst answerMsg. by rewrite run_msg_role.
  - subst answerMsg. rewrite run_msg_thoughts. simpl. by rewrite decide_True.
Qed.

Lemma sendMessage_appends_witness :
  let parse := fun line : jsstring =>
    if bool_decide (line = js "T") then Some (thought (js "searching"))
    else Some (answer line) in
  let ds := events parse (removelast (split_char 10 (concat [js "T"; [10]; js "Rama"; [10]]))) in
  let answerMsg := run_msg 7 ds (placeholder 7) (placeholder 7) in
  sendMessage parse 7 (js "q") [js "T"; [10]; js "Rama"; [10]] false initial
  = mkAgent (Some ([greeting] ++ [userMsg (js "q"); answerMsg] ++ [errorMsg])) false []
  /\ id answerMsg = Some 7%Z
  /\ role answerMsg = assistant
  /\ thoughts answerMsg = omap thought_of ds.
Proof.
  intros parse.
  apply (sendMessage_appends parse 7 (js "q") [js "T"; [10]; js "Rama"; [10]] false
           [greeting] false []).
  repeat constructor. discriminate.
Defined.



(** X12: a stream whose request has no message in the list, met by a list
    whose last message is not the assistant's, changes nothing. *)
Theorem misaddressed_stream_changes_nothing assistantMsgId prev lastMsg ds :
  last prev = Some lastMsg -> role lastMsg <> assistant ->
  Forall (fun m => id m <> Some assistantMsgId) prev ->
  run assistantMsgId ds prev = Some prev.
Proof.
  intros Hl Hr Hprev. rewrite (run_fmap _ _ _ _ Hl). f_equal.
  assert (Hlast : id lastMsg <> Some assistantMsgId).
  { rewrite Forall_forall in Hprev. apply Hprev.
    apply last_Some in Hl as [l' ->]. apply elem_of_app. right. by left. }
  clear Hl. induction Hprev as [|m prev Hm _ IH]; [done|].
  cbn [fmap list_fmap]. fold (fmap (run_msg assistantMsgId ds lastMsg) prev).
  rewrite IH. f_equal. by apply run_msg_idle.
Qed.

Lemma misaddressed_stream_changes_nothing_witness :
  run 7 [plan_event [js "s"] 0; thought (js "t"); answer (js "a")]
    [greeting; userMsg (js "q")]
  = Some [greeting; userMsg (js "q")].
Proof.
  apply (misaddressed_stream_changes_nothing 7 [greeting; userMsg (js "q")] (userMsg (js "q"))).
  - reflexivity.
  - discriminate.
  - repeat constructor; discriminate.
Defined.

(** * The thinking bubble *)

Lemma slice_last_suffix {A} n (l : list A) :
  slice_last n l `suffix_of` l /\ length (slice_last n l) = (n `min` length l)%nat.
Proof.
  unfold slice_last. split.
  - apply suffix_drop.
  - rewrite length_drop. lia.
Qed.

(** X13: while the stream is read, the bubble shows the thoughts of the
    stream: the latest one as its headline, and the last two, the latest
    one again among them, below; once the request is over it is gone. *)
Theorem bubble_shows_latest_thoughts
    parse assistantMsgId query chunks done prev thinking thought0 :
  Forall (fun m => id m <> Some assistantMsgId) prev ->
  let ts :=
    omap thought_of
      (events parse (removelast (split_char 10 (concat chunks)))) in
  let reading :=
    (read_loop parse assistantMsgId chunks
       (start assistantMsgId query (mkAgent (Some prev) thinking thought0))).2 in
  thinking_indicator reading
  = ThinkingBubble.ThinkingBubble
      (default (js "Connecting to the Archives...") (last ts)) ts
  /\ (forall b, thinking_indicator reading = Some b ->
        recent b `suffix_of` ts
        /\ length (recent b) = (2 `min` length ts)%nat
        /\ (forall t : jsstring, last ts = Some t -> t <> [] ->
              headline b = t /\ last (recent b) = Some t))
  /\ thinking_indicator
       (sendMessage parse assistantMsgId query chunks done
          (mkAgent (Some prev) thinking thought0)) = None.
Proof.
  intros Hprev ts reading.
  assert (E : thinking_indicator reading
              = ThinkingBubble.ThinkingBubble
                  (default (js "Connecting to the Archives...") (last ts)) ts).
  { subst reading. rewrite reading_state by done.
    unfold thinking_indicator.
    cbn [SendMessage.isThinking SendMessage.currentThought SendMessage.messages
         mbind option_bind].
    rewrite last_app. cbn [last fmap option_fmap option_map default].
    rewrite run_msg_thoughts. simpl. by rewrite decide_True. }
  split; [done|]. split; [|done].
  intros b Hb. rewrite E in Hb. unfold ThinkingBubble.ThinkingBubble in Hb.
  destruct (slice_last_suffix 2 ts) as [Hsuf Hlen].
  assert (Hb' : recent b = slice_last 2 ts).
  { destruct (default (js "Connecting to the Archives...") (last ts)), ts;
      try discriminate; by injection Hb as <-. }
  rewrite Hb'. split; [done|]. split; [done|].
  intros t Ht Hne.
  assert (Hl : last (slice_last 2 ts) = Some t).
  { destruct Hsuf as [pre Hpre].
    assert (Hnn : slice_last 2 ts <> []).
    { intros Hnil. apply (f_equal length) in Hnil. rewrite Hlen in Hnil.
      destruct ts; [done|]. simpl in Hnil. lia. }
    rewrite Hpre in Ht at 1. by rewrite last_app_nonempty in Ht. }
  split; [|done].
  destruct (last ts) as [t'|]; [|done]. injection Ht as ->.
  cbn [default] in Hb.
  destruct t as [|c t]; [done|]. by injection Hb as <-.
Qed.

Lemma bubble_shows_latest_thoughts_witness :
  let parse := fun line : jsstring => Some (thought line) in
  let chunks := [js "a"; [10]; js "b"; [10]; js "c"; [10]] in
  let ts := omap thought_of (events parse (removelast (split_char 10 (concat chunks)))) in
  let reading :=
    (read_loop parse 7 chunks (start 7 (js "q") (mkAgent (Some [greeting]) false []))).2 in
  thinking_indicator reading
  = ThinkingBubble.ThinkingBubble
      (default (js "Connecting to the Archives...") (last ts)) ts
  /\ (forall b, thinking_indicator reading = Some b ->
        recent b `suffix_of` ts
        /\ length (recent b) = (2 `min` length ts)%nat
        /\ (forall t : jsstring, last ts = Some t -> t <> [] ->
              headline b = t /\ last (recent b) = Some t))
  /\ thinking_indicator
       (sendMessage parse 7 (js "q") chunks true (mkAgent (Some [greeting]) false []))
     = None.
Proof.
  intros parse chunks.
  apply (bubble_shows_latest_thoughts parse 7 (js "q") chunks true [greeting] false []).
  repeat constructor. discriminate.
Defined.

End Stream.

(** * The history of conversations *)

Section History.

Import UseHistory.

Lemma Forall2_imap_diag {A B} (R : A -> B -> Prop) (l : list A) :
  forall f : nat -> A -> B,
  (forall i x, l !! i = Some x -> R x (f i x)) -> Forall2 R l (imap f l).
Proof.
  induction l as [|x l IH]; intros f Hf; [constructor|].
  cbn [imap]. constructor; [by apply (Hf 0%nat)|].
  apply IH. intros i y Hy. by apply (Hf (S i)).
Qed.

Lemma short_title_length content : (length (short_title content) <= 43)%nat.
Proof.
  unfold short_title. rewrite length_app, length_take.
  destruct (40 <? length content)%nat.
  - change (length (js "...")) with 3%nat. lia.
  - change (length (@nil code_unit)) with 0%nat. lia.
Qed.

Lemma short_title_short content :
  (length content <= 40)%nat -> short_title content = content.
Proof.
  intros H. unfold short_title. rewrite take_ge by done.
  rewrite (proj2 (Nat.ltb_ge 40 (length content))) by done. apply app_nil_r.
Qed.

Variable stringify : list message -> jsstring.
Variable now : nat -> Z.

Lemma update_session_rule position msgs s :
  let s' := update_session stringify now position msgs s in
  id s' = id s
  /\ (title s <> js "New Conversation" -> title s' = title s)
  /\ (title s' = title s \/ (length (title s') <= 43)%nat)
  /\ (s' = s \/ messages s' = msgs).
Proof.
  unfold update_session. case_bool_decide as E; [by auto|].
  cbn [id title messages]. split; [done|]. split.
  - intros Hn. by rewrite bool_decide_false.
  - split; [|by right]. case_bool_decide; [|by left].
    destruct (find _ msgs); [right; apply short_title_length|by left].
Qed.

(** X14: an update rewrites the active session only, keeps every id in its
    place, gives a title once, of 43 code units at most, and touches
    neither the active session id nor the stored item. *)
Theorem updateActiveSession_touches_active_only msgs h :
  let h' := updateActiveSession stringify now msgs h in
  Forall2 (fun s s' =>
             id s' = id s
             /\ (activeSessionId h <> Some (id s) -> s' = s)
             /\ (title s <> js "New Conversation" -> title s' = title s)
             /\ (title s' = title s \/ (length (title s') <= 43)%nat)
             /\ (s' = s \/ messages s' = msgs))
    (sessions h) (sessions h')
  /\ activeSessionId h' = activeSessionId h
  /\ stored h' = stored h.
Proof.
  assert (Hsame : Forall2 (fun s s' =>
             id s' = id s
             /\ (activeSessionId h <> Some (id s) -> s' = s)
             /\ (title s <> js "New Conversation" -> title s' = title s)
             /\ (title s' = title s \/ (length (title s') <= 43)%nat)
             /\ (s' = s \/ messages s' = msgs)) (sessions h) (sessions h)).
  { apply Forall_Forall2_diag, Forall_forall. intros s _. by auto 10. }
  unfold updateActiveSession. destruct msgs as [|m msgs']; [done|].
  destruct (activeSessionId h) as [a|] eqn:Ea; [|done].
  destruct (a =? 0)%Z; [done|].
  cbn [sessions activeSessionId stored]. split; [|done].
  apply Forall2_imap_diag. intros i s _.
  case_bool_decide as Hid.
  - destruct (update_session_rule i (m :: msgs') s) as (H1 & H2 & H3 & H4).
    split; [done|]. split; [|done]. intros Hn. congruence.
  - by auto 10.
Qed.

Lemma filter_all_deleted target (l : list session) :
  Forall (fun s => id s = target) l -> filter (fun s => id s <> target) l = [].
Proof.
  induction 1 as [|s l Hs _ IH]; [done|].
  rewrite filter_cons_False by (intros Hn; by apply Hn). done.
Qed.

(** X15: the effect that saves the sessions skips the empty list, so the
    deletion of the last conversation never reaches the storage, and a
    reload brings it back. *)
Theorem deleted_last_session_returns target h :
  sessions h <> [] ->
  Forall (fun s => id s = target) (sessions h) ->
  let saved := save h in
  let deleted := save (deleteSession target saved) in
  sessions deleted = []
  /\ stored deleted = Some (sessions h)
  /\ sessions (reload deleted) = sessions h.
Proof.
  intros Hne Hall. unfold save, deleteSession, reload, load.
  destruct (sessions h) as [|s l] eqn:E; [done|].
  cbn [sessions stored activeSessionId].
  rewrite (filter_all_deleted target (s :: l)) by done. done.
Qed.

Lemma deleted_last_session_returns_witness :
  let s := mkSession 5 (js "New Conversation") 5 [] in
  let h := mkHistory [s] (Some 5%Z) None in
  sessions (save (deleteSession 5 (save h))) = []
  /\ stored (save (deleteSession 5 (save h))) = Some [s]
  /\ sessions (reload (save (deleteSession 5 (save h)))) = [s].
Proof.
  intros s h.
  apply (deleted_last_session_returns 5 h).
  - discriminate.
  - repeat constructor.
Defined.

(** X16: as long as a session is left, the deletion is saved: the stored
    item holds exactly the sessions with another id, in their order. *)
Theorem deletion_is_saved_while_a_session_is_left target h s :
  s ∈ sessions h -> id s <> target ->
  let deleted := save (deleteSession target h) in
  stored deleted = Some (sessions deleted)
  /\ sessions deleted = filter (fun s => id s <> target) (sessions h)
  /\ Forall (fun s => id s <> target) (sessions deleted)
  /\ activeSessionId deleted
     = (if bool_decide (activeSessionId h = Some target) then None
        else activeSessionId h).
Proof.
  intros Hin Hid. unfold save, deleteSession.
  cbn [sessions stored activeSessionId].
  assert (Hs : s ∈ filter (fun s => id s <> target) (sessions h))
    by (by apply list_elem_of_filter).
  destruct (filter (fun s => id s <> target) (sessions h)) as [|s0 l] eqn:E;
    [by apply elem_of_nil in Hs|].
  cbn [sessions stored activeSessionId]. split; [done|]. split; [done|]. split.
  - rewrite <- E. apply Forall_forall. intros x Hx.
    by apply list_elem_of_filter in Hx as [? _].
  - destruct (activeSessionId h) as [c|]; [|done].
    repeat case_bool_decide; congruence.
Qed.

Lemma deletion_is_saved_while_a_session_is_left_witness :
  let s1 := mkSession 5 (js "a") 5 [] in
  let s2 := mkSession 6 (js "b") 6 [] in
  let deleted := save (deleteSession 5 (mkHistory [s1; s2] (Some 5%Z) None)) in
  stored deleted = Some (sessions deleted)
  /\ sessions deleted = filter (fun s => id s <> 5%Z) [s1; s2]
  /\ Forall (fun s => id s <> 5%Z) (sessions deleted)
  /\ activeSessionId deleted
     = (if bool_decide (Some 5%Z = Some 5%Z) then None else Some 5%Z).
Proof.
  intros s1 s2.
  apply (deletion_is_saved_while_a_session_is_left 5
           (mkHistory [s1; s2] (Some 5%Z) None) s2).
  - right. left.
  - discriminate.
Defined.

End History.

(** * The application: conversations and their history *)

Section Application.

Import UseHistory App.

Variable stringify : list message -> jsstring.
Variable now : nat -> Z.

Lemma imap_fixed {A} (f : nat -> A -> A) (l : list A) :
  (forall i x, l !! i = Some x -> f i x = x) -> imap f l = l.
Proof.
  revert f. induction l as [|x l IH]; intros f Hf; [done|].
  cbn [imap]. rewrite (Hf 0%nat x) by done. f_equal.
  apply IH. intros i y Hy. by apply (Hf (S i)).
Qed.

Lemma find_first_by_id target (l : list session) session :
  NoDup (id <$> l) ->
  find (fun s => bool_decide (id s = target)) l = Some session ->
  forall s, s ∈ l -> id s = target -> s = session.
Proof.
  induction l as [|x l IH]; intros Hnd Hf s Hs Hid; [done|].
  cbn [fmap list_fmap] in Hnd. apply NoDup_cons in Hnd as [Hx Hnd].
  cbn [find] in Hf. case_bool_decide as Ex.
  - injection Hf as <-. apply elem_of_cons in Hs as [->|Hs]; [done|].
    exfalso. apply Hx. apply list_elem_of_fmap. exists s. split; [congruence|done].
  - apply elem_of_cons in Hs as [->|Hs]; [congruence|]. by apply IH.
Qed.

(** X17: opening a conversation of the history shows its messages and
    changes nothing in the history but the active session: the copy that
    follows finds the messages it already has. *)
Theorem opening_a_session_leaves_history target a session :
  NoDup (id <$> sessions (history a)) ->
  find (fun s => bool_decide (id s = target)) (sessions (history a))
    = Some session ->
  let a' := sync stringify now (handleSelectSession target a) in
  SendMessage.messages (agent a') = Some (messages session)
  /\ sessions (history a') = sessions (history a)
  /\ activeSessionId (history a') = Some target
  /\ stored (history a') = stored (history a).
Proof.
  intros Hnd Hf. unfold handleSelectSession. rewrite Hf. unfold sync.
  cbn [agent history SendMessage.messages].
  destruct (1 <? length (messages session))%nat; [|done].
  cbn [agent history SendMessage.messages].
  unfold updateActiveSession.
  destruct (messages session) as [|m msgs] eqn:Em; [done|].
  cbn [activeSessionId sessions stored].
  destruct (target =? 0)%Z; [done|].
  cbn [activeSessionId sessions stored]. split; [done|]. split; [|done].
  apply imap_fixed. intros i s Hs. case_bool_decide as Hid; [|done].
  assert (s = session) as ->.
  { apply (find_first_by_id target (sessions (history a))); try done.
    by apply list_elem_of_lookup_2 in Hs. }
  unfold update_session. by rewrite Em, bool_decide_true.
Qed.

(** X18: the first question names the conversation: a new session that
    receives messages for the first time takes as its title the start of
    the first user message, 40 code units and an ellipsis at most. *)
Theorem first_question_names_the_session n n' msgs firstUserMsg h :
  n <> 0%Z ->
  Forall (fun s => id s <> n) (sessions h) ->
  find (fun m => bool_decide (role m = user)) msgs = Some firstUserMsg ->
  stringify [] <> stringify msgs ->
  let h' := updateActiveSession stringify now msgs (createNewSession n n' h) in
  sessions h'
  = mkSession n (short_title (content firstUserMsg)) (now 0%nat) msgs
      :: sessions h
  /\ activeSessionId h' = Some n
  /\ (length (short_title (content firstUserMsg)) <= 43)%nat
  /\ ((length (content firstUserMsg) <= 40)%nat ->
      short_title (content firstUserMsg) = content firstUserMsg).
Proof.
  intros Hn Hfresh Hfind Hdiff.
  unfold updateActiveSession, createNewSession.
  destruct msgs as [|m msgs']; [done|].
  cbn [activeSessionId sessions stored].
  rewrite (proj2 (Z.eqb_neq n 0)) by done.
  cbn [activeSessionId sessions stored imap].
  split; [|split; [done|split; [apply short_title_length|apply short_title_short]]].
  f_equal.
  - rewrite bool_decide_true by done. unfold update_session.
    cbn [messages title id]. case_bool_decide; [done|].
    case_bool_decide; [|done]. by rewrite Hfind.
  - apply imap_fixed. intros i s Hs. unfold compose.
    case_bool_decide as Hid; [|done].
    rewrite Forall_forall in Hfresh. exfalso. apply (Hfresh s); [|done].
    by apply list_elem_of_lookup_2 in Hs.
Qed.

End Application.

Lemma opening_a_session_leaves_history_witness :
  let stringify := fun l : list message => concat (content <$> l) in
  let s1 := UseHistory.mkSession 5 (js "a") 5
              [SendMessage.greeting; SendMessage.userMsg (js "q")] in
  let s2 := UseHistory.mkSession 6 (js "b") 6 [] in
  let a := App.mkApp SendMessage.initial (UseHistory.mkHistory [s1; s2] None None) in
  let a' := App.sync stringify (fun _ => 9%Z) (App.handleSelectSession 5 a) in
  SendMessage.messages (App.agent a') = Some (UseHistory.messages s1)
  /\ UseHistory.sessions (App.history a') = UseHistory.sessions (App.history a)
  /\ UseHistory.activeSessionId (App.history a') = Some 5%Z
  /\ UseHistory.stored (App.history a') = UseHistory.stored (App.history a).
Proof.
  intros stringify s1 s2 a.
  apply (opening_a_session_leaves_history stringify (fun _ => 9%Z) 5 a s1).
  - repeat constructor; rewrite list_elem_of_In; simpl; intuition discriminate.
  - reflexivity.
Defined.

Lemma first_question_names_the_session_witness :
  let stringify := fun l : list message => concat (content <$> l) in
  let q := js "How did Rama keep his word when it cost him the throne?" in
  let msgs := [SendMessage.greeting; SendMessage.userMsg q] in
  let h := UseHistory.mkHistory [] None None in
  let h' := UseHistory.updateActiveSession stringify (fun _ => 9%Z) msgs
              (UseHistory.createNewSession 5 5 h) in
  UseHistory.sessions h'
  = UseHistory.mkSession 5 (UseHistory.short_title (content (SendMessage.userMsg q)))
      9 msgs :: UseHistory.sessions h
  /\ UseHistory.activeSessionId h' = Some 5%Z
  /\ (length (UseHistory.short_title (content (SendMessage.userMsg q))) <= 43)%nat
  /\ ((length (content (SendMessage.userMsg q)) <= 40)%nat ->
      UseHistory.short_title (content (SendMessage.userMsg q))
      = content (SendMessage.userMsg q)).
Proof.
  intros stringify q msgs h.
  apply (first_question_names_the_session stringify (fun _ => 9%Z) 5 5 msgs
           (SendMessage.userMsg q) h).
  - discriminate.
  - constructor.
  - reflexivity.
  - discriminate.
Defined.

(** * The research plan *)

Section Plan.

Import ResearchPlan.

(** X19: a click on a step flips what is shown of it and pins the result:
    from then on the step no longer opens and closes with the cursor,
    while the steps that were never clicked still do. *)
Theorem toggleStep_pins_the_step expandedSteps completedIndex i :
  let toggled := toggleStep completedIndex i expandedSteps in
  (forall later, expanded toggled later i
                 = negb (expanded expandedSteps completedIndex i))
  /\ (forall later j, j <> i ->
        expanded toggled later j = expanded expandedSteps later j)
  /\ (forall later j, expandedSteps !! j = None -> j <> i ->
        expanded toggled later j = isCurrent later j)
  /\ (forall details later,
        expanded expandedSteps completedIndex i = true ->
        step_rows details toggled later i = [])
  /\ (forall later,
        expanded (toggleStep later i toggled) later i
        = expanded expandedSteps completedIndex i).
Proof.
  intros toggled. subst toggled. unfold toggleStep.
  fold (expanded expandedSteps completedIndex i).
  assert (Hi : forall later,
            expanded (<[i:=negb (expanded expandedSteps completedIndex i)]> expandedSteps)
              later i = negb (expanded expandedSteps completedIndex i)).
  { intros later. unfold expanded at 1. by rewrite lookup_insert_eq. }
  assert (Hj : forall later j, j <> i ->
            expanded (<[i:=negb (expanded expandedSteps completedIndex i)]> expandedSteps)
              later j = expanded expandedSteps later j).
  { intros later j Hne. unfold expanded at 1. by rewrite lookup_insert_ne. }
  split; [done|]. split; [done|]. split; [|split].
  - intros later j Hnone Hne. rewrite Hj by done. unfold expanded. by rewrite Hnone.
  - intros details later He. unfold step_rows. by rewrite Hi, He.
  - intros later. unfold expanded at 1. rewrite !lookup_insert_eq. simpl.
    by destruct (expanded expandedSteps completedIndex i).
Qed.

End Plan.

(** * The documented bracket form, for every canto and all numbers *)

(** ** A lazy run, step by step *)

Section Lazy.

Variable i : bool.
Variable p : code_unit -> bool.

Lemma star_lazy_run k : forall fuel s caps,
  (length s <= fuel)%nat ->
  star false (match_re i (Class p)) k fuel s caps = lazy_run p k s caps.
Proof.
  induction fuel as [|fuel IH]; intros s caps Hf.
  - destruct s; [|simpl in Hf; lia]. simpl. by destruct (k [] caps).
  - destruct s as [|c s].
    + rewrite star_class_nil. simpl. by destruct (k [] caps).
    + destruct (p c) eqn:Hc.
      * rewrite star_class_step by done. cbn [lazy_run]. rewrite Hc.
        rewrite IH by (simpl in Hf; lia). done.
      * rewrite star_class_stop by done. cbn [lazy_run]. rewrite Hc.
        by destruct (k (c :: s) caps).
Qed.

Lemma rule_lazy k s caps X :
  lazy_run p k s caps = X ->
  match_re i (Star false (Class p)) k s caps = X.
Proof. intros <-. cbn [match_re]. apply star_lazy_run. lia. Qed.

Lemma rule_lazy_now k s caps res :
  k s caps = Some res -> lazy_run p k s caps = Some res.
Proof. intros H. destruct s; simpl; by rewrite H. Qed.

Lemma rule_lazy_next k c s caps X :
  p c = true -> k (c :: s) caps = None ->
  lazy_run p k s caps = X -> lazy_run p k (c :: s) caps = X.
Proof. intros Hc Hk <-. cbn [lazy_run]. by rewrite Hk, Hc. Qed.

Lemma rule_lazy_block (P : code_unit -> Prop) k ds s caps X :
  (forall c, P c -> p c = true) ->
  (forall c t, P c -> k (c :: t) caps = None) ->
  Forall P ds ->
  lazy_run p k s caps = X -> lazy_run p k (ds ++ s) caps = X.
Proof.
  intros Hp Hk Hds HX. induction Hds as [|d ds Hd _ IH]; [done|].
  cbn [app]. apply rule_lazy_next; [by apply Hp|by apply Hk|done].
Qed.

End Lazy.

(** ** Digits against the characters of a pattern *)

Lemma digit_is_dot c : is_digit c = true -> is_dot c = true.
Proof.
  intros H. destruct (digit_canonical c H) as [_ Hr]. unfold is_dot.
  repeat match goal with
    | |- context [N.eqb c ?k] => rewrite (proj2 (N.eqb_neq c k)) by lia
    end.
  done.
Qed.

Lemma digit_not_char i d c :
  is_digit d = true ->
  negb (is_digit c) && negb (is_digit (canonicalize c)) = true ->
  char_test i d c = false.
Proof.
  intros Hd Hc. destruct (digit_canonical d Hd) as [Hcan Hr].
  apply andb_true_iff in Hc as [H1 H2].
  apply negb_true_iff in H1, H2. unfold char_test. rewrite Hcan.
  destruct i; apply N.eqb_neq; intros ->; congruence.
Qed.

Lemma digit_not_colon_or_blank d : is_digit d = true -> colon_or_blank d = false.
Proof.
  intros H. destruct (digit_canonical d H) as [_ Hr]. unfold colon_or_blank.
  by rewrite !(proj2 (N.eqb_neq d _)) by lia.
Qed.

Lemma digit_colon_or_digit d : is_digit d = true -> colon_or_digit d = true.
Proof. intros H. unfold colon_or_digit. by rewrite H, orb_true_r. Qed.

(** The tests on single code units, digits included. *)
Ltac side2 :=
  solve [ assumption
        | vm_compute; reflexivity
        | apply digit_not_space; assumption
        | apply digit_is_dot; assumption
        | apply digit_not_colon_or_blank; assumption
        | apply digit_colon_or_digit; assumption
        | apply digit_not_char; [assumption | vm_compute; reflexivity] ].

(** The patterns of the goal as constructors, the inner ones of the
    first pass included. *)
Ltac expose2 :=
  cbv [BRACKET_CITATION_REGEX NAKED_CITATION_REGEX SARGA_ONLY_REGEX MARKER_REGEX
       KANDA_INDEX_REGEX NUMBER_REGEX
       source ignoreCase Cat Alts kanda_names kandaList fmap list_fmap
       Plus Opt digit space dot];
  lits;
  cbv [Lit]; cbn [app].

(** Deriving that a pattern fails, on texts with digits that are not
    known. *)
Ltac refute2 :=
  cbv beta;
  first
    [ lazymatch goal with
      | |- match_re _ (Seq _ _) _ _ _ = None => apply rule_seq; refute2
      | |- match_re _ (Group _ _) _ _ _ = None => apply rule_group; refute2
      | |- match_re _ (NonCapture _) _ _ _ = None => apply rule_noncapture; refute2
      | |- match_re _ Empty _ _ _ = None => apply rule_empty; refute2
      | |- match_re _ (Alt _ _) _ _ _ = None =>
          apply rule_alt_right; [refute2 | refute2]
      | |- match_re _ (Char _) _ [] _ = None => apply rule_char_nil
      | |- match_re _ (Class _) _ [] _ = None => apply rule_class_nil
      | |- match_re _ (Char _) _ (_ :: _) _ = None =>
          first [ apply rule_char_fail; side2 | apply rule_char; [side2 | refute2] ]
      | |- match_re _ (Class _) _ (_ :: _) _ = None =>
          first [ apply rule_class_fail; side2 | apply rule_class; [side2 | refute2] ]
      | |- match_re _ (Star true (Class _)) _ _ _ = None => apply rule_star; refute2
      | |- star _ _ _ _ [] _ = None => apply rule_star_nil; refute2
      | |- star true _ _ _ (_ :: _) _ = None =>
          first [ apply rule_star_stop; [side2 | refute2]
                | apply rule_star_greedy_back; [side2 | refute2 | refute2] ]
      end ].

(** Deriving that a pattern matches, and with what outcome. *)
Ltac derive2 :=
  cbv beta;
  lazymatch goal with
  | |- Some _ = Some _ => reflexivity
  | |- match_re _ (Seq _ _) _ _ _ = _ => apply rule_seq; derive2
  | |- match_re _ (Group _ _) _ _ _ = _ => apply rule_group; derive2
  | |- match_re _ (NonCapture _) _ _ _ = _ => apply rule_noncapture; derive2
  | |- match_re _ Empty _ _ _ = _ => apply rule_empty; derive2
  | |- match_re _ (Alt _ _) _ _ _ = Some _ =>
      first [ apply rule_alt_left; derive2
            | apply rule_alt_right; [refute2 | derive2] ]
  | |- match_re _ (Char _) _ (_ :: _) _ = Some _ =>
      apply rule_char; [side2 | derive2]
  | |- match_re _ (Class _) _ (_ :: _) _ = Some _ =>
      apply rule_class; [side2 | derive2]
  | |- match_re _ (NegLookahead _) _ _ _ = Some _ =>
      apply rule_neglook; [refute2 | derive2]
  | |- match_re _ (Star true (Class _)) _ _ _ = _ => apply rule_star; derive2
  | |- match_re _ (Star false (Class _)) _ _ _ = _ => apply rule_lazy; derive2
  | |- star true _ _ _ (_ :: _) _ = Some _ =>
      first [ apply rule_star_stop; [side2 | derive2]
            | apply rule_star_greedy; [side2 | derive2] ]
  | |- star true _ _ _ (_ ++ _) _ = Some _ =>
      apply rule_star_block; [assumption | lengths | cbn; side2 | derive2]
  | |- star true _ _ _ _ _ = Some _ =>
      apply rule_star_block_end; [assumption | lengths | derive2]
  | |- lazy_run _ _ (_ :: _) _ = Some _ =>
      first [ apply rule_lazy_now; derive2
            | apply rule_lazy_next; [side2 | refute2 | derive2] ]
  | |- lazy_run _ _ (_ ++ _) _ = Some _ =>
      apply (rule_lazy_block _ (fun c => is_digit c = true));
      [ intros; side2 | intros; refute2 | assumption | derive2 ]
  end.

(** ** The first pattern on a whole text *)

Lemma not_closing c : c <> 93 -> char_test true c 93 = false.
Proof.
  intros Hc. unfold char_test. change (canonicalize 93) with 93.
  apply N.eqb_neq. intros H. apply canonicalize_inv in H. lia.
Qed.

(** Between [[Verse: and ]], an inner text that does not start with
    white space and holds neither a line terminator nor a closing
    bracket is matched whole, and captured. *)
Lemma bracket_match_whole c0 rest :
  is_space c0 = false -> is_dot c0 = true ->
  Forall (fun c => is_dot c = true /\ c <> 93) rest ->
  let text := js "[[Verse: " ++ c0 :: rest ++ js "]]" in
  match_here BRACKET_CITATION_REGEX text
  = Some (text, [None; Some (c0 :: rest); None; None]).
Proof.
  intros Hs Hd Hrest text. subst text. unfold match_here.
  assert (H : match_re (ignoreCase BRACKET_CITATION_REGEX)
                (source BRACKET_CITATION_REGEX)
                (fun s' caps' => Some (s', caps'))
                (js "[[Verse: " ++ c0 :: rest ++ js "]]") (replicate 4 None)
              = Some ([], <[1%nat := Some (c0 :: rest)]> (replicate 4 None))).
  { expose2.
    repeat first [ apply rule_seq | apply rule_char; [side2|] ]. cbv beta.
    apply rule_star. apply rule_star_greedy; [side2|].
    apply rule_star_stop; [assumption|].
    apply rule_seq. apply rule_group. apply rule_seq.
    apply rule_class; [assumption|]. apply rule_lazy.
    apply (rule_lazy_block _ (fun c => is_dot c = true /\ c <> 93)).
    { by intros c [? _]. }
    { intros c t [_ Hc]. cbv beta. apply rule_seq. apply rule_char_fail.
      by apply not_closing. }
    { done. }
    apply rule_lazy_now. cbv beta.
    apply rule_seq. apply rule_char; [side2|]. apply rule_char; [side2|].
    cbv beta. do 4 f_equal.
    apply (take_suffix_diff (c0 :: rest) [93; 93]). }
  rewrite H. f_equal. f_equal. apply take_all_diff.
Qed.

(** ** [test] and the scan, from matches at known places *)

Lemma exec_from_dead re s : forall off, dead re s -> exec_from re off s = None.
Proof.
  induction s as [|c s IH]; intros off Hd.
  - cbn [exec_from]. pose proof (Hd 0%nat) as H0. cbn [drop] in H0. by rewrite H0.
  - cbn [exec_from]. pose proof (Hd 0%nat) as H0. cbn [drop] in H0. rewrite H0.
    apply IH. intros j. apply (Hd (S j)).
Qed.

Lemma test_dead re s : dead re s -> test re s = false.
Proof.
  intros Hd. unfold test, exec. rewrite exec_from_dead by done.
  apply bool_decide_false. by intros [? ?].
Qed.

Lemma exec_from_at re s : forall j off x,
  match_here re (drop j s) = Some x -> is_Some (exec_from re off s).
Proof.
  induction s as [|c s IH]; intros j off [m caps] H.
  - rewrite drop_nil in H. cbn [exec_from]. by rewrite H.
  - cbn [exec_from]. destruct (match_here re (c :: s)) as [[m' caps']|] eqn:E; [done|].
    destruct j as [|j]; [simpl in H; congruence|].
    by apply (IH j (S off) (m, caps)).
Qed.

Lemma test_at re s j res :
  match_re (ignoreCase re) (source re) (fun s' caps' => Some (s', caps'))
    (drop j s) (replicate 4 None) = Some res ->
  test re s = true.
Proof.
  intros H. unfold test, exec. apply bool_decide_true.
  apply (exec_from_at re s j 0%nat
           (take (length (drop j s) - length res.1) (drop j s), res.2)).
  unfold match_here. rewrite H. by destruct res.
Qed.

(** The matched texts of a scan do not depend on where it started
    counting. *)
Lemma scan_matched re s : forall skip off off',
  matched <$> omap hit_of (scan re skip off s)
  = matched <$> omap hit_of (scan re skip off' s).
Proof.
  induction s as [|c s IH]; intros skip off off'.
  - cbn [scan]. destruct skip; [|done]. by destruct (match_here re []) as [[m caps]|].
  - cbn [scan]. destruct skip as [|skip]; [|apply IH].
    destruct (match_here re (c :: s)) as [[m caps]|]; [|cbn; apply IH].
    destruct (length m); cbn; f_equal; apply IH.
Qed.

Lemma match_all_skip re c s :
  match_here re (c :: s) = None -> match_all re (c :: s) = match_all re s.
Proof.
  intros H. unfold match_all, hits, segments. cbn [scan]. rewrite H. cbn.
  apply scan_matched.
Qed.

Lemma match_all_block re m rest caps :
  m <> [] ->
  match_here re (m ++ rest) = Some (m, caps) ->
  match_all re (m ++ rest) = m :: match_all re rest.
Proof.
  intros Hne H. unfold match_all, hits, segments.
  destruct m as [|c m]; [done|]. cbn [app] in *. cbn [scan]. rewrite H.
  cbn [length]. cbn. f_equal.
  rewrite scan_skip by (rewrite length_app; lia).
  rewrite drop_app_length. apply scan_matched.
Qed.

Lemma match_all_nil re : match_here re [] = None -> match_all re [] = [].
Proof. intros H. unfold match_all, hits, segments. cbn [scan]. by rewrite H. Qed.

(** The numbers of a text. *)
Lemma number_none c t : is_digit c = false -> match_here NUMBER_REGEX (c :: t) = None.
Proof. intros H. unfold match_here, NUMBER_REGEX. cbn. by rewrite H. Qed.

Lemma number_block ds rest :
  ds <> [] -> Forall (fun c => is_digit c = true) ds ->
  match rest with [] => True | c :: _ => is_digit c = false end ->
  match_here NUMBER_REGEX (ds ++ rest) = Some (ds, replicate 4 None).
Proof.
  intros Hne Hds Hrest. destruct ds as [|d ds]; [done|].
  inversion Hds as [|? ? Hd Hds']; subst.
  unfold match_here.
  assert (H : match_re (ignoreCase NUMBER_REGEX) (source NUMBER_REGEX)
                (fun s' caps' => Some (s', caps')) ((d :: ds) ++ rest)
                (replicate 4 None) = Some (rest, replicate 4 None)).
  { unfold NUMBER_REGEX, Plus, digit. cbn [source ignoreCase app].
    apply rule_seq. apply rule_class; [done|]. apply rule_star.
    apply rule_star_block; [done|rewrite length_app; lia|done|done]. }
  rewrite H. f_equal. f_equal. apply take_suffix_diff.
Qed.

Lemma match_all_number_skip c s :
  is_digit c = false -> match_all NUMBER_REGEX (c :: s) = match_all NUMBER_REGEX s.
Proof. intros H. apply match_all_skip. by apply number_none. Qed.

Lemma match_all_number_block ds rest :
  ds <> [] -> Forall (fun c => is_digit c = true) ds ->
  match rest with [] => True | c :: _ => is_digit c = false end ->
  match_all NUMBER_REGEX (ds ++ rest) = ds :: match_all NUMBER_REGEX rest.
Proof.
  intros Hne Hds Hrest. eapply match_all_block; [done|]. by apply number_block.
Qed.

Lemma match_all_number_nil : match_all NUMBER_REGEX [] = [].
Proof. by apply match_all_nil. Qed.

Lemma match_all_number_end ds :
  ds <> [] -> Forall (fun c => is_digit c = true) ds ->
  match_all NUMBER_REGEX ds = [ds].
Proof.
  intros Hne Hds. pose proof (match_all_number_block ds [] Hne Hds I) as H.
  rewrite app_nil_r in H. by rewrite H, match_all_number_nil.
Qed.

(** ** The inner text of the documented form *)

Lemma digit_no_word x w :
  negb (is_digit x) && negb (is_digit (canonicalize x)) = true ->
  forall c t, is_digit c = true ->
  match_here (mkRegExp (Lit (x :: w)) true) (c :: t) = None.
Proof.
  intros Hx c t Hc. apply match_here_first.
  - cbn [source ignoreCase]. pose proof (digit_not_char true c x Hc Hx) as H.
    unfold char_test in H. destruct w; cbn [Lit first nullable]; by rewrite H.
  - cbn [source]. by destruct w.
Qed.

Lemma digit_no_kanda_index c t :
  is_digit c = true -> match_here KANDA_INDEX_REGEX (c :: t) = None.
Proof. intros H. apply match_here_first; [|reflexivity]. digit_first. Qed.

(** [walk_all], with the inner patterns of the first pass. *)
Ltac walk_all2 digit_lemma :=
  repeat first
    [ apply dead_nil; vm_compute; reflexivity
    | apply dead_cons;
      [ first [ solve [apply digit_lemma; assumption]
              | solve [apply match_here_none; expose2; refute2] ] |]
    | apply (dead_app _ (fun c => is_digit c = true));
      [intros; by apply digit_lemma | assumption |]
    | apply (dead_block _ (fun c => is_digit c = true));
      [intros; by apply digit_lemma | vm_compute; reflexivity | assumption] ].

Lemma if_test_true re s (a b : option jsstring) :
  test re s = true -> (if test re s then a else b) = a.
Proof. by intros ->. Qed.

Lemma if_test_false re s (a b : option jsstring) :
  test re s = false -> (if test re s then a else b) = b.
Proof. by intros ->. Qed.

(** The canto of an inner text that starts with a canto name: the
    names before it in the list occur nowhere in the text. *)
Ltac find_name :=
  unfold kandaList; cbn [find];
  repeat match goal with
    | |- (if test (mkRegExp (Lit ?w) true) ?s then _ else _) = _ =>
        first
          [ rewrite (if_test_true (mkRegExp (Lit w) true) s)
              by (eapply (test_at _ _ 0%nat); cbn [drop]; expose2; derive2)
          | rewrite (if_test_false (mkRegExp (Lit w) true) s)
              by (apply test_dead; walk_all2 (digit_no_word (hd 0 w) (tl w) eq_refl)) ]
    end;
  reflexivity.

Ltac numbers :=
  repeat first
    [ rewrite match_all_number_nil
    | rewrite match_all_number_skip by (vm_compute; reflexivity)
    | match goal with
      | |- context [match_all NUMBER_REGEX (?d :: ?ds ++ ?rest)] =>
          change (d :: ds ++ rest) with ((d :: ds) ++ rest);
          rewrite (match_all_number_block (d :: ds) rest)
            by first [ discriminate | by constructor | vm_compute; reflexivity | exact I ]
      | |- context [match_all NUMBER_REGEX (?d :: ?ds)] =>
          rewrite (match_all_number_end (d :: ds))
            by first [ discriminate | by constructor ]
      end ].

(** ** The four passes on a text that is one bracketed reference *)

Lemma whole_bracket_extracted c0 rest kanda sarga shloka :
  is_space c0 = false -> is_dot c0 = true ->
  Forall (fun c => is_dot c = true /\ c <> 93) rest ->
  let text := js "[[Verse: " ++ c0 :: rest ++ js "]]" in
  let m := marker kanda sarga shloka in
  bracket_replacer (mkHit 0 text [None; Some (c0 :: rest); None; None]) = m ->
  dead NAKED_CITATION_REGEX m -> dead SARGA_ONLY_REGEX m ->
  match_here MARKER_REGEX m
    = Some (m, [None; Some kanda; Some sarga; Some shloka]) ->
  processedContent text = citation_link kanda sarga shloka
  /\ citations text = [(kanda, sarga, shloka)].
Proof.
  intros Hs Hd Hrest text m Hr Hn Hg Hm.
  pose proof (bracket_match_whole c0 rest Hs Hd Hrest) as Hb.
  assert (H1 : bracket_pass text = m).
  { unfold bracket_pass. subst text.
    change (js "[[Verse: " ++ c0 :: rest ++ js "]]")
      with (91 :: (js "[Verse: " ++ c0 :: rest ++ js "]]")) in *.
    rewrite (replace_whole _ _ _ _ _ Hb) by (vm_compute; reflexivity). done. }
  assert (H2 : naked_pass m = m).
  { apply replace_withheld. intros h Hh.
    rewrite (dead_hits _ _ Hn) in Hh. by apply elem_of_nil in Hh. }
  assert (H3 : sarga_pass m = m).
  { apply replace_withheld. intros h Hh.
    rewrite (dead_hits _ _ Hg) in Hh. by apply elem_of_nil in Hh. }
  assert (Hmarked : marked text = m) by (unfold marked; by rewrite H1, H2, H3).
  assert (Hcons : m = 91 :: (js "[CIT:" ++ kanda ++ js "|" ++ sarga ++ js "|" ++ shloka ++ js "]]"))
    by done.
  clearbody m. rewrite Hcons in Hm, Hmarked.
  split.
  - unfold processedContent. rewrite Hmarked. unfold final_pass.
    rewrite (replace_opt_whole _ _ _ _ _ Hm) by (vm_compute; reflexivity).
    unfold marker_replacer. by rewrite group_1, group_2, group_3.
  - unfold citations. rewrite Hmarked. unfold hits.
    match goal with
    | |- context [segments MARKER_REGEX ?t] =>
        let H := fresh in
        assert (H : segments MARKER_REGEX t
                    = [Hit (mkHit 0 t [None; Some kanda; Some sarga; Some shloka])])
          by (apply segments_whole; [exact Hm|vm_compute; reflexivity]);
        rewrite H
    end.
    cbn [omap list_omap hit_of fmap list_fmap].
    by rewrite group_1, group_2, group_3.
Qed.

(** The code units of an inner text: no line terminator, no closing
    bracket. *)
Lemma digit_plain c : is_digit c = true -> is_dot c = true /\ c <> 93.
Proof.
  intros H. split; [by apply digit_is_dot|].
  destruct (digit_canonical c H) as [_ Hr]. lia.
Qed.

Ltac plain :=
  repeat first
    [ apply Forall_nil_2
    | apply Forall_cons; split;
      [ first [ by apply digit_plain | split; [vm_compute; reflexivity | discriminate] ] |]
    | apply Forall_app; split
    | solve [ eapply Forall_impl; [eassumption|]; intros ? ?; by apply digit_plain ] ].

(** The frame of a proof for one canto: the bracketed text is matched
    whole, [replacer] shows what the first pass writes for it, and the
    marker goes through the other passes. *)
Ltac bracket_case replacer :=
  match goal with
  | |- processedContent (js "[[Verse: " ++ (?K ++ ?tail) ++ js "]]") = _ /\ _ =>
      let c0 := eval vm_compute in (hd 0 K) in
      let r := eval vm_compute in (tl K) in
      apply (whole_bracket_extracted c0 (r ++ tail))
  end;
  [ vm_compute; reflexivity
  | vm_compute; reflexivity
  | lits; cbn [app]; plain
  | replacer
  | unfold marker; lits; cbn [app]; walk_all digit_no_naked
  | unfold marker; lits; cbn [app]; walk_all digit_no_sarga
  | unfold marker; lits; cbn [app]; match_whole ].

(** What the first pass writes for "K Kanda s:v". *)
Ltac pair_with_kanda :=
  match goal with
  | |- context [js " Kanda " ++ (?d :: ?ds) ++ _] =>
      apply (bracket_replacer_two_numbers_indexed _ _ (d :: ds))
  end;
  rewrite group_1; lits; cbn [app];
  [ find_name
  | match goal with
    | |- test _ ?s = true =>
        first [ eapply (test_at _ _ 5%nat); cbn [drop]; expose2; derive2
              | eapply (test_at _ _ 7%nat); cbn [drop]; expose2; derive2
              | eapply (test_at _ _ 8%nat); cbn [drop]; expose2; derive2
              | eapply (test_at _ _ 11%nat); cbn [drop]; expose2; derive2 ]
    end
  | numbers; reflexivity ].

(** What the first pass writes for "K Kanda n". *)
Ltac single_with_kanda :=
  match goal with
  | |- context [js " Kanda " ++ (?d :: ?ds)] =>
      apply (bracket_replacer_one_number_indexed _ _ (d :: ds))
  end;
  rewrite group_1; lits; cbn [app];
  [ find_name
  | first [ eapply (test_at _ _ 5%nat); cbn [drop]; expose2; derive2
          | eapply (test_at _ _ 7%nat); cbn [drop]; expose2; derive2
          | eapply (test_at _ _ 8%nat); cbn [drop]; expose2; derive2
          | eapply (test_at _ _ 11%nat); cbn [drop]; expose2; derive2 ]
  | numbers; reflexivity ].

(** What it writes for "K s:v" and for "K n". *)
Ltac pair_without_kanda :=
  match goal with
  | |- context [js " " ++ (?d :: ?ds) ++ _] =>
      apply (bracket_replacer_two_numbers _ _ (d :: ds))
  end;
  rewrite group_1; lits; cbn [app];
  [ find_name
  | apply test_dead; walk_all2 digit_no_kanda_index
  | numbers; reflexivity ].

Ltac single_without_kanda :=
  match goal with
  | |- context [js " " ++ (?d :: ?ds)] =>
      apply (bracket_replacer_one_number _ _ (d :: ds))
  end;
  rewrite group_1; lits; cbn [app];
  [ find_name
  | apply test_dead; walk_all2 digit_no_kanda_index
  | numbers; reflexivity ].

Ltac each_canto HK tac :=
  unfold kandaList in HK;
  repeat (apply elem_of_cons in HK as [->|HK]); [..|by apply elem_of_nil in HK];
  tac.

(** X20: the bracketed form the code documents, canto, "Kanda", chapter
    and verse, loses the chapter for every canto and all numbers: the
    chapter is taken for a canto index, the verse becomes the chapter,
    and the reference comes out as a whole chapter (verse "0"). *)
Theorem documented_bracket_form_loses_the_chapter K s v :
  K ∈ kandaList ->
  is_number s -> is_number v ->
  let text := js "[[Verse: " ++ (K ++ js " Kanda " ++ s ++ js ":" ++ v) ++ js "]]" in
  processedContent text = citation_link (K ++ js " Kanda") v (js "0")
  /\ citations text = [(K ++ js " Kanda", v, js "0")].
Proof.
  intros HK [Hs0 Hs] [Hv0 Hv] text. subst text.
  destruct s as [|d ds]; [done|]. destruct v as [|e vs]; [done|].
  inversion Hs as [|? ? Hd Hds]; subst. inversion Hv as [|? ? He Hvs]; subst.
  clear Hs0 Hv0 Hs Hv.
  each_canto HK ltac:(bracket_case pair_with_kanda).
Qed.

(** X21: with a single number after "Kanda", the case the code comment
    gives as its example, the number is lost for every canto: it is
    taken for a canto index, and the reference falls to the default
    chapter 1, verse 1. *)
Theorem bracket_chapter_reference_falls_to_default K n :
  K ∈ kandaList ->
  is_number n ->
  let text := js "[[Verse: " ++ (K ++ js " Kanda " ++ n) ++ js "]]" in
  processedContent text = citation_link (K ++ js " Kanda") (js "1") (js "1")
  /\ citations text = [(K ++ js " Kanda", js "1", js "1")].
Proof.
  intros HK [Hn0 Hn] text. subst text.
  destruct n as [|d ds]; [done|].
  inversion Hn as [|? ? Hd Hds]; subst. clear Hn0 Hn.
  each_canto HK ltac:(bracket_case single_with_kanda).
Qed.

(** X22: without the word "Kanda" the bracketed form is read as the
    comments describe: canto, chapter and verse come out as written,
    and a single number is a whole chapter (verse "0"). *)
Theorem bracket_form_without_kanda_is_read_as_written K s v :
  K ∈ kandaList ->
  is_number s -> is_number v ->
  (let text := js "[[Verse: " ++ (K ++ js " " ++ s ++ js ":" ++ v) ++ js "]]" in
   processedContent text = citation_link (K ++ js " Kanda") s v
   /\ citations text = [(K ++ js " Kanda", s, v)])
  /\ (let text := js "[[Verse: " ++ (K ++ js " " ++ s) ++ js "]]" in
      processedContent text = citation_link (K ++ js " Kanda") s (js "0")
      /\ citations text = [(K ++ js " Kanda", s, js "0")]).
Proof.
  intros HK [Hs0 Hs] [Hv0 Hv].
  destruct s as [|d ds]; [done|]. destruct v as [|e vs]; [done|].
  inversion Hs as [|? ? Hd Hds]; subst. inversion Hv as [|? ? He Hvs]; subst.
  clear Hs0 Hv0 Hs Hv.
  split; cbv zeta.
  - each_canto HK ltac:(bracket_case pair_without_kanda).
  - each_canto HK ltac:(bracket_case single_without_kanda).
Qed.

Lemma documented_bracket_form_loses_the_chapter_witness :
  let text := js "[[Verse: " ++ (js "Sundara" ++ js " Kanda " ++ js "35" ++ js ":" ++ js "12")
                ++ js "]]" in
  processedContent text
  = citation_link (js "Sundara" ++ js " Kanda") (js "12") (js "0")
  /\ citations text = [(js "Sundara" ++ js " Kanda", js "12", js "0")].
Proof.
  apply (documented_bracket_form_loses_the_chapter (js "Sundara") (js "35") (js "12")).
  - unfold kandaList. do 4 right. left.
  - split; [discriminate|repeat constructor].
  - split; [discriminate|repeat constructor].
Defined.

Lemma bracket_chapter_reference_falls_to_default_witness :
  let text := js "[[Verse: " ++ (js "Yuddha" ++ js " Kanda " ++ js "18") ++ js "]]" in
  processedContent text = citation_link (js "Yuddha" ++ js " Kanda") (js "1") (js "1")
  /\ citations text = [(js "Yuddha" ++ js " Kanda", js "1", js "1")].
Proof.
  apply (bracket_chapter_reference_falls_to_default (js "Yuddha") (js "18")).
  - unfold kandaList. do 5 right. left.
  - split; [discriminate|repeat constructor].
Defined.

Lemma bracket_form_without_kanda_is_read_as_written_witness :
  (let text := js "[[Verse: " ++ (js "Bala" ++ js " " ++ js "4" ++ js ":" ++ js "5")
                 ++ js "]]" in
   processedContent text = citation_link (js "Bala" ++ js " Kanda") (js "4") (js "5")
   /\ citations text = [(js "Bala" ++ js " Kanda", js "4", js "5")])
  /\ (let text := js "[[Verse: " ++ (js "Bala" ++ js " " ++ js "4") ++ js "]]" in
      processedContent text = citation_link (js "Bala" ++ js " Kanda") (js "4") (js "0")
      /\ citations text = [(js "Bala" ++ js " Kanda", js "4", js "0")]).
Proof.
  apply (bracket_form_without_kanda_is_read_as_written (js "Bala") (js "4") (js "5")).
  - left.
  - split; [discriminate|repeat constructor].
  - split; [discriminate|repeat constructor].
Defined.
